(** * Retrieval-result processing, quality gating and the in-process cache

  A shallow embedding of the JavaScript services of the repository:
  - [Js]: the fragment of the JavaScript library the services call
    (strings, truthiness, number formatting);
  - [CacheService]: the in-memory cache with one expiration timer per key;
  - [QueryProcessor]: query rewriting and result curation;
  - [RAGController]: the quality gate, the TTL policy and the two query
    handlers;
  - [CacheEntries]: the typed entry points of the cache;
  - [JsMap], [JsArray]: insertion-ordered maps and array slices;
  - [MemoryDocumentService]: the in-memory document store;
  - [RetrievalService]: the client of the retrieval backend;
  - [DocumentService]: the document service of the controller, a
    wrapper of the in-memory store and of a MySQL database;
  - [Ingestion]: the ingestion handlers of the controller;
  - [StreamingUtils]: the event stream of a query;
  - [Health]: the detailed health check.

  Conventions.  Strings are byte strings; the character classes of the
  regular expressions ([\s], [\w], upper and lower case) are the ones of
  the ASCII range.  Numbers that the code only compares, subtracts and
  prints (similarity scores) are the exact rational values of finite
  doubles.  A JavaScript object used as a dictionary is an association
  list of its own properties in creation order; a name that is no own
  property is looked up among those of [Object.prototype].  Code that
  can throw returns a completion or an outcome. *)

From Stdlib Require Import ZArith QArith Qabs Qround List Bool Lia Permutation Sorted.
From Stdlib Require Import Ascii.
From Stdlib Require String DecimalString.
From stdpp Require Import gmap strings.

Import ListNotations.
Local Open Scope Z_scope.

(* ===================================================================== *)
(** * Part I.  The embedding                                              *)
(* ===================================================================== *)

Module Js.

(** ** Characters *)

Definition code (c : ascii) : N := N_of_ascii c.

Definition between (lo hi : N) (c : ascii) : bool :=
  ((lo <=? code c) && (code c <=? hi))%N.

(** [\s]: TAB, LF, VT, FF, CR and SPACE. *)
Definition isWhiteSpace (c : ascii) : bool :=
  between 9 13 c || between 32 32 c.

Definition isUpper (c : ascii) : bool := between 65 90 c.
Definition isLower (c : ascii) : bool := between 97 122 c.
Definition isDigit (c : ascii) : bool := between 48 57 c.

(** [\w]: letters, digits and the underscore. *)
Definition isWordChar (c : ascii) : bool :=
  isUpper c || isLower c || isDigit c || between 95 95 c.

Definition lowerChar (c : ascii) : ascii :=
  if isUpper c then ascii_of_N (code c + 32) else c.

(** ** Strings *)

(** [s.toLowerCase()] *)
Fixpoint toLowerCase (s : string) : string :=
  match s with
  | EmptyString => EmptyString
  | String c r => String (lowerChar c) (toLowerCase r)
  end.

Fixpoint trimStart (s : string) : string :=
  match s with
  | EmptyString => EmptyString
  | String c r => if isWhiteSpace c then trimStart r else s
  end.

Fixpoint trimEnd (s : string) : string :=
  match s with
  | EmptyString => EmptyString
  | String c r =>
      match trimEnd r with
      | EmptyString => if isWhiteSpace c then EmptyString else String c EmptyString
      | r' => String c r'
      end
  end.

(** [s.trim()] *)
Definition trim (s : string) : string := trimEnd (trimStart s).

(** [s.includes(sub)] *)
Fixpoint includes (s sub : string) : bool :=
  String.prefix sub s ||
  match s with
  | EmptyString => false
  | String _ r => includes r sub
  end.

(** [s.endsWith(suffix)], used for the [$]-anchored patterns. *)
Fixpoint endsWith (s suffix : string) : bool :=
  String.eqb s suffix ||
  match s with
  | EmptyString => false
  | String _ r => endsWith r suffix
  end.

Definition startsWithSep (sep : ascii -> bool) (s : string) : bool :=
  match s with
  | EmptyString => false
  | String c _ => sep c
  end.

Fixpoint endsWithSep (sep : ascii -> bool) (s : string) : bool :=
  match s with
  | EmptyString => false
  | String c r =>
      match r with
      | EmptyString => sep c
      | String _ _ => endsWithSep sep r
      end
  end.

(** [s.split(/[sep]+/)]: the pieces between maximal runs of separator
    characters.  A run at the very start or the very end leaves an empty
    piece there, and the empty string splits into one empty piece. *)
Fixpoint split (sep : ascii -> bool) (s : string) : list string :=
  match s with
  | EmptyString => [EmptyString]
  | String c r =>
      if sep c then
        if startsWithSep sep r then split sep r
        else EmptyString :: split sep r
      else
        match split sep r with
        | [] => [String c EmptyString]
        | p :: ps => String c p :: ps
        end
  end.

(** [s.match(/[cls]+/g) || []]: the maximal non-empty runs of characters
    of the class, left to right.  For [\b\w+\b] the class is [\w]. *)
Fixpoint runs (cls : ascii -> bool) (s : string) : list string :=
  match s with
  | EmptyString => []
  | String c r =>
      if cls c then
        if startsWithSep cls r then
          match runs cls r with
          | [] => [String c EmptyString]
          | p :: ps => String c p :: ps
          end
        else String c EmptyString :: runs cls r
      else runs cls r
  end.

(** [l.join(sep)] *)
Definition join (sep : string) (l : list string) : string := String.concat sep l.

(** [[...new Set(l)]]: a [Set] keeps the first insertion of each value, in
    insertion order. *)
Definition setAdd (acc : list string) (x : string) : list string :=
  if existsb (String.eqb x) acc then acc else acc ++ [x].

Definition newSet (l : list string) : list string := fold_left setAdd l [].

(** ** Values and truthiness *)

(** The values a cache payload can be; [O] is the type of objects (arrays
    and records), which are all truthy. *)
Inductive value (O : Type) : Type :=
| Undefined
| Null
| Bool (b : bool)
| Num (z : Z)
| NaN
| Str (s : string)
| Obj (o : O).

Arguments Undefined {O}.
Arguments Null {O}.
Arguments Bool {O} b.
Arguments Num {O} z.
Arguments NaN {O}.
Arguments Str {O} s.
Arguments Obj {O} o.

(** ToBoolean *)
Definition truthy {O} (v : value O) : bool :=
  match v with
  | Undefined | Null | NaN => false
  | Bool b => b
  | Num z => negb (z =? 0)
  | Str s => negb (String.eqb s EmptyString)
  | Obj _ => true
  end.

(** [a || b] *)
Definition or {O} (a b : value O) : value O := if truthy a then a else b.

(** [a || b] on optional strings ([None] is [undefined]). *)
Definition orStr (a b : option string) : option string :=
  match a with
  | Some s => if String.eqb s EmptyString then b else a
  | None => b
  end.

(** [a || b] on optional numbers: [0] and [undefined] are falsy. *)
Definition orNum (a b : option Z) : option Z :=
  match a with
  | Some z => if z =? 0 then b else a
  | None => b
  end.

(** ** Numbers *)

(** A number that may also be [NaN] or infinite; [Fin q] carries the exact
    value. *)
Inductive number : Type :=
| NotANumber
| NegInfinity
| PosInfinity
| Fin (q : Q).

(** [a / b] for integers [a] and [b]; a finite quotient is given exactly. *)
Definition div (a b : Z) : number :=
  if b =? 0 then
    if a =? 0 then NotANumber
    else if a <? 0 then NegInfinity else PosInfinity
  else Fin (Qmake a 1 / Qmake b 1).

(** [a < b] and [a > b] on finite numbers. *)
Definition ltQ (a b : Q) : bool := negb (Qle_bool b a).
Definition gtQ (a b : Q) : bool := negb (Qle_bool a b).

(** [Math.max(...l)]: [-Infinity] for no argument. *)
Definition maxOf (l : list Q) : number :=
  match l with
  | [] => NegInfinity
  | x :: r => Fin (fold_left (fun m y => if Qle_bool m y then y else m) r x)
  end.

Definition minOf (l : list Q) : number :=
  match l with
  | [] => PosInfinity
  | x :: r => Fin (fold_left (fun m y => if Qle_bool y m then y else m) r x)
  end.

(** [a < b] on numbers; a comparison with [NaN] is false. *)
Definition lt (a b : number) : bool :=
  match a, b with
  | NotANumber, _ | _, NotANumber => false
  | _, NegInfinity => false
  | NegInfinity, _ => true
  | PosInfinity, _ => false
  | Fin _, PosInfinity => true
  | Fin x, Fin y => ltQ x y
  end.

(** Decimal digits of a natural number: [String(n)]. *)
Definition decimal (n : N) : string :=
  DecimalString.NilZero.string_of_uint (N.to_uint n).

(** [s.padStart(width, "0")] *)
Definition padLeft (width : nat) (s : string) : string :=
  (String.concat "" (repeat "0" (width - String.length s)) +:+ s)%string.

(** [x.toFixed(3)] for [|x| < 10^21]: the integer [n] nearest to
    [x * 1000], the larger one on a tie, printed with three decimals. *)
Definition toFixed3Q (x : Q) : string :=
  let neg := ltQ x 0 in
  let a := Qabs x in
  let n := Qfloor (a * 1000 + (1 # 2)) in
  let ip := Z.to_N (n / 1000) in
  let fp := Z.to_N (n mod 1000) in
  ((if neg then "-" else "") +:+ decimal ip +:+ "." +:+ padLeft 3 (decimal fp))%string.

Definition toFixed3 (x : number) : string :=
  match x with
  | NotANumber => "NaN"
  | NegInfinity => "-Infinity"
  | PosInfinity => "Infinity"
  | Fin q => toFixed3Q q
  end.

(** ** Arrays *)

(** [l.sort((a, b) => key(b) - key(a))]: the sort is stable, so the result
    is the one of a stable insertion sort.  An element is inserted in front
    of the first element whose key is not greater than its own. *)
Fixpoint insertDesc {A} (key : A -> Q) (x : A) (l : list A) : list A :=
  match l with
  | [] => [x]
  | y :: l' => if Qle_bool (key y) (key x) then x :: l else y :: insertDesc key x l'
  end.

Fixpoint sortDesc {A} (key : A -> Q) (l : list A) : list A :=
  match l with
  | [] => []
  | x :: l' => insertDesc key x (sortDesc key l')
  end.

(** [l.map((x, index) => f(x, index))] *)
Fixpoint mapIndexFrom {A B} (f : A -> nat -> B) (i : nat) (l : list A) : list B :=
  match l with
  | [] => []
  | x :: l' => f x i :: mapIndexFrom f (S i) l'
  end.

Definition mapIndex {A B} (f : A -> nat -> B) (l : list A) : list B :=
  mapIndexFrom f 0 l.

(** ** Objects used as dictionaries *)

Fixpoint digitsValue (acc : N) (s : string) : option N :=
  match s with
  | EmptyString => Some acc
  | String c r =>
      if isDigit c then digitsValue (acc * 10 + (code c - 48))%N r else None
  end.

(** An array index: the canonical decimal form of an integer below
    [2^32 - 1].  Such property names are enumerated first. *)
Definition arrayIndex (s : string) : option N :=
  match s with
  | EmptyString => None
  | String c r =>
      if (code c =? 48)%N && negb (String.eqb r EmptyString) then None
      else match digitsValue 0 s with
           | Some n => if (n <? 4294967295)%N then Some n else None
           | None => None
           end
  end.

Fixpoint insertIndex {V} (n : N) (e : string * V) (l : list (N * (string * V)))
    : list (N * (string * V)) :=
  match l with
  | [] => [(n, e)]
  | (m, e') :: l' =>
      if (n <? m)%N then (n, e) :: l else (m, e') :: insertIndex n e l'
  end.

Fixpoint indexEntries {V} (o : list (string * V)) : list (N * (string * V)) :=
  match o with
  | [] => []
  | e :: o' =>
      match arrayIndex (fst e) with
      | Some n => insertIndex n e (indexEntries o')
      | None => indexEntries o'
      end
  end.

Definition isNamed {V} (e : string * V) : bool :=
  match arrayIndex (fst e) with Some _ => false | None => true end.

(** [Object.entries(o)]: the array-index keys in ascending numeric order,
    then the other keys in creation order. *)
Definition entries {V} (o : list (string * V)) : list (string * V) :=
  map snd (indexEntries o) ++ List.filter isNamed o.

(** [String(z)] for an integer. *)
Definition numToString (z : Z) : string :=
  if z <? 0 then ("-" +:+ decimal (Z.to_N (- z)))%string else decimal (Z.to_N z).

(** SameValueZero on values that are texts or [undefined]. *)
Definition sameValue (a b : option string) : bool :=
  match a, b with
  | Some x, Some y => String.eqb x y
  | None, None => true
  | _, _ => false
  end.

Definition addValue (acc : list (option string)) (x : option string) : list (option string) :=
  if existsb (sameValue x) acc then acc else acc ++ [x].

(** [new Set(l)] for such values. *)
Definition newSetOfValues (l : list (option string)) : list (option string) :=
  fold_left addValue l [].

(** ** Completions *)

(** How the evaluation of a piece of code ends: with a value, or with a
    [TypeError] that the code does not catch. *)
Inductive completion (A : Type) : Type :=
| Normal (value : A)
| TypeError (message : string).

Arguments Normal {A} value.
Arguments TypeError {A} message.

(** The statements after one that may throw. *)
Definition andThen {A B} (c : completion A) (rest : A -> completion B) : completion B :=
  match c with
  | Normal value => rest value
  | TypeError message => TypeError message
  end.

(** ** Object literals *)

(** The property names of [Object.prototype], which every object literal
    inherits: eleven functions and the accessor [__proto__].  The value
    of each of them is truthy and is not an array. *)
Definition objectPrototype : list string :=
  [ "constructor"; "__defineGetter__"; "__defineSetter__"; "hasOwnProperty";
    "__lookupGetter__"; "__lookupSetter__"; "isPrototypeOf";
    "propertyIsEnumerable"; "toString"; "valueOf"; "__proto__";
    "toLocaleString" ].

Definition inherited (key : string) : bool := existsb (String.eqb key) objectPrototype.

(** [Object.hasOwn(o, key)] *)
Definition hasOwn {V} (key : string) (o : list (string * V)) : bool :=
  existsb (fun e => String.eqb (fst e) key) o.

End Js.

(** ** The cache service

  [memoryCache] and [cacheTimeouts] are the two module-level [Map]s.  The
  host's timer queue is part of the state: [setTimeout] appends a pending
  [Timeout] and returns its handle, [clearTimeout] removes it, and the
  passing of time runs the callbacks that are due.  Every timer of this
  module runs the same callback, the closure of [_setCacheWithExpiration]
  over [key], so a pending timer records that key.  Delays are in
  milliseconds; the host replaces a delay that is not between 1 and
  [TIMEOUT_MAX] by 1. *)
Module CacheService.
Section Payload.

Context {T : Type}.

Record Timeout : Type := {
  handle : nat;
  fires_at : Z;
  callback_key : string
}.

Record state : Type := {
  memoryCache : gmap string (Js.value T);
  cacheTimeouts : gmap string nat;
  pending : list Timeout;
  next_handle : nat;
  clock : Z
}.

Definition init : state :=
  {| memoryCache := ∅; cacheTimeouts := ∅; pending := [];
     next_handle := 0%nat; clock := 0 |}.

(** The queue is kept in firing order: by time, then by creation. *)
Fixpoint enqueue (t : Timeout) (q : list Timeout) : list Timeout :=
  match q with
  | [] => [t]
  | u :: q' =>
      if fires_at u <=? fires_at t then u :: enqueue t q' else t :: u :: q'
  end.

(** The longest delay of a timer, [2 ** 31 - 1] milliseconds. *)
Definition TIMEOUT_MAX : Z := 2147483647.

(** [if (!(after >= 1 && after <= TIMEOUT_MAX)) after = 1], the delay
    that the host gives a timer asked for with [after]. *)
Definition timerDelay (after : Z) : Z :=
  if (1 <=? after) && (after <=? TIMEOUT_MAX) then after else 1.

(** [setTimeout(() => { memoryCache.delete(key); cacheTimeouts.delete(key) }, delay)] *)
Definition setTimeout (key : string) (delay : Z) (s : state) : nat * state :=
  let h := next_handle s in
  (h, {| memoryCache := memoryCache s;
         cacheTimeouts := cacheTimeouts s;
         pending := enqueue {| handle := h; fires_at := clock s + timerDelay delay;
                               callback_key := key |} (pending s);
         next_handle := S h;
         clock := clock s |}).

Definition clearTimeout (h : nat) (s : state) : state :=
  {| memoryCache := memoryCache s;
     cacheTimeouts := cacheTimeouts s;
     pending := List.filter (fun u => negb (handle u =? h)%nat) (pending s);
     next_handle := next_handle s;
     clock := clock s |}.

(** The body of the timer callback. *)
Definition expire (key : string) (s : state) : state :=
  {| memoryCache := delete key (memoryCache s);
     cacheTimeouts := delete key (cacheTimeouts s);
     pending := pending s;
     next_handle := next_handle s;
     clock := clock s |}.

Definition due (t : Z) (u : Timeout) : bool := fires_at u <=? t.

(** [dt] milliseconds pass: the timers that are due leave the queue and
    their callbacks run, in firing order. *)
Definition elapse (dt : N) (s : state) : state :=
  let t := clock s + Z.of_N dt in
  fold_left (fun s' u => expire (callback_key u) s')
    (List.filter (due t) (pending s))
    {| memoryCache := memoryCache s;
       cacheTimeouts := cacheTimeouts s;
       pending := List.filter (fun u => negb (due t u)) (pending s);
       next_handle := next_handle s;
       clock := t |}.

(** A stored handle is a [Timeout] object, so [if (timeoutId)] holds
    exactly when the key has an entry in [cacheTimeouts]. *)
Definition _clearExpired (key : string) (s : state) : state :=
  match cacheTimeouts s !! key with
  | Some timeoutId =>
      let s1 := clearTimeout timeoutId s in
      {| memoryCache := memoryCache s1;
         cacheTimeouts := delete key (cacheTimeouts s1);
         pending := pending s1;
         next_handle := next_handle s1;
         clock := clock s1 |}
  | None => s
  end.

Definition _setCacheWithExpiration (key : string) (value : Js.value T)
    (ttl : Z) (s : state) : state :=
  let s1 := _clearExpired key s in
  let s2 := {| memoryCache := <[key := value]> (memoryCache s1);
               cacheTimeouts := cacheTimeouts s1;
               pending := pending s1;
               next_handle := next_handle s1;
               clock := clock s1 |} in
  let '(timeoutId, s3) := setTimeout key (ttl * 1000) s2 in
  {| memoryCache := memoryCache s3;
     cacheTimeouts := <[key := timeoutId]> (cacheTimeouts s3);
     pending := pending s3;
     next_handle := next_handle s3;
     clock := clock s3 |}.

(** [memoryCache.get(key) || null] *)
Definition _getCache (key : string) (s : state) : Js.value T :=
  Js.or (default Js.Undefined (memoryCache s !! key)) Js.Null.

Definition _deleteCache (key : string) (s : state) : bool * state :=
  let s1 := _clearExpired key s in
  (bool_decide (is_Some (memoryCache s1 !! key)),
   {| memoryCache := delete key (memoryCache s1);
      cacheTimeouts := cacheTimeouts s1;
      pending := pending s1;
      next_handle := next_handle s1;
      clock := clock s1 |}).

(** [ttl || 600] for an optional numeric argument. *)
Definition ttlOrDefault (ttl : option Z) : Z :=
  match ttl with
  | Some t => if t =? 0 then 600 else t
  | None => 600
  end.

(** [cacheResult(key, value, ttl)]; nothing in the body throws. *)
Definition cacheResult (key : string) (value : Js.value T) (ttl : option Z)
    (s : state) : bool * state :=
  (true, _setCacheWithExpiration key value (ttlOrDefault ttl) s).

(** [getCachedResult(key)] *)
Definition getCachedResult (key : string) (s : state) : Js.value T :=
  let cachedValue := _getCache key s in
  if Js.truthy cachedValue then cachedValue else Js.Null.

(** [invalidateDocumentCache(documentId)] *)
Definition invalidateDocumentCache (documentId : string) (s : state)
    : bool * state :=
  _deleteCache ("doc_chunks:" +:+ documentId) s.

(** [getCacheStats().size] *)
Definition cacheSize (s : state) : nat := size (memoryCache s).

(** What a client of the service and the passing of time can do. *)
Inductive op : Type :=
| OpSet (key : string) (value : Js.value T) (ttl : Z)
| OpDelete (key : string)
| OpGet (key : string)
| OpElapse (dt : N).

Definition step (o : op) (s : state) : state :=
  match o with
  | OpSet key value ttl => _setCacheWithExpiration key value ttl s
  | OpDelete key => snd (_deleteCache key s)
  | OpGet _ => s
  | OpElapse dt => elapse dt s
  end.

Definition run (ops : list op) (s : state) : state := fold_left (fun s' o => step o s') ops s.

(** The states the service can be in. *)
Inductive reachable : state -> Prop :=
| reachable_init : reachable init
| reachable_step o s : reachable s -> reachable (step o s).

(** [o] neither stores nor deletes [key]. *)
Definition leaves (key : string) (o : op) : Prop :=
  match o with
  | OpSet k _ _ | OpDelete k => k <> key
  | OpGet _ | OpElapse _ => True
  end.

(** The pending timers whose callback deletes [key]. *)
Definition timersOf (key : string) (s : state) : list Timeout :=
  List.filter (fun u => String.eqb (callback_key u) key) (pending s).

(** The representation invariant: [cacheTimeouts] and the timer queue
    describe the same timers, one per key at most. *)
Record wf (s : state) : Prop := {
  wf_keys : List.NoDup (map callback_key (pending s));
  wf_handles : List.NoDup (map handle (pending s));
  wf_pending : forall u, In u (pending s) ->
                 cacheTimeouts s !! callback_key u = Some (handle u);
  wf_stored : forall k h, cacheTimeouts s !! k = Some h ->
                exists u, In u (pending s) /\ callback_key u = k /\ handle u = h;
  wf_fresh : forall u, In u (pending s) -> (handle u < next_handle s)%nat
}.

(** The timer that [_setCacheWithExpiration key _ ttl] starts in [s]. *)
Definition fresh_timer (key : string) (ttl : Z) (s : state) : Timeout :=
  {| handle := next_handle s; fires_at := clock s + timerDelay (ttl * 1000);
     callback_key := key |}.

(** No pending timer carries the handle [h], which has been handed out,
    unless it satisfies [P]. *)
Definition handed_out (P : Timeout -> Prop) (h : nat) (s : state) : Prop :=
  (h < next_handle s)%nat /\ forall u, In u (pending s) -> handle u = h -> P u.

(** Key [k] holds [v], to be deleted at time [t] by the timer [h]. *)
Definition live (k : string) (v : Js.value T) (t : Z) (h : nat) (s : state) : Prop :=
  memoryCache s !! k = Some v /\
  cacheTimeouts s !! k = Some h /\
  In {| handle := h; fires_at := t; callback_key := k |} (pending s).

End Payload.

Arguments state T : clear implicits.
Arguments op T : clear implicits.

End CacheService.

(** ** The typed entry points of the cache service

    [generateHash] is SHA-256 in hexadecimal; the entry points only use it
    to derive keys, so it is a parameter here. *)
Module CacheEntries.
Section Entries.

Context {T : Type}.
Variable generateHash : string -> string.

Local Abbreviation state := (CacheService.state T).

(** [`query:${this.generateHash(query.toLowerCase().trim())}`] *)
Definition queryKey (query : string) : string :=
  "query:" +:+ generateHash (Js.trim (Js.toLowerCase query)).

(** [cacheQueryResults(query, results, options)], with [options.ttl || 600] *)
Definition cacheQueryResults (query : string) (results : Js.value T)
    (ttl : option Z) (s : state) : bool * state :=
  (true, CacheService._setCacheWithExpiration (queryKey query) results
           (CacheService.ttlOrDefault ttl) s).

(** [getCachedQueryResults(query)] *)
Definition getCachedQueryResults (query : string) (s : state) : Js.value T :=
  let cachedResults := CacheService._getCache (queryKey query) s in
  if Js.truthy cachedResults then cachedResults else Js.Null.

(** [`embedding:${this.generateHash(content)}`] *)
Definition embeddingKey (content : string) : string :=
  "embedding:" +:+ generateHash content.

(** [cacheDocumentEmbedding(documentId, content, embedding, ttl = 3600)]:
    the default applies to a missing argument only. *)
Definition cacheDocumentEmbedding (documentId content : string)
    (embedding : Js.value T) (ttl : option Z) (s : state) : bool * state :=
  (true, CacheService._setCacheWithExpiration (embeddingKey content) embedding
           (default 3600 ttl) s).

(** [getCachedDocumentEmbedding(content)] *)
Definition getCachedDocumentEmbedding (content : string) (s : state) : Js.value T :=
  CacheService._getCache (embeddingKey content) s.

(** [`doc_chunks:${documentId}`] *)
Definition chunksKey (documentId : string) : string := "doc_chunks:" +:+ documentId.

(** [cacheDocumentChunks(documentId, chunks, ttl = 1800)] *)
Definition cacheDocumentChunks (documentId : string) (chunks : Js.value T)
    (ttl : option Z) (s : state) : bool * state :=
  (true, CacheService._setCacheWithExpiration (chunksKey documentId) chunks
           (default 1800 ttl) s).

(** [getCachedDocumentChunks(documentId)] *)
Definition getCachedDocumentChunks (documentId : string) (s : state) : Js.value T :=
  CacheService._getCache (chunksKey documentId) s.

End Entries.
End CacheEntries.

(** ** Results of the retrieval backend *)
Module Raw.

Record Metadata : Type := {
  source : option string;
  source_file : option string;
  document_name : option string;
  document_id : option string;
  page : option Z;
  section : option string;
  chunk_order : option Z
}.

(** [{}] *)
Definition noMetadata : Metadata :=
  {| source := None; source_file := None; document_name := None;
     document_id := None; page := None; section := None; chunk_order := None |}.

Record Result : Type := {
  chunk_id : string;
  content : string;
  similarity_score : Q;
  result_document_id : option string;
  metadata : option Metadata
}.

(** [result.metadata?.field] *)
Definition meta {A} (field : Metadata -> option A) (r : Result) : option A :=
  match metadata r with
  | Some m => field m
  | None => None
  end.

End Raw.

(** ** The query processor *)
Module QueryProcessor.

Definition queryExpansions : list (string * list string) :=
  [ ("install", ["setup"; "configuration"; "getting started"]);
    ("error", ["issue"; "problem"; "troubleshoot"; "fix"]);
    ("config", ["configuration"; "settings"; "preferences"; "options"]);
    ("api", ["interface"; "endpoint"; "call"; "integration"]);
    ("auth", ["authentication"; "authorization"; "login"; "security"]);
    ("performance", ["speed"; "optimization"; "efficiency"; "benchmark"]);
    ("deploy", ["deployment"; "release"; "publish"; "ship"]);
    ("upgrade", ["update"; "migration"; "version"; "change"]);
    ("monitor", ["track"; "observe"; "watch"; "metrics"; "logging"]);
    ("backup", ["restore"; "recovery"; "archive"; "save"]) ].

Definition stopWords : list string :=
  ["the"; "a"; "an"; "and"; "or"; "but"; "in"; "on"; "at"; "to"; "for";
   "of"; "with"; "by"].

(** [l.includes(x)] on an array of strings *)
Definition has (l : list string) (x : string) : bool := existsb (String.eqb x) l.

Record Rewritten : Type := {
  original : string;
  expanded : string;
  terms : list string;
  expansions : list string
}.

(** The [forEach] over [Object.keys(this.queryExpansions)]. *)
Definition expand (rewrittenQuery : string) : list string :=
  flat_map (fun '(term, relatedTerms) =>
              if Js.includes rewrittenQuery term then relatedTerms else [])
           queryExpansions.

Definition rewriteQuery (query : string) : Rewritten :=
  let originalQuery := Js.trim query in
  let rewrittenQuery := Js.toLowerCase originalQuery in
  let expansions := expand rewrittenQuery in
  let words := List.filter (fun word => negb (has stopWords word))
                 (Js.split Js.isWhiteSpace rewrittenQuery) in
  let allTerms := Js.newSet (words ++ expansions) in
  {| original := originalQuery;
     expanded := Js.join " " allTerms;
     terms := allTerms;
     expansions := expansions |}.

(** *** Technical terms *)

Definition isLetter (c : ascii) : bool := Js.isUpper c || Js.isLower c.

Fixpoint allChars (p : ascii -> bool) (s : string) : bool :=
  match s with
  | EmptyString => true
  | String c r => p c && allChars p r
  end.

(** [/^[a-z]+[A-Z][a-zA-Z]*$/], read after at least one lower-case letter
    has been consumed when [seen] is set. *)
Fixpoint camelCase (seen : bool) (s : string) : bool :=
  match s with
  | EmptyString => false
  | String c r =>
      if Js.isLower c then camelCase true r
      else seen && Js.isUpper c && allChars isLetter r
  end.

(** [/^[A-Z_]+$/] *)
Definition screamingSnake (s : string) : bool :=
  negb (String.eqb s EmptyString) &&
  allChars (fun c => Js.isUpper c || Js.between 95 95 c) s.

(** [/[0-9]{2,}/] *)
Fixpoint twoDigits (s : string) : bool :=
  match s with
  | EmptyString => false
  | String c r => (Js.isDigit c && Js.startsWithSep Js.isDigit r) || twoDigits r
  end.

(** [/\.(com|org|net|io|js|py|java|html|css|sql)$/] *)
Definition extension (s : string) : bool :=
  existsb (fun e => Js.endsWith s ("." +:+ e))
    ["com"; "org"; "net"; "io"; "js"; "py"; "java"; "html"; "css"; "sql"].

(** [/^(api|sdk|cli|gui|ui|ux|http|https|url|uri|json|xml|yaml|toml|env|cfg)$/] *)
Definition acronym (s : string) : bool :=
  has ["api"; "sdk"; "cli"; "gui"; "ui"; "ux"; "http"; "https"; "url"; "uri";
       "json"; "xml"; "yaml"; "toml"; "env"; "cfg"] s.

Definition isTechnicalTerm (term : string) : bool :=
  existsb (fun pattern => pattern term)
    [camelCase false; screamingSnake; twoDigits; extension; acronym].

Record Complexity : Type := {
  termCount : nat;
  averageLength : Js.number;
  hasTechnicalTerms : bool;
  isComplex : bool
}.

Definition analyzeQueryComplexity (terms : list string) : Complexity :=
  {| termCount := length terms;
     averageLength :=
       Js.div (Z.of_nat (fold_left (fun sum term => (sum + String.length term)%nat) terms 0%nat))
              (Z.of_nat (length terms));
     hasTechnicalTerms := existsb isTechnicalTerm terms;
     isComplex := (3 <? length terms)%nat ||
                  existsb (fun term => (15 <? String.length term)%nat) terms |}.

Record SearchQuery : Type := {
  originalQuery : string;
  searchQuery : string;
  topK : Z;
  expansionTerms : list string;
  queryComplexity : Complexity
}.

Definition prepareSearchQuery (query : string) (topK : Z) : SearchQuery :=
  let processed := rewriteQuery query in
  {| originalQuery := original processed;
     searchQuery := expanded processed;
     topK := Z.min (topK + 2) 20;
     expansionTerms := expansions processed;
     queryComplexity := analyzeQueryComplexity (terms processed) |}.

(** *** Curation *)

(** [new Set(content.toLowerCase().match(/\b\w+\b/g) || [])] *)
Definition wordSet (content : string) : list string :=
  Js.newSet (Js.runs Js.isWordChar (Js.toLowerCase content)).

(** The quotient of the two sizes is exact here; the code rounds it to a
    double, which compares with 0.9 in the same way as long as the union
    has fewer than 10^15 words. *)
Definition _calculateContentSimilarity (content1 content2 : string) : Q :=
  let words1 := wordSet content1 in
  let words2 := wordSet content2 in
  let intersection := Js.newSet (List.filter (fun x => has words2 x) words1) in
  let union := Js.newSet (words1 ++ words2) in
  if (0 <? length union)%nat
  then Z.of_nat (length intersection) # Pos.of_nat (length union)
  else 0.

(** [uniqueResults.some((existing) => similarity(result, existing) > 0.9)] *)
Definition isDuplicate (uniqueResults : list Raw.Result) (result : Raw.Result) : bool :=
  existsb (fun existing =>
             Js.gtQ (_calculateContentSimilarity (Raw.content result) (Raw.content existing))
                    (9 # 10))
          uniqueResults.

(** The body of the loop [for (const result of results)]. *)
Definition keepUnique (uniqueResults : list Raw.Result) (result : Raw.Result)
    : list Raw.Result :=
  if isDuplicate uniqueResults result then uniqueResults else uniqueResults ++ [result].

Definition _deduplicateResults (results : list Raw.Result) : list Raw.Result :=
  if (length results <=? 1)%nat then results
  else fold_left keepUnique results [].

(** [result.document_id || result.metadata?.source || "unknown"] *)
Definition docId (result : Raw.Result) : string :=
  default "unknown"
    (Js.orStr (Js.orStr (Raw.result_document_id result) (Raw.meta Raw.source result))
              (Some "unknown")).

(** [documentGroups[key].push(result)] when [key] is an own property of
    the dictionary, [documentGroups[key] = [result]] when it is none. *)
Fixpoint pushOwn (key : string) (result : Raw.Result)
    (documentGroups : list (string * list Raw.Result)) : list (string * list Raw.Result) :=
  match documentGroups with
  | [] => [(key, [result])]
  | (k, docResults) :: rest =>
      if String.eqb k key then (k, docResults ++ [result]) :: rest
      else (k, docResults) :: pushOwn key result rest
  end.

Definition notAFunction : string := "documentGroups[docId].push is not a function".

(** [if (!documentGroups[docId]) documentGroups[docId] = [];
     documentGroups[docId].push(result)].  [documentGroups] is the object
    literal [{}]: a name that is no own property of it is looked up in
    [Object.prototype], and what is found there is truthy and has no
    method [push]. *)
Definition pushGroup (key : string) (result : Raw.Result)
    (documentGroups : list (string * list Raw.Result))
    : Js.completion (list (string * list Raw.Result)) :=
  if negb (Js.hasOwn key documentGroups) && Js.inherited key
  then Js.TypeError notAFunction
  else Js.Normal (pushOwn key result documentGroups).

Definition maxChunksPerDocument : nat := 2.

(** The loop [for (const result of results)] over the dictionary. *)
Definition groups (results : list Raw.Result)
    (documentGroups : list (string * list Raw.Result))
    : Js.completion (list (string * list Raw.Result)) :=
  fold_left (fun groups result => Js.andThen groups (pushGroup (docId result) result))
            results (Js.Normal documentGroups).

(** The loop [for (const [docId, docResults] of Object.entries(documentGroups))
     limitedResults.push(...docResults.slice(0, maxChunksPerDocument))] *)
Definition limit (documentGroups : list (string * list Raw.Result)) : list Raw.Result :=
  flat_map (fun '(_, docResults) => firstn maxChunksPerDocument docResults)
           (Js.entries documentGroups).

Definition _groupResultsByDocument (results : list Raw.Result)
    : Js.completion (list Raw.Result) :=
  if (length results <=? 1)%nat then Js.Normal results
  else
    Js.andThen (groups results [])
      (fun documentGroups =>
         let limitedResults := limit documentGroups in
         Js.Normal (Js.sortDesc Raw.similarity_score limitedResults)).

(** [[.!?]] *)
Definition isSentenceEnd (c : ascii) : bool :=
  Js.between 46 46 c || Js.between 33 33 c || Js.between 63 63 c.

Definition extractRelevantSentences (content query : string) : list string :=
  let sentences :=
    List.filter (fun s => (0 <? String.length s)%nat)
      (map Js.trim (Js.split isSentenceEnd content)) in
  let queryTerms :=
    List.filter (fun t => (2 <? String.length t)%nat)
      (Js.split Js.isWhiteSpace (Js.toLowerCase query)) in
  let relevant :=
    List.filter (fun sentence =>
                   let lowerSentence := Js.toLowerCase sentence in
                   existsb (fun term => Js.includes lowerSentence term) queryTerms)
                sentences in
  firstn 3 relevant.

Record Source : Type := {
  document_id : option string;
  source_file : string;
  page : option Z;
  section : string;
  chunk_order : Z
}.

Record Curated : Type := {
  id : string;
  rank : nat;
  score : Q;
  content : string;
  relevant_extracts : list string;
  source : Source;
  citation : string;
  metadata : Raw.Metadata
}.

(** The callback of [groupedResults.map((result, index) => ...)]. *)
Definition annotate (originalQuery : string) (result : Raw.Result) (index : nat) : Curated :=
  let relevantSentences := extractRelevantSentences (Raw.content result) originalQuery in
  {| id := Raw.chunk_id result;
     rank := index + 1;
     score := Raw.similarity_score result;
     content := Raw.content result;
     relevant_extracts := relevantSentences;
     source :=
       {| document_id := Raw.result_document_id result;
          source_file := default "unknown" (Js.orStr (Raw.meta Raw.source result) (Some "unknown"));
          page := Js.orNum (Raw.meta Raw.page result) None;
          section := default "general" (Js.orStr (Raw.meta Raw.section result) (Some "general"));
          chunk_order := default 0 (Js.orNum (Raw.meta Raw.chunk_order result) (Some 0)) |};
     citation :=
       "[" +:+ Js.decimal (N.of_nat (index + 1)) +:+ "] Source: " +:+
       default "Unknown Document"
         (Js.orStr (Raw.meta Raw.source result) (Some "Unknown Document"));
     metadata := default Raw.noMetadata (Raw.metadata result) |}.

Definition formatResultsWithCitations (results : list Raw.Result) (originalQuery : string)
    : Js.completion (list Curated) :=
  if (length results =? 0)%nat then Js.Normal []
  else
    let sortedResults := Js.sortDesc Raw.similarity_score results in
    let deduplicatedResults := _deduplicateResults sortedResults in
    Js.andThen (_groupResultsByDocument deduplicatedResults)
      (fun groupedResults =>
         Js.Normal (Js.mapIndex (annotate originalQuery) groupedResults)).

(** *** Curation over own properties

    As long as no document key is a name of [Object.prototype], every
    lookup in the dictionary finds an own property or nothing, and the
    three functions above return what the following ones compute. *)

(** No document key of [results] is a name of [Object.prototype]. *)
Definition keysAreOwn (results : list Raw.Result) : bool :=
  forallb (fun result => negb (Js.inherited (docId result))) results.

(** The results that the loop files under the key [k]. *)
Definition keyed (k : string) (results : list Raw.Result) : list Raw.Result :=
  List.filter (fun result => String.eqb (docId result) k) results.

Definition groupsOwn (results : list Raw.Result)
    (documentGroups : list (string * list Raw.Result)) : list (string * list Raw.Result) :=
  fold_left (fun groups result => pushOwn (docId result) result groups)
            results documentGroups.

Definition groupOwn (results : list Raw.Result) : list Raw.Result :=
  if (length results <=? 1)%nat then results
  else Js.sortDesc Raw.similarity_score (limit (groupsOwn results [])).

Definition formatOwn (results : list Raw.Result) (originalQuery : string) : list Curated :=
  if (length results =? 0)%nat then []
  else
    Js.mapIndex (annotate originalQuery)
      (groupOwn (_deduplicateResults (Js.sortDesc Raw.similarity_score results))).

(** *** Suggestions *)

(** [terms.filter((_, idx) => idx !== i)] *)
Definition withoutIndex (i : nat) (terms : list string) : list string :=
  map fst (List.filter (fun '(_, idx) => negb (idx =? i)%nat)
             (combine terms (seq 0 (length terms)))).

Definition generateSuggestions (query : string) : list string :=
  let lowered := Js.toLowerCase query in
  let terms := Js.split Js.isWhiteSpace lowered in
  let variations :=
    flat_map (fun i =>
                let suggestion := Js.join " " (withoutIndex i terms) in
                if negb (String.eqb suggestion "") && negb (String.eqb suggestion lowered)
                then [suggestion] else [])
             (seq 0 (length terms)) in
  let suggestions :=
    variations ++ ["how to " +:+ query; "what is " +:+ query; "configure " +:+ query] in
  firstn 5 (Js.newSet suggestions).

End QueryProcessor.

(** ** The controller

    The handlers run against a world made of the cache and of the query
    statistics kept by the query service, and against the retrieval backend,
    which answers or throws and takes some time to do so.  [Date.now()] is
    the clock of the cache. *)
Module RAGController.

Record Formatted : Type := {
  id : string;
  content : string;
  score : Q;
  source : option Raw.Metadata;
  source_file : option string
}.

(** The callback of [rawResults.results.map] in both handlers. *)
Definition formatResult (result : Raw.Result) : Formatted :=
  {| id := Raw.chunk_id result;
     content := Raw.content result;
     score := Raw.similarity_score result;
     source := Raw.metadata result;
     source_file := Js.orStr (Raw.meta Raw.source_file result)
                             (Raw.meta Raw.document_name result) |}.

Record Validation : Type := {
  isValid : bool;
  reason : string;
  details : string
}.

Definition MIN_SIMILARITY_THRESHOLD : Q := 1 # 10.
Definition MIN_UNIQUE_DOCUMENTS : nat := 1.

(** [result.source?.field] *)
Definition sourceField (field : Raw.Metadata -> option string) (result : Formatted)
    : option string :=
  match source result with
  | Some m => field m
  | None => None
  end.

Definition _validateRetrievalQuality (rawResults : list Raw.Result)
    (formattedResults : list Formatted) : Validation :=
  if (length rawResults =? 0)%nat then
    {| isValid := false;
       reason := "No relevant documents found";
       details := "Retrieved 0 results from vector store" |}
  else
    let scores := map score formattedResults in
    let maxScore := Js.maxOf scores in
    if Js.lt maxScore (Js.Fin MIN_SIMILARITY_THRESHOLD) then
      {| isValid := false;
         reason := "Maximum similarity score (" +:+ Js.toFixed3 maxScore +:+
                   ") below minimum threshold (0.1)";
         details := "Best match score: " +:+ Js.toFixed3 maxScore +:+ ", threshold: 0.1" |}
    else
      let uniqueDocuments :=
        Js.newSetOfValues
          (map (fun result => Js.orStr (sourceField Raw.source_file result)
                                       (sourceField Raw.document_id result))
               formattedResults) in
      if (length uniqueDocuments <? MIN_UNIQUE_DOCUMENTS)%nat then
        {| isValid := false;
           reason := "Number of unique documents (" +:+
                     Js.decimal (N.of_nat (length uniqueDocuments)) +:+
                     ") below minimum requirement (1)";
           details := "Found " +:+ Js.decimal (N.of_nat (length uniqueDocuments)) +:+
                      " unique documents, required at least 1" |}
      else
        {| isValid := true;
           reason := "All quality checks passed";
           details := "Max similarity: " +:+ Js.toFixed3 maxScore +:+ ", Unique docs: " +:+
                      Js.decimal (N.of_nat (length uniqueDocuments)) |}.

Definition _calculateSimilarityRange (results : list Formatted) : string :=
  if (length results =? 0)%nat then "N/A"
  else
    let scores := map score results in
    (Js.toFixed3 (Js.minOf scores) +:+ " â€“ " +:+ Js.toFixed3 (Js.maxOf scores))%string.

Definition _getCacheTTL (query : string) : Z :=
  let wordCount := length (Js.split Js.isWhiteSpace query) in
  if (10 <? wordCount)%nat then 300 else 600.

(** *** Responses *)

Record SearchResponse : Type := {
  search_query : string;
  results : list Formatted;
  total_results : nat;
  search_retrieval_gated : bool;
  search_gating_reason : option string;
  search_similarity_score_range : string;
  search_query_embedding : list Q;
  search_retrieval_quality : Validation;
  search_processing_time : Z
}.

Record LlmResponse : Type := {
  llm_query : string;
  answer : string;
  sources : list Formatted;
  total_sources : nat;
  llm_retrieval_gated : bool;
  llm_gating_reason : option string;
  llm_similarity_score_range : string;
  llm_query_embedding : list Q;
  llm_retrieval_quality : Validation;
  llm_processing_time : Z
}.

(** The objects the cache holds: responses of the two handlers, and the
    payloads of the other users of the cache. *)
Inductive Payload : Type :=
| SearchPayload (response : SearchResponse)
| LlmPayload (response : LlmResponse)
| OtherPayload (tag : string).

Inductive Body : Type :=
| ErrorBody (error : string) (message : option string)
| SearchBody (response : SearchResponse)
| LlmBody (response : LlmResponse)
| CachedBody (cachedResult : Js.value Payload).

Record HttpResponse : Type := {
  status : nat;
  body : Body
}.

(** *** The collaborators *)

Record SearchReply : Type := {
  reply_query : string;
  reply_results : list Raw.Result;
  reply_query_embedding : list Q
}.

Record LlmReply : Type := {
  llm_reply_query : string;
  llm_reply_answer : string;
  llm_reply_sources : list Raw.Result;
  llm_reply_query_embedding : list Q
}.

Inductive outcome (A : Type) : Type :=
| Returns (a : A)
| Throws (message : string).

Arguments Returns {A} a.
Arguments Throws {A} message.

(** A row of the table [queries], as [recordQuery] binds it to the insert
    statement.  [None] is [null], and also [undefined] where a field of
    [queryData] is bound as it is read. *)
Record QueryRow : Type := {
  query_id : string;
  row_user_id : option string;
  query_text : option string;
  query_embedding : option string;
  row_results_count : nat;
  response_time_ms : option Z;
  retrieved_chunks : option string;
  generated_answer : option string;
  row_metadata : string
}.

(** What the handlers get from outside: the answers of the retrieval
    client and the time they take, the identifier that [uuidv4()] gives
    [recordQuery], and what the database does with the insert of a row:
    it stores the row, or the call throws. *)
Record Env : Type := {
  retrieval_search : string -> option string -> Z -> outcome SearchReply;
  retrieval_llm : string -> option string -> Z -> outcome LlmReply;
  retrieval_latency : N;
  query_uuid : string;
  insert_query : QueryRow -> outcome unit
}.

(** The object that the handlers pass to [_recordQueryAsync]. *)
Record QueryData : Type := {
  data_query : string;
  data_user_id : option string;
  response_time : Z;
  cache_hit : bool;
  results_count : nat;
  max_similarity_score : option Js.number;
  is_llm : bool;
  retrieval_quality : option Validation
}.

(** The cache and the rows of the table [queries]. *)
Record World : Type := {
  cache : CacheService.state Payload;
  recorded : list QueryRow
}.

Record Request : Type := {
  req_query : option string;
  req_user_id : option string;
  req_top_k : option Z
}.

(** [queryService.recordQuery(queryData)].  Of the fields that the insert
    binds, the handlers set [user_id] and [results_count]; they set no
    [query_text], [query_embedding], [response_time_ms],
    [retrieved_chunks], [generated_answer] or [metadata], which are read
    as [undefined]. *)
Definition recordQuery (env : Env) (queryData : QueryData) (w : World)
    : outcome string * World :=
  let queryId := ("qry_" +:+ query_uuid env)%string in
  let row :=
    {| query_id := queryId;
       row_user_id := Js.orStr (data_user_id queryData) None;
       query_text := None;
       query_embedding := None;
       row_results_count := results_count queryData;
       response_time_ms := None;
       retrieved_chunks := None;
       generated_answer := None;
       row_metadata := "{}" |} in
  match insert_query env row with
  | Returns _ =>
      (Returns queryId, {| cache := cache w; recorded := recorded w ++ [row] |})
  | Throws message => (Throws message, w)
  end.

(** [try { await queryService.recordQuery(queryData) } catch (error) { ... }]:
    a failure of the query service is logged and swallowed. *)
Definition _recordQueryAsync (env : Env) (queryData : QueryData) (w : World) : World :=
  snd (recordQuery env queryData w).

(** [await cacheService.cacheResult(cacheKey, response, ttl)] *)
Definition cacheResult (cacheKey : string) (response : Payload) (ttl : Z) (w : World) : World :=
  {| cache := snd (CacheService.cacheResult cacheKey (Js.Obj response) (Some ttl) (cache w));
     recorded := recorded w |}.

(** The time the backend takes passes for the cache as well. *)
Definition await (dt : N) (w : World) : World :=
  {| cache := CacheService.elapse dt (cache w); recorded := recorded w |}.

Definition now (w : World) : Z := CacheService.clock (cache w).

Definition badRequest : HttpResponse :=
  {| status := 400;
     body := ErrorBody "Query is required and must be a non-empty string" None |}.

(** [!query || typeof query !== "string" || query.trim().length === 0] *)
Definition invalidQuery (query : option string) : bool :=
  match query with
  | None => true
  | Some q => (String.length (Js.trim q) =? 0)%nat
  end.

Definition lengthOfUndefined : string :=
  "Cannot read properties of undefined (reading 'length')".

(** *** [searchDocuments] *)

(** The handler from the answer of the backend on. *)
Definition searchAnswered (env : Env) (query : string) (user_id : option string)
    (cacheKey : string) (startTime : Z) (rawResults : SearchReply) (w : World)
    : HttpResponse * World :=
  let formattedResults := map formatResult (reply_results rawResults) in
  let validation := _validateRetrievalQuality (reply_results rawResults) formattedResults in
  let response :=
    {| search_query := reply_query rawResults;
       results := formattedResults;
       total_results := length formattedResults;
       search_retrieval_gated := negb (isValid validation);
       search_gating_reason := if isValid validation then None else Some (reason validation);
       search_similarity_score_range := _calculateSimilarityRange formattedResults;
       search_query_embedding := reply_query_embedding rawResults;
       search_retrieval_quality := validation;
       search_processing_time := now w - startTime |} in
  let w1 :=
    if isValid validation then
      let ttl := _getCacheTTL query in
      cacheResult cacheKey (SearchPayload response) ttl w
    else w in
  let w2 :=
    _recordQueryAsync env
      {| data_query := query;
         data_user_id := user_id;
         response_time := now w1 - startTime;
         cache_hit := false;
         results_count := length formattedResults;
         max_similarity_score := Some (Js.maxOf (map score formattedResults));
         is_llm := false;
         retrieval_quality := Some validation |} w1 in
  ({| status := 200; body := SearchBody response |}, w2).

Definition searchDocuments (env : Env) (req : Request) (w : World) : HttpResponse * World :=
  let query := req_query req in
  let user_id := req_user_id req in
  let top_k := default 5 (req_top_k req) in
  if invalidQuery query then (badRequest, w)
  else
    let query := default EmptyString query in
    let cacheKey := ("search:" +:+ query +:+ ":" +:+ Js.numToString top_k)%string in
    let cachedResult := CacheService.getCachedResult cacheKey (cache w) in
    if Js.truthy cachedResult then
      match cachedResult with
      | Js.Obj (SearchPayload cached) =>
          let w1 :=
            _recordQueryAsync env
              {| data_query := query;
                 data_user_id := user_id;
                 response_time := 0;
                 cache_hit := true;
                 results_count := length (results cached);
                 max_similarity_score := None;
                 is_llm := false;
                 retrieval_quality := None |} w in
          ({| status := 200; body := CachedBody cachedResult |}, w1)
      | _ =>
          ({| status := 500; body := ErrorBody "Search failed" (Some lengthOfUndefined) |}, w)
      end
    else
      let startTime := now w in
      let w1 := await (retrieval_latency env) w in
      match retrieval_search env query user_id top_k with
      | Throws message =>
          ({| status := 500; body := ErrorBody "Search failed" (Some message) |}, w1)
      | Returns rawResults =>
          searchAnswered env query user_id cacheKey startTime rawResults w1
      end.

(** *** [queryDocumentsWithLLM] *)

Definition lowQualityAnswer : string :=
  "Unable to generate answer due to low-quality retrieval results. The retrieved documents do not meet the minimum quality thresholds.".

Definition llmAnswered (env : Env) (query : string) (user_id : option string)
    (cacheKey : string) (startTime : Z) (rawResults : LlmReply) (w : World)
    : HttpResponse * World :=
  let formattedResults := map formatResult (llm_reply_sources rawResults) in
  let validation := _validateRetrievalQuality (llm_reply_sources rawResults) formattedResults in
  let response :=
    {| llm_query := llm_reply_query rawResults;
       answer := if isValid validation then llm_reply_answer rawResults else lowQualityAnswer;
       sources := if isValid validation then formattedResults else [];
       total_sources := if isValid validation then length formattedResults else 0%nat;
       llm_retrieval_gated := negb (isValid validation);
       llm_gating_reason := if isValid validation then None else Some (reason validation);
       llm_similarity_score_range :=
         if isValid validation then _calculateSimilarityRange formattedResults else "N/A";
       llm_query_embedding := llm_reply_query_embedding rawResults;
       llm_retrieval_quality := validation;
       llm_processing_time := now w - startTime |} in
  let w1 :=
    if isValid validation then
      let ttl := _getCacheTTL query in
      cacheResult cacheKey (LlmPayload response) ttl w
    else w in
  let w2 :=
    _recordQueryAsync env
      {| data_query := query;
         data_user_id := user_id;
         response_time := now w1 - startTime;
         cache_hit := false;
         results_count := if isValid validation then length formattedResults else 0%nat;
         max_similarity_score :=
           Some (if isValid validation then Js.maxOf (map score formattedResults)
                 else Js.Fin 0);
         is_llm := true;
         retrieval_quality := Some validation |} w1 in
  ({| status := 200; body := LlmBody response |}, w2).

Definition queryDocumentsWithLLM (env : Env) (req : Request) (w : World)
    : HttpResponse * World :=
  let query := req_query req in
  let user_id := req_user_id req in
  let top_k := default 5 (req_top_k req) in
  if invalidQuery query then (badRequest, w)
  else
    let query := default EmptyString query in
    let cacheKey := ("llm:" +:+ query +:+ ":" +:+ Js.numToString top_k)%string in
    let cachedResult := CacheService.getCachedResult cacheKey (cache w) in
    if Js.truthy cachedResult then
      match cachedResult with
      | Js.Obj (LlmPayload cached) =>
          let w1 :=
            _recordQueryAsync env
              {| data_query := query;
                 data_user_id := user_id;
                 response_time := 0;
                 cache_hit := true;
                 results_count := length (sources cached);
                 max_similarity_score := None;
                 is_llm := true;
                 retrieval_quality := None |} w in
          ({| status := 200; body := CachedBody cachedResult |}, w1)
      | _ =>
          ({| status := 500; body := ErrorBody "LLM query failed" (Some lengthOfUndefined) |}, w)
      end
    else
      let startTime := now w in
      let w1 := await (retrieval_latency env) w in
      match retrieval_llm env query user_id top_k with
      | Throws message =>
          ({| status := 500; body := ErrorBody "LLM query failed" (Some message) |}, w1)
      | Returns rawResults =>
          llmAnswered env query user_id cacheKey startTime rawResults w1
      end.

End RAGController.

(** ** Insertion-ordered maps and array slices

    A JavaScript [Map] with string keys iterates in insertion order, and
    [set] on a key that is present keeps the position of the key. *)
Module JsMap.
Section Map.

Context {V : Type}.

Definition t : Type := list (string * V).

(** [m.get(k)] *)
Definition get (k : string) (m : t) : option V :=
  option_map snd (List.find (fun e => String.eqb (fst e) k) m).

(** [m.has(k)] *)
Definition has (k : string) (m : t) : bool :=
  existsb (fun e => String.eqb (fst e) k) m.

(** [m.set(k, v)] *)
Fixpoint set (k : string) (v : V) (m : t) : t :=
  match m with
  | [] => [(k, v)]
  | (k', v') :: r => if String.eqb k' k then (k', v) :: r else (k', v') :: set k v r
  end.

(** [m.delete(k)]: the map without the key (the call returns [m.has(k)]). *)
Definition delete (k : string) (m : t) : t :=
  List.filter (fun e => negb (String.eqb (fst e) k)) m.

(** [m.values()] *)
Definition values (m : t) : list V := map snd m.

(** [m.size] *)
Definition size (m : t) : nat := length m.

(** The loop [for (const [k, v] of m.entries()) if (p(v)) { f(v); m.set(k, v); break; }]. *)
Fixpoint updateFirst (p : V -> bool) (f : V -> V) (m : t) : t :=
  match m with
  | [] => []
  | (k, v) :: r => if p v then (k, f v) :: r else (k, v) :: updateFirst p f r
  end.

(** The loop [for (const [k, v] of m.entries()) if (p(v)) m.delete(k)]. *)
Definition deleteAll (p : V -> bool) (m : t) : t :=
  List.filter (fun e => negb (p (snd e))) m.

End Map.

Arguments t V : clear implicits.

End JsMap.

Module JsArray.

(** The relative index of [slice]: counted from the end when negative,
    and clamped to the array. *)
Definition sliceIndex (len i : Z) : Z :=
  if i <? 0 then Z.max (len + i) 0 else Z.min i len.

(** [l.slice(start, end)] for integer arguments *)
Definition slice {A} (start final : Z) (l : list A) : list A :=
  let len := Z.of_nat (length l) in
  let k := sliceIndex len start in
  let e := sliceIndex len final in
  firstn (Z.to_nat (e - k)) (skipn (Z.to_nat k) l).

(** [l.sort((a, b) => key(a) - key(b))]: the comparator is the one of
    [Js.sortDesc] for the negated key. *)
Definition sortAsc {A} (key : A -> Z) (l : list A) : list A :=
  Js.sortDesc (fun a => inject_Z (- key a)) l.

End JsArray.

(** ** The in-memory document service

    SHA-256 and the UUID generator are parameters: [uuidv4 n] is the
    [n]-th identifier the generator hands out, and the state counts the
    identifiers drawn.  [now] is the ISO time stamp of the call; the
    [new Date()] calls of one operation are taken to fall into the same
    millisecond. *)
Module MemoryDocumentService.

Module DocumentData.
Record t : Type := {
  content : option string;
  document_id : option string;
  title : option string;
  source : option string;
  author : option string;
  file_path : option string;
  file_size : option Z;
  mime_type : option string;
  version : option Z;
  status : option string;
  metadata : option (list (string * string))
}.
End DocumentData.

Module ChunkData.
Record t : Type := {
  chunk_id : option string;
  chunk_order : option Z;
  content : string;
  embedding_vector_id : option string;
  token_count : option Z;
  metadata : option (list (string * string))
}.
End ChunkData.

Record Document : Type := {
  id : nat;
  document_id : string;
  title : option string;
  source : option string;
  author : option string;
  file_path : option string;
  file_size : option Z;
  mime_type : option string;
  checksum : string;
  version : Z;
  status : string;
  metadata : list (string * string);
  created_at : string;
  updated_at : string
}.

Record Chunk : Type := {
  chunk_row : nat;
  chunk_id : string;
  chunk_document_id : string;
  chunk_order : Z;
  content : string;
  embedding_vector_id : option string;
  token_count : Z;
  hash_value : string;
  chunk_metadata : list (string * string);
  chunk_created_at : string;
  chunk_updated_at : string
}.

Record Job : Type := {
  job_row : nat;
  job_id : string;
  job_document_id : string;
  job_status : string;
  total_chunks : nat;
  processed_chunks : nat;
  error_message : option string;
  started_at : option string;
  completed_at : option string;
  job_created_at : string;
  job_updated_at : string
}.

Record state : Type := {
  documents : JsMap.t Document;
  chunks : JsMap.t Chunk;
  jobs : JsMap.t Job;
  drawn : nat
}.

(** [new MemoryDocumentService()] *)
Definition init : state := {| documents := []; chunks := []; jobs := []; drawn := 0 |}.

Record Created : Type := {
  created_document_id : string;
  created_job_id : string;
  message : string
}.

Record Page : Type := {
  page_documents : list Document;
  total : nat;
  offset : Z;
  limit : Z;
  hasMore : bool
}.

Record Stats : Type := {
  document_count : nat;
  chunk_count : nat;
  job_count : nat;
  pending_jobs : nat;
  completed_jobs : nat
}.

(** [_countTokens(text)]: [Math.ceil(text.length / 4)], and 0 for the
    empty text. *)
Definition _countTokens (text : string) : Z :=
  if String.eqb text EmptyString then 0
  else (Z.of_nat (String.length text) + 3) / 4.

Section Service.

Variable sha256 : string -> string.
Variable uuidv4 : nat -> string.

(** [given || `${prefix}${uuidv4()}`]: the generator is called only when
    the given identifier is missing or empty. *)
Definition orFresh (given : option string) (prefix : string) (n : nat) : string * nat :=
  match Js.orStr given None with
  | Some i => (i, n)
  | None => (prefix +:+ uuidv4 n, S n)
  end.

Definition createDocument (documentData : DocumentData.t) (now : string) (s : state)
    : Created * state :=
  let checksum :=
    sha256 (default EmptyString
              (Js.orStr (DocumentData.content documentData) (Some EmptyString))) in
  let '(documentId, n1) := orFresh (DocumentData.document_id documentData) "doc_" (drawn s) in
  let documentRecord :=
    {| id := JsMap.size (documents s) + 1;
       document_id := documentId;
       title := DocumentData.title documentData;
       source := DocumentData.source documentData;
       author := DocumentData.author documentData;
       file_path := DocumentData.file_path documentData;
       file_size := DocumentData.file_size documentData;
       mime_type := DocumentData.mime_type documentData;
       checksum := checksum;
       version := default 1 (Js.orNum (DocumentData.version documentData) (Some 1));
       status := default "pending" (Js.orStr (DocumentData.status documentData) (Some "pending"));
       metadata := default [] (DocumentData.metadata documentData);
       created_at := now;
       updated_at := now |} in
  let documents1 := JsMap.set documentId documentRecord (documents s) in
  let jobId := ("job_" +:+ uuidv4 n1)%string in
  let jobRecord :=
    {| job_row := JsMap.size (jobs s) + 1;
       job_id := jobId;
       job_document_id := documentId;
       job_status := "queued";
       total_chunks := 0;
       processed_chunks := 0;
       error_message := None;
       started_at := None;
       completed_at := None;
       job_created_at := now;
       job_updated_at := now |} in
  ({| created_document_id := documentId;
      created_job_id := jobId;
      message := "Document created successfully in memory" |},
   {| documents := documents1;
      chunks := chunks s;
      jobs := JsMap.set jobId jobRecord (jobs s);
      drawn := S n1 |}).

(** The update of the first job of the document in [updateDocumentStatus]. *)
Definition jobWithStatus (status now : string) (job : Job) : Job :=
  {| job_row := job_row job;
     job_id := job_id job;
     job_document_id := job_document_id job;
     job_status := status;
     total_chunks := total_chunks job;
     processed_chunks := processed_chunks job;
     error_message := error_message job;
     started_at := if String.eqb status "processing" then Some now else started_at job;
     completed_at :=
       if String.eqb status "processing" then completed_at job
       else if String.eqb status "completed" then Some now else completed_at job;
     job_created_at := job_created_at job;
     job_updated_at := now |}.

Definition documentWithStatus (status now : string) (document : Document) : Document :=
  {| id := id document;
     document_id := document_id document;
     title := title document;
     source := source document;
     author := author document;
     file_path := file_path document;
     file_size := file_size document;
     mime_type := mime_type document;
     checksum := checksum document;
     version := version document;
     status := status;
     metadata := metadata document;
     created_at := created_at document;
     updated_at := now |}.

(** [updateDocumentStatus(documentId, status)]; the result is
    [affectedRows]. *)
Definition updateDocumentStatus (documentId status now : string) (s : state) : nat * state :=
  match JsMap.get documentId (documents s) with
  | Some document =>
      (1%nat,
       {| documents := JsMap.set documentId (documentWithStatus status now document)
                         (documents s);
          chunks := chunks s;
          jobs := JsMap.updateFirst
                    (fun job => String.eqb (job_document_id job) documentId)
                    (jobWithStatus status now) (jobs s);
          drawn := drawn s |})
  | None => (0%nat, s)
  end.

(** The body of the loop [for (const chunk of chunks)]. *)
Definition storeChunk (documentId now : string) (s : state) (chunk : ChunkData.t) : state :=
  let '(chunkId, n1) := orFresh (ChunkData.chunk_id chunk) "chunk_" (drawn s) in
  let chunkRecord :=
    {| chunk_row := JsMap.size (chunks s) + 1;
       chunk_id := chunkId;
       chunk_document_id := documentId;
       chunk_order := default 0 (Js.orNum (ChunkData.chunk_order chunk) (Some 0));
       content := ChunkData.content chunk;
       embedding_vector_id := Js.orStr (ChunkData.embedding_vector_id chunk) None;
       token_count :=
         default 0 (Js.orNum (ChunkData.token_count chunk)
                             (Some (_countTokens (ChunkData.content chunk))));
       hash_value := sha256 (ChunkData.content chunk);
       chunk_metadata := default [] (ChunkData.metadata chunk);
       chunk_created_at := now;
       chunk_updated_at := now |} in
  {| documents := documents s;
     chunks := JsMap.set chunkId chunkRecord (chunks s);
     jobs := jobs s;
     drawn := n1 |}.

Definition jobCompleted (totalCreated : nat) (now : string) (job : Job) : Job :=
  {| job_row := job_row job;
     job_id := job_id job;
     job_document_id := job_document_id job;
     job_status := "completed";
     total_chunks := totalCreated;
     processed_chunks := totalCreated;
     error_message := error_message job;
     started_at := started_at job;
     completed_at := Some now;
     job_created_at := job_created_at job;
     job_updated_at := now |}.

(** [createDocumentChunks(documentId, chunks)]; [None] is a missing
    array. *)
Definition createDocumentChunks (documentId : string) (chunks : option (list ChunkData.t))
    (now : string) (s : state) : nat * state :=
  match chunks with
  | None | Some [] => (0%nat, s)
  | Some chunks =>
      let s1 := fold_left (storeChunk documentId now) chunks s in
      let totalCreated := length chunks in
      (totalCreated,
       {| documents := documents s1;
          chunks := MemoryDocumentService.chunks s1;
          jobs := JsMap.updateFirst
                    (fun job => String.eqb (job_document_id job) documentId)
                    (jobCompleted totalCreated now) (jobs s1);
          drawn := drawn s1 |})
  end.

(** [this.documents.get(documentId) || null] *)
Definition getDocumentById (documentId : string) (s : state) : option Document :=
  JsMap.get documentId (documents s).

(** [getDocumentChunksByDocumentId(documentId, limit = 100)] *)
Definition getDocumentChunksByDocumentId (documentId : string) (limit : option Z)
    (s : state) : list Chunk :=
  let found :=
    List.filter (fun chunk => String.eqb (chunk_document_id chunk) documentId)
      (JsMap.values (chunks s)) in
  JsArray.sortAsc chunk_order (JsArray.slice 0 (default 100 limit) found).

(** [getAllDocuments(offset = 0, limit = 20)] *)
Definition getAllDocuments (offset limit : option Z) (s : state) : Page :=
  let offset := default 0 offset in
  let limit := default 20 limit in
  let allDocs := JsMap.values (documents s) in
  let total := length allDocs in
  let documents := JsArray.slice offset (offset + limit) allDocs in
  {| page_documents := documents;
     total := total;
     offset := offset;
     limit := limit;
     hasMore := offset + Z.of_nat (length documents) <? Z.of_nat total |}.

(** [deleteDocument(documentId)]; the result is [affectedRows]. *)
Definition deleteDocument (documentId : string) (s : state) : nat * state :=
  let chunks1 :=
    JsMap.deleteAll (fun chunk => String.eqb (chunk_document_id chunk) documentId)
      (chunks s) in
  let jobs1 :=
    JsMap.deleteAll (fun job => String.eqb (job_document_id job) documentId) (jobs s) in
  let existed := JsMap.has documentId (documents s) in
  ((if existed then 1 else 0)%nat,
   {| documents := JsMap.delete documentId (documents s);
      chunks := chunks1;
      jobs := jobs1;
      drawn := drawn s |}).

Definition getStats (s : state) : Stats :=
  {| document_count := JsMap.size (documents s);
     chunk_count := JsMap.size (chunks s);
     job_count := JsMap.size (jobs s);
     pending_jobs :=
       length (List.filter (fun j => String.eqb (job_status j) "queued")
                 (JsMap.values (jobs s)));
     completed_jobs :=
       length (List.filter (fun j => String.eqb (job_status j) "completed")
                 (JsMap.values (jobs s))) |}.

(** What the clients of the service can do. *)
Inductive op : Type :=
| OpCreate (documentData : DocumentData.t) (now : string)
| OpStatus (documentId status now : string)
| OpChunks (documentId : string) (chunks : option (list ChunkData.t)) (now : string)
| OpDelete (documentId : string).

Definition step (o : op) (s : state) : state :=
  match o with
  | OpCreate documentData now => snd (createDocument documentData now s)
  | OpStatus documentId status now => snd (updateDocumentStatus documentId status now s)
  | OpChunks documentId chunks now => snd (createDocumentChunks documentId chunks now s)
  | OpDelete documentId => snd (deleteDocument documentId s)
  end.

(** The states the service can be in. *)
Inductive reachable : state -> Prop :=
| reachable_init : reachable init
| reachable_step o s : reachable s -> reachable (step o s).

End Service.

End MemoryDocumentService.

(** ** The client of the retrieval backend

    The outcome of the HTTP request is given by the environment: the body
    of a successful response, or the error axios rejects with.  Of an
    error the client reads [code], [message] and, when the backend did
    respond, [response.status] and [response.data.detail] (a text, or
    [None] when it is missing). *)
Module RetrievalService.

Record AxiosError : Type := {
  code : option string;
  response : option (Z * option string);
  message : string
}.

Inductive AxiosResult (A : Type) : Type :=
| Resolved (data : A)
| Rejected (error : AxiosError).

Arguments Resolved {A} data.
Arguments Rejected {A} error.

(** The [catch] block of the four requests, which differ in the names
    they put into the messages. *)
Definition rethrow (service request : string) (error : AxiosError) : string :=
  if bool_decide (code error = Some "ECONNREFUSED") then "Retrieval service is unavailable"
  else
    match response error with
    | Some (status, detail) =>
        (service +:+ " service error: " +:+ Js.numToString status +:+ " - " +:+
         default "Unknown error" (Js.orStr detail (Some "Unknown error")))%string
    | None => (request +:+ " request failed: " +:+ message error)%string
    end.

Definition settle {A} (service request : string) (result : AxiosResult A)
    : RAGController.outcome A :=
  match result with
  | Resolved data => RAGController.Returns data
  | Rejected error => RAGController.Throws (rethrow service request error)
  end.

Definition searchDocuments (post : AxiosResult RAGController.SearchReply)
    : RAGController.outcome RAGController.SearchReply :=
  settle "Retrieval" "Search" post.

Definition queryDocumentsWithLLM (post : AxiosResult RAGController.LlmReply)
    : RAGController.outcome RAGController.LlmReply :=
  settle "LLM query" "LLM query" post.

Definition ingestDocument {A} (post : AxiosResult A) : RAGController.outcome A :=
  settle "Ingestion" "Ingestion" post.

Definition uploadFile {A} (post : AxiosResult A) : RAGController.outcome A :=
  settle "File upload" "File upload" post.

(** [healthCheck()]: the status of the response to [GET /health]. *)
Definition healthCheck (get : AxiosResult Z) : bool :=
  match get with
  | Resolved status => status =? 200
  | Rejected _ => false
  end.

End RetrievalService.

(** ** The document service

    The wrapper that the controller calls.  [useMemoryService] is set
    when the MySQL pool cannot be loaded or its connection test fails,
    and every method then goes to the in-memory service.  Otherwise the
    documents live in a MySQL database, which is outside of the program:
    whether the transaction of a method commits or one of its statements
    throws comes with the environment, as do the identifiers that
    [uuidv4()] returns there. *)
Module DocumentService.

Record Database : Type := {
  useMemoryService : bool;
  create_transaction : MemoryDocumentService.DocumentData.t -> RAGController.outcome unit;
  update_transaction : string -> string -> RAGController.outcome unit;
  document_uuid : string;
  job_uuid : string
}.

(** What [updateDocumentStatus] returns: [{ affectedRows }] from the
    in-memory service, [{ message }] from the MySQL branch. *)
Inductive Updated : Type :=
| AffectedRows (affectedRows : nat)
| Message (message : string).

Section Service.

Variable sha256 : string -> string.
Variable uuidv4 : nat -> string.

(** [createDocument(documentData)]; an error of the transaction is
    thrown again after the rollback. *)
Definition createDocument (db : Database)
    (documentData : MemoryDocumentService.DocumentData.t) (now : string)
    (s : MemoryDocumentService.state)
    : RAGController.outcome MemoryDocumentService.Created * MemoryDocumentService.state :=
  if useMemoryService db then
    let '(created, s1) :=
      MemoryDocumentService.createDocument sha256 uuidv4 documentData now s in
    (RAGController.Returns created, s1)
  else
    match create_transaction db documentData with
    | RAGController.Throws message => (RAGController.Throws message, s)
    | RAGController.Returns _ =>
        let documentId :=
          default ("doc_" +:+ document_uuid db)%string
            (Js.orStr (MemoryDocumentService.DocumentData.document_id documentData)
                      (Some ("doc_" +:+ document_uuid db)%string)) in
        (RAGController.Returns
           {| MemoryDocumentService.created_document_id := documentId;
              MemoryDocumentService.created_job_id := ("job_" +:+ job_uuid db)%string;
              MemoryDocumentService.message := "Document created successfully" |}, s)
    end.

(** [updateDocumentStatus(documentId, status)] *)
Definition updateDocumentStatus (db : Database) (documentId status now : string)
    (s : MemoryDocumentService.state)
    : RAGController.outcome Updated * MemoryDocumentService.state :=
  if useMemoryService db then
    let '(affectedRows, s1) :=
      MemoryDocumentService.updateDocumentStatus documentId status now s in
    (RAGController.Returns (AffectedRows affectedRows), s1)
  else
    match update_transaction db documentId status with
    | RAGController.Throws message => (RAGController.Throws message, s)
    | RAGController.Returns _ =>
        (RAGController.Returns (Message ("Status updated to " +:+ status)%string), s)
    end.

End Service.

End DocumentService.

(** ** The ingestion handlers of the controller *)
Module Ingestion.

Record Metadata : Type := {
  title : option string;
  author : option string;
  source : option string;
  source_file : option string;
  file_type : option string
}.

(** [req.body] of [POST /api/v1/documents]; [None] stands for a field
    that is missing or of another type than the handler asks for. *)
Record IngestRequest : Type := {
  content : option string;
  metadata : option Metadata
}.

Record File : Type := {
  originalname : string;
  mimetype : string;
  buffer_length : nat
}.

Record UploadRequest : Type := {
  file : option File;
  upload_title : option string;
  upload_author : option string;
  upload_source : option string
}.

(** [response.data] of the backend. *)
Record Ingested : Type := {
  ingested_document_id : option string;
  chunks_processed : option Z;
  ingested_status : option string
}.

Inductive Body : Type :=
| ErrorBody (error : string) (message : option string)
| IngestedBody (message : string) (document_id : option string)
    (chunks : option Z) (status : option string) (document_record_id : string)
| UploadedBody (message : string) (document_id : option string)
    (chunks : option Z) (status : option string) (original_filename : string)
    (file_size : nat).

Record HttpResponse : Type := {
  status : nat;
  body : Body
}.

Record World : Type := {
  cache : CacheService.state RAGController.Payload;
  store : MemoryDocumentService.state
}.

(** What the handlers get from outside: the outcome of the request to
    the backend and the time it takes, the readings of the clock, and
    the database behind the document service. *)
Record Env : Type := {
  ingest_post : string -> Metadata -> RetrievalService.AxiosResult Ingested;
  upload_post : File -> string -> string -> string -> RetrievalService.AxiosResult Ingested;
  latency : N;
  created_at : string;
  updated_at : string;
  date_now : Z;
  database : DocumentService.Database
}.

Section Handlers.

Variable sha256 : string -> string.
Variable uuidv4 : nat -> string.

(** [await] of the request to the backend: time passes for the cache. *)
Definition await (dt : N) (w : World) : World :=
  {| cache := CacheService.elapse dt (cache w); store := store w |}.

(** [documentService.createDocument], [documentService.updateDocumentStatus]
    and [cacheService.invalidateDocumentCache], as both handlers await
    them in a row; the result is [docRecord.document_id], unless one of
    the first two throws. *)
Definition record (documentData : MemoryDocumentService.DocumentData.t) (env : Env)
    (w : World) : RAGController.outcome string * World :=
  match DocumentService.createDocument sha256 uuidv4 (database env) documentData
          (created_at env) (store w) with
  | (RAGController.Throws message, store1) =>
      (RAGController.Throws message, {| cache := cache w; store := store1 |})
  | (RAGController.Returns docRecord, store1) =>
      let documentId := MemoryDocumentService.created_document_id docRecord in
      match DocumentService.updateDocumentStatus (database env) documentId "completed"
              (updated_at env) store1 with
      | (RAGController.Throws message, store2) =>
          (RAGController.Throws message, {| cache := cache w; store := store2 |})
      | (RAGController.Returns _, store2) =>
          let cache1 := snd (CacheService.invalidateDocumentCache documentId (cache w)) in
          (RAGController.Returns documentId, {| cache := cache1; store := store2 |})
      end
  end.

Definition documentData (title author source : string) (file_size : nat)
    : MemoryDocumentService.DocumentData.t :=
  {| MemoryDocumentService.DocumentData.content := None;
     MemoryDocumentService.DocumentData.document_id := None;
     MemoryDocumentService.DocumentData.title := Some title;
     MemoryDocumentService.DocumentData.source := Some source;
     MemoryDocumentService.DocumentData.author := Some author;
     MemoryDocumentService.DocumentData.file_path := None;
     MemoryDocumentService.DocumentData.file_size := Some (Z.of_nat file_size);
     MemoryDocumentService.DocumentData.mime_type := None;
     MemoryDocumentService.DocumentData.version := None;
     MemoryDocumentService.DocumentData.status := Some "completed";
     MemoryDocumentService.DocumentData.metadata := None |}.

Definition badRequest (error : string) : HttpResponse :=
  {| status := 400; body := ErrorBody error None |}.

Definition ingestDocument (env : Env) (req : IngestRequest) (w : World)
    : HttpResponse * World :=
  if RAGController.invalidQuery (content req) then
    (badRequest "Content is required and must be a non-empty string", w)
  else
    let content := default EmptyString (content req) in
    match metadata req with
    | None => (badRequest "Metadata is required and must be an object", w)
    | Some metadata =>
        match Js.orStr (title metadata) None with
        | None => (badRequest "Title is required in metadata", w)
        | Some title =>
            let w1 := await (latency env) w in
            match RetrievalService.ingestDocument (ingest_post env content metadata) with
            | RAGController.Throws message =>
                ({| status := 500;
                    body := ErrorBody "Document ingestion failed" (Some message) |}, w1)
            | RAGController.Returns result =>
                match record (documentData title
                                (default EmptyString
                                   (Js.orStr (author metadata) (Some EmptyString)))
                                (default EmptyString
                                   (Js.orStr (source metadata) (Some EmptyString)))
                                (String.length content))
                             env w1 with
                | (RAGController.Throws message, w2) =>
                    ({| status := 500;
                        body := ErrorBody "Document ingestion failed" (Some message) |}, w2)
                | (RAGController.Returns documentId, w2) =>
                    ({| status := 201;
                        body := IngestedBody "Document successfully ingested"
                                  (ingested_document_id result) (chunks_processed result)
                                  (ingested_status result) documentId |}, w2)
                end
            end
        end
    end.

(** The [catch] block of [uploadFile]; [req.body.title] is set whenever
    the block is reached, and a failure of [updateDocumentStatus] is
    logged and swallowed. *)
Definition uploadFailed (env : Env) (message : string) (w : World) : HttpResponse * World :=
  let tempDocId := ("temp_" +:+ Js.numToString (date_now env))%string in
  let w1 :=
    {| cache := cache w;
       store := snd (DocumentService.updateDocumentStatus (database env) tempDocId "failed"
                       (updated_at env) (store w)) |} in
  if Js.includes message "unavailable" then
    ({| status := 503;
        body := ErrorBody "Upload service temporarily unavailable"
                  (Some "Please try again in a few moments") |}, w1)
  else
    ({| status := 500; body := ErrorBody "Failed to upload file" (Some message) |}, w1).

Definition uploadFile (env : Env) (req : UploadRequest) (w : World)
    : HttpResponse * World :=
  match file req with
  | None => (badRequest "File is required", w)
  | Some file =>
      let author := default EmptyString (upload_author req) in
      let source := default EmptyString (upload_source req) in
      match Js.orStr (upload_title req) None with
      | None => (badRequest "Title is required", w)
      | Some title =>
          let w1 := await (latency env) w in
          match RetrievalService.uploadFile (upload_post env file title author source) with
          | RAGController.Throws message => uploadFailed env message w1
          | RAGController.Returns uploadResult =>
              match record (documentData title author source (buffer_length file)) env w1 with
              | (RAGController.Throws message, w2) => uploadFailed env message w2
              | (RAGController.Returns _, w2) =>
                  ({| status := 201;
                      body := UploadedBody "File successfully uploaded and ingested"
                                (ingested_document_id uploadResult)
                                (chunks_processed uploadResult)
                                (ingested_status uploadResult)
                                (originalname file) (buffer_length file) |}, w2)
              end
          end
      end
  end.

End Handlers.

End Ingestion.

(** ** Streaming

    An async generator is given by the sequence of the values it yields.
    Every event reads the clock once: [clock n] is the [n]-th reading
    since the generator was started. *)
Module StreamingUtils.

Section Stream.

Context {R Src : Type}.
Variable clock : nat -> string.

(** The fields of [searchResults] that the generator reads; [None] is a
    missing field. *)
Record SearchResults : Type := {
  results : option (list R);
  generated_answer : option string;
  sources : option (list Src);
  similarity_score_range : option string
}.

Inductive Event : Type :=
| Status (message timestamp : string)
| RetrievalResults (count : nat) (timestamp : string)
| RetrievalChunk (index total : nat) (chunk : R) (timestamp : string)
| FinalResponse (query : string) (results : list R) (retrieved_count : nat)
    (generated_answer : string) (sources : list Src) (similarity_score_range : string)
    (timestamp : string).

(** [searchResults?.field] *)
Definition field {A} (f : SearchResults -> option A) (searchResults : option SearchResults)
    : option A :=
  match searchResults with
  | Some r => f r
  | None => None
  end.

(** The events of the loop over [searchResults.results.entries()], the
    first of which takes the [n]-th reading of the clock. *)
Definition chunkEvents (n : nat) (l : list R) : list Event :=
  Js.mapIndex (fun result index =>
                 RetrievalChunk index (length l) result (clock (n + index))) l.

Definition createRagStream (searchResults : option SearchResults) (query : string)
    : list Event :=
  let found := field results searchResults in
  let intermediate :=
    match found with
    | Some l => RetrievalResults (length l) (clock 1) :: chunkEvents 2 l
    | None => []
    end in
  [Status "Processing query..." (clock 0)] ++ intermediate ++
  [FinalResponse query (default [] found)
     (length (default [] found))
     (default "No results found"
        (Js.orStr (field generated_answer searchResults) (Some "No results found")))
     (default [] (field sources searchResults))
     (default "N/A" (Js.orStr (field similarity_score_range searchResults) (Some "N/A")))
     (clock (1 + length intermediate))].

Definition timestamp (e : Event) : string :=
  match e with
  | Status _ t | RetrievalResults _ t | RetrievalChunk _ _ _ t
  | FinalResponse _ _ _ _ _ _ t => t
  end.

End Stream.

Arguments SearchResults R Src : clear implicits.
Arguments Event R Src : clear implicits.

End StreamingUtils.

(** ** The detailed health check

    The cache holds the health status as an object [{ status, checkedAt }]:
    [healthObject] builds it, and [statusOf] reads the property [status]
    of a cached object.  Of the body of the response the fields that
    depend on the backend or on the cache are modelled; the others copy
    the statistics of the query service and of the document service. *)
Module Health.

Section Handler.

Context {T : Type}.
Variable healthObject : bool -> string -> T.
Variable statusOf : T -> Js.value T.

Local Abbreviation state := (CacheService.state T).

(** [`health:${service}`] *)
Definition healthKey (service : string) : string := "health:" +:+ service.

(** [cacheHealthStatus(service, status, ttl = 30)], called at the time
    [checkedAt] *)
Definition cacheHealthStatus (service : string) (status : bool) (ttl : option Z)
    (checkedAt : string) (s : state) : bool * state :=
  (true, CacheService._setCacheWithExpiration (healthKey service)
           (Js.Obj (healthObject status checkedAt)) (default 30 ttl) s).

(** [getCachedHealthStatus(service)] *)
Definition getCachedHealthStatus (service : string) (s : state) : Js.value T :=
  CacheService._getCache (healthKey service) s.

(** [getHealthInfo()]: [indexed_documents] of the body of the response,
    and of [{ indexed_documents: 0 }] when the request fails. *)
Definition getHealthInfo (get : RetrievalService.AxiosResult (option Z)) : option Z :=
  match get with
  | RetrievalService.Resolved indexed_documents => indexed_documents
  | RetrievalService.Rejected _ => Some 0
  end.

Record Env : Type := {
  health_get : RetrievalService.AxiosResult Z;
  info_get : RetrievalService.AxiosResult (option Z);
  latency : N;
  statistics_latency : N;
  date : string
}.

Record Report : Type := {
  statusCode : nat;
  retrieval_service : string;
  faiss_vectors : Z;
  cache_size : nat
}.

(** [cachedHealth.status]; a value that is not an object has no such
    property. *)
Definition statusProperty (cachedHealth : Js.value T) : Js.value T :=
  match cachedHealth with
  | Js.Obj o => statusOf o
  | _ => Js.Undefined
  end.

Definition healthCheckDetailed (env : Env) (s : state) : Report * state :=
  let cachedHealth := getCachedHealthStatus "retrieval_service" s in
  let '(retrievalHealthy, s1) :=
    if Js.truthy cachedHealth then (statusProperty cachedHealth, s)
    else
      let s' := CacheService.elapse (latency env) s in
      let healthy := RetrievalService.healthCheck (health_get env) in
      (Js.Bool healthy,
       snd (cacheHealthStatus "retrieval_service" healthy (Some 30) (date env) s')) in
  let s2 := CacheService.elapse (statistics_latency env) s1 in
  let '(faissVectorCount, s3) :=
    if Js.truthy retrievalHealthy then
      (default 0 (Js.orNum (getHealthInfo (info_get env)) (Some 0)),
       CacheService.elapse (latency env) s2)
    else (0, s2) in
  ({| statusCode := if Js.truthy retrievalHealthy then 200 else 503;
      retrieval_service := if Js.truthy retrievalHealthy then "healthy" else "unhealthy";
      faiss_vectors := faissVectorCount;
      cache_size := CacheService.cacheSize s3 |}, s3).

End Handler.

End Health.

(** ** The notions of the specification

  Definitions that follow the words of the specification, to be compared
  with what the code computes. *)
Module Spec.

(** The whitespace-delimited words (tokens) of a text: its maximal
    non-empty runs of characters that are not whitespace. *)
Definition tokens (s : string) : list string :=
  Js.runs (fun c => negb (Js.isWhiteSpace c)) s.

(** A sequence without its repetitions: each value stays where it is seen
    first. *)
Fixpoint firstSeen (l : list string) : list string :=
  match l with
  | [] => []
  | x :: r => x :: List.filter (fun y => negb (String.eqb x y)) (firstSeen r)
  end.

(** Descending order of a key. *)
Definition descending {A} (key : A -> Q) (l : list A) : Prop :=
  StronglySorted (fun a b => key b <= key a)%Q l.

(** The document key of a result: its [document_id]; without one, its
    [metadata.source]; without that, the literal "unknown".  An empty
    text counts as none. *)
Definition documentKey (r : Raw.Result) : string :=
  match Raw.result_document_id r with
  | Some (String c id) => String c id
  | Some EmptyString | None =>
      match Raw.metadata r with
      | Some m =>
          match Raw.source m with
          | Some (String c name) => String c name
          | Some EmptyString | None => "unknown"
          end
      | None => "unknown"
      end
  end.

(** The results of a sequence that belong to the document [k]. *)
Definition ofDocument (k : string) (l : list Raw.Result) : list Raw.Result :=
  List.filter (fun r => String.eqb (documentKey r) k) l.


(** [r] is too similar to [e]: the Jaccard similarity of the word sets of
    their contents is above 0.9. *)
Definition nearDuplicate (r e : Raw.Result) : Prop :=
  (9 # 10 < QueryProcessor._calculateContentSimilarity (Raw.content r) (Raw.content e))%Q.

(** The pieces of a text made of the characters of a class: [w] lies in
    [text] between [before] and [after], is not empty, consists of
    characters of the class, and no character of the class stands just
    before it or just after it. *)
Definition within (cls : ascii -> bool) (w : string) : Prop :=
  forall c, In c (String.list_ascii_of_string w) -> cls c = true.

Definition notAfter (cls : ascii -> bool) (before : string) : Prop :=
  forall b c, before = (b +:+ String c EmptyString)%string -> cls c = false.

Definition notBefore (cls : ascii -> bool) (after : string) : Prop :=
  forall c a, after = String c a -> cls c = false.

Definition runAt (cls : ascii -> bool) (text before w after : string) : Prop :=
  text = (before +:+ w +:+ after)%string /\
  w <> EmptyString /\
  within cls w /\ notAfter cls before /\ notBefore cls after.

(** [w] is a word of [text]: a run of letters, digits and underscores. *)
Definition word (text w : string) : Prop :=
  exists before after, runAt Js.isWordChar text before w after.

(** [w] is a word of [content] once [content] is put in lower case. *)
Definition lowercaseWord (content w : string) : Prop :=
  word (Js.toLowerCase content) w.

(** [n] is the number of texts that satisfy [P]. *)
Definition cardinal (P : string -> Prop) (n : nat) : Prop :=
  exists l, List.NoDup l /\ (forall w, In w l <-> P w) /\ length l = n.

(** [j] is the Jaccard similarity of the sets of lowercase words of two
    contents: the size of the intersection over the size of the union,
    and 0 when the union is empty. *)
Definition jaccard (content1 content2 : string) (j : Q) : Prop :=
  exists i u,
    cardinal (fun w => lowercaseWord content1 w /\ lowercaseWord content2 w) i /\
    cardinal (fun w => lowercaseWord content1 w \/ lowercaseWord content2 w) u /\
    j = if (u =? 0)%nat then 0%Q else Z.of_nat i # Pos.of_nat u.

(** [r] is too similar to [e]: the Jaccard similarity of the sets of
    lowercase words of their contents is strictly greater than 0.9. *)
Definition tooSimilar (r e : Raw.Result) : Prop :=
  exists j, jaccard (Raw.content r) (Raw.content e) j /\ (9 # 10 < j)%Q.

(** The array of the property [k] of a dictionary, empty when absent. *)
Definition groupOf {V} (k : string) (o : list (string * list V)) : list V :=
  match List.find (fun e => String.eqb (fst e) k) o with
  | Some e => snd e
  | None => []
  end.

(** [m] is the greatest of the scores [l]. *)
Definition isMaximum (m : Q) (l : list Q) : Prop :=
  (exists x, In x l /\ (x == m)%Q) /\ forall y, In y l -> (y <= m)%Q.

(** [n] is the number of distinct values of [l]. *)
Definition distinctCount {A} (l : list A) (n : nat) : Prop :=
  exists d, List.NoDup d /\ (forall x, In x d <-> In x l) /\ length d = n.

(** The document a formatted result is counted under by the quality gate:
    its [source_file], else its [document_id]. *)
Definition gateDocument (result : RAGController.Formatted) : option string :=
  Js.orStr (RAGController.sourceField Raw.source_file result)
           (RAGController.sourceField Raw.document_id result).

(** The number of writes that lead from one state of the cache to a later
    one: every write, and nothing else, hands out one timer handle. *)
Definition cacheWrites {T} (before after : CacheService.state T) : nat :=
  (CacheService.next_handle after - CacheService.next_handle before)%nat.

(** The verdict of the quality gate on a search request, when the request
    reaches the gate: it is well-formed, the cache has no answer for it and
    the backend returns. *)
Definition searchVerdict (env : RAGController.Env) (req : RAGController.Request)
    (w : RAGController.World) : option RAGController.Validation :=
  match RAGController.req_query req with
  | None => None
  | Some query =>
      let top_k := default 5 (RAGController.req_top_k req) in
      let cacheKey := ("search:" +:+ query +:+ ":" +:+ Js.numToString top_k)%string in
      if (String.length (Js.trim query) =? 0)%nat then None
      else if Js.truthy (CacheService.getCachedResult cacheKey (RAGController.cache w)) then None
      else
        match RAGController.retrieval_search env query (RAGController.req_user_id req) top_k with
        | RAGController.Returns reply =>
            Some (RAGController._validateRetrievalQuality
                    (RAGController.reply_results reply)
                    (map RAGController.formatResult (RAGController.reply_results reply)))
        | RAGController.Throws _ => None
        end
  end.

Definition llmVerdict (env : RAGController.Env) (req : RAGController.Request)
    (w : RAGController.World) : option RAGController.Validation :=
  match RAGController.req_query req with
  | None => None
  | Some query =>
      let top_k := default 5 (RAGController.req_top_k req) in
      let cacheKey := ("llm:" +:+ query +:+ ":" +:+ Js.numToString top_k)%string in
      if (String.length (Js.trim query) =? 0)%nat then None
      else if Js.truthy (CacheService.getCachedResult cacheKey (RAGController.cache w)) then None
      else
        match RAGController.retrieval_llm env query (RAGController.req_user_id req) top_k with
        | RAGController.Returns reply =>
            Some (RAGController._validateRetrievalQuality
                    (RAGController.llm_reply_sources reply)
                    (map RAGController.formatResult (RAGController.llm_reply_sources reply)))
        | RAGController.Throws _ => None
        end
  end.



(** Key [k] has no entry, no stored handle and no pending timer. *)
Definition absent {T} (k : string) (s : CacheService.state T) : Prop :=
  CacheService.memoryCache s !! k = None /\
  CacheService.cacheTimeouts s !! k = None /\
  CacheService.timersOf k s = [].

(** The key under which the search handler caches the answer to a
    request, and the TTL it gives it. *)
Definition searchKey (req : RAGController.Request) : string :=
  ("search:" +:+ default EmptyString (RAGController.req_query req) +:+ ":" +:+
   Js.numToString (default 5 (RAGController.req_top_k req)))%string.

Definition answerTTL (req : RAGController.Request) : Z :=
  RAGController._getCacheTTL (default EmptyString (RAGController.req_query req)).

(** Ascending order of an integer key. *)
Definition ascending {A} (key : A -> Z) (l : list A) : Prop :=
  StronglySorted (fun a b => key a <= key b) l.

(** The representation invariant of the in-memory document service: the
    records are stored under their own identifiers, and every job belongs
    to a stored document. *)
Record storeOk (s : MemoryDocumentService.state) : Prop := {
  ok_document_keys :
    forall k d, In (k, d) (MemoryDocumentService.documents s) ->
                MemoryDocumentService.document_id d = k;
  ok_chunk_keys :
    forall k c, In (k, c) (MemoryDocumentService.chunks s) ->
                MemoryDocumentService.chunk_id c = k;
  ok_job_keys :
    forall k j, In (k, j) (MemoryDocumentService.jobs s) ->
                MemoryDocumentService.job_id j = k;
  ok_documents : List.NoDup (map fst (MemoryDocumentService.documents s));
  ok_chunks : List.NoDup (map fst (MemoryDocumentService.chunks s));
  ok_jobs : List.NoDup (map fst (MemoryDocumentService.jobs s));
  ok_job_documents :
    forall j, In j (JsMap.values (MemoryDocumentService.jobs s)) ->
              JsMap.has (MemoryDocumentService.job_document_id j)
                (MemoryDocumentService.documents s) = true
}.

(** The collaborators of the query handlers when the backend is reached
    through the retrieval client, as the controller does. *)
Definition throughClient
    (search : string -> option string -> Z ->
              RetrievalService.AxiosResult RAGController.SearchReply)
    (llm : string -> option string -> Z ->
           RetrievalService.AxiosResult RAGController.LlmReply)
    (latency : N) (uuid : string)
    (insert : RAGController.QueryRow -> RAGController.outcome unit) : RAGController.Env :=
  {| RAGController.retrieval_search :=
       fun query userId topK => RetrievalService.searchDocuments (search query userId topK);
     RAGController.retrieval_llm :=
       fun query userId topK => RetrievalService.queryDocumentsWithLLM (llm query userId topK);
     RAGController.retrieval_latency := latency;
     RAGController.query_uuid := uuid;
     RAGController.insert_query := insert |}.

End Spec.

(** ** Sample results *)
Module Sample.

(** A result of document [doc] without metadata. *)
Definition result (chunk content : string) (score : Q) (doc : string) : Raw.Result :=
  {| Raw.chunk_id := chunk; Raw.content := content; Raw.similarity_score := score;
     Raw.result_document_id := Some doc; Raw.metadata := None |}.

(** Five chunks of one document, best first. *)
Definition fiveOfOne : list Raw.Result :=
  [ result "c1" "install the package" (9 # 10) "guide";
    result "c2" "configure the server" (8 # 10) "guide";
    result "c3" "start the service" (7 # 10) "guide";
    result "c4" "read the logs" (6 # 10) "guide";
    result "c5" "stop the service" (5 # 10) "guide" ].

(** The same five chunks when the backend gives no [document_id] and the
    source of the document is called [constructor]. *)
Definition fiveOfConstructor : list Raw.Result :=
  map (fun r =>
         {| Raw.chunk_id := Raw.chunk_id r; Raw.content := Raw.content r;
            Raw.similarity_score := Raw.similarity_score r;
            Raw.result_document_id := None;
            Raw.metadata :=
              Some {| Raw.source := Some "constructor"; Raw.source_file := None;
                      Raw.document_name := None; Raw.document_id := None;
                      Raw.page := None; Raw.section := None;
                      Raw.chunk_order := None |} |})
      fiveOfOne.



End Sample.

(** ** Sample environments *)
Module Scenario.

(** Identifiers [0], [1], ... in place of UUIDs, and the text itself in
    place of its hash. *)
Definition uuid (n : nat) : string := Js.decimal (N.of_nat n).
Definition hash (text : string) : string := text.

Definition refused : RetrievalService.AxiosError :=
  {| RetrievalService.code := Some "ECONNREFUSED";
     RetrievalService.response := None;
     RetrievalService.message := "connect ECONNREFUSED 127.0.0.1:8000" |}.

Definition request (query : string) : RAGController.Request :=
  {| RAGController.req_query := Some query;
     RAGController.req_user_id := None;
     RAGController.req_top_k := None |}.

Definition world : RAGController.World :=
  {| RAGController.cache := CacheService.init; RAGController.recorded := [] |}.

(** A backend that finds two chunks and whose LLM route finds none, with
    a database that does [insert] with the row of a query. *)
Definition answering (insert : RAGController.QueryRow -> RAGController.outcome unit)
    : RAGController.Env :=
  {| RAGController.retrieval_search := fun query _ _ =>
       RAGController.Returns
         {| RAGController.reply_query := query;
            RAGController.reply_results :=
              [Sample.result "c1" "install the package" (9 # 10) "guide";
               Sample.result "c2" "configure the server" (1 # 2) "manual"];
            RAGController.reply_query_embedding := [] |};
     RAGController.retrieval_llm := fun query _ _ =>
       RAGController.Returns
         {| RAGController.llm_reply_query := query;
            RAGController.llm_reply_answer := "An answer without sources";
            RAGController.llm_reply_sources := [];
            RAGController.llm_reply_query_embedding := [] |};
     RAGController.retrieval_latency := 200;
     RAGController.query_uuid := "0";
     RAGController.insert_query := insert |}.

(** That backend with a database that stores every row, and with one
    whose driver refuses a parameter that is [undefined]. *)
Definition found : RAGController.Env :=
  answering (fun _ => RAGController.Returns tt).

Definition strict : RAGController.Env :=
  answering (fun row =>
               match RAGController.query_text row with
               | Some _ => RAGController.Returns tt
               | None =>
                   RAGController.Throws
                     "Bind parameters must not contain undefined. To pass SQL NULL specify JS null"
               end).

(** A backend that cannot be reached. *)
Definition unreachable : RAGController.Env :=
  Spec.throughClient (fun _ _ _ => RetrievalService.Rejected refused)
                     (fun _ _ _ => RetrievalService.Rejected refused) 5
                     "0" (fun _ => RAGController.Returns tt).

(** The in-memory document service, or a MySQL database that refuses
    connections. *)
Definition database (memory : bool) : DocumentService.Database :=
  {| DocumentService.useMemoryService := memory;
     DocumentService.create_transaction :=
       fun _ => RAGController.Throws "connect ECONNREFUSED 127.0.0.1:3306";
     DocumentService.update_transaction :=
       fun _ _ => RAGController.Throws "connect ECONNREFUSED 127.0.0.1:3306";
     DocumentService.document_uuid := "0";
     DocumentService.job_uuid := "1" |}.

Definition ingestionOver (memory accepts : bool) : Ingestion.Env :=
  let outcome :=
    if accepts then
      RetrievalService.Resolved
        {| Ingestion.ingested_document_id := Some "backend-1";
           Ingestion.chunks_processed := Some 3;
           Ingestion.ingested_status := Some "success" |}
    else RetrievalService.Rejected refused in
  {| Ingestion.ingest_post := fun _ _ => outcome;
     Ingestion.upload_post := fun _ _ _ _ => outcome;
     Ingestion.latency := 50;
     Ingestion.created_at := "2024-01-01T00:00:00.000Z";
     Ingestion.updated_at := "2024-01-01T00:00:00.001Z";
     Ingestion.date_now := 1704067200000;
     Ingestion.database := database memory |}.

Definition ingestion (accepts : bool) : Ingestion.Env := ingestionOver true accepts.

Definition ingest : Ingestion.IngestRequest :=
  {| Ingestion.content := Some "How to install the package";
     Ingestion.metadata :=
       Some {| Ingestion.title := Some "Guide"; Ingestion.author := None;
               Ingestion.source := None; Ingestion.source_file := None;
               Ingestion.file_type := None |} |}.

Definition upload : Ingestion.UploadRequest :=
  {| Ingestion.file :=
       Some {| Ingestion.originalname := "guide.pdf";
               Ingestion.mimetype := "application/pdf";
               Ingestion.buffer_length := 1024 |};
     Ingestion.upload_title := Some "Guide";
     Ingestion.upload_author := None;
     Ingestion.upload_source := None |}.

Definition empty : Ingestion.World :=
  {| Ingestion.cache := CacheService.init; Ingestion.store := MemoryDocumentService.init |}.

Definition titled (title : string) : MemoryDocumentService.DocumentData.t :=
  Ingestion.documentData title "" "" 0.

(** A store with three documents. *)
Definition library : MemoryDocumentService.state :=
  fold_left (fun s title =>
               MemoryDocumentService.step hash uuid
                 (MemoryDocumentService.OpCreate (titled title) "2024-01-01T00:00:00.000Z") s)
            ["a"; "b"; "c"] MemoryDocumentService.init.

(** The health check of a backend that cannot be reached, and of one
    that is healthy. *)
Definition health (up : bool) : Health.Env :=
  {| Health.health_get :=
       if up then RetrievalService.Resolved 200 else RetrievalService.Rejected refused;
     Health.info_get := RetrievalService.Resolved (Some 12);
     Health.latency := 20;
     Health.statistics_latency := 10;
     Health.date := "2024-01-01T00:00:00.000Z" |}.

End Scenario.

(* ===================================================================== *)
(** * Part II.  Properties                                                *)
(* ===================================================================== *)

(** ** The cache service *)

Section CacheFacts.

Context {T : Type}.
Import CacheService.
Implicit Types (s : CacheService.state T) (u w : Timeout) (k key : string).

Lemma In_enqueue u (t : Timeout) q : In u (enqueue t q) <-> u = t \/ In u q.
Proof.
  induction q as [|w q IH]; simpl.
  - intuition congruence.
  - destruct (fires_at w <=? fires_at t); simpl; rewrite ?IH; intuition congruence.
Qed.

Lemma enqueue_Permutation (t : Timeout) q : Permutation (enqueue t q) (t :: q).
Proof.
  induction q as [|w q IH]; simpl; [reflexivity|].
  destruct (fires_at w <=? fires_at t); [|reflexivity].
  rewrite IH. apply perm_swap.
Qed.

Lemma NoDup_map_enqueue {B} (f : Timeout -> B) (t : Timeout) q :
  List.NoDup (map f (t :: q)) -> List.NoDup (map f (enqueue t q)).
Proof.
  intros H. eapply Permutation_NoDup; [|exact H].
  apply Permutation_map. symmetry. apply enqueue_Permutation.
Qed.

Lemma NoDup_map_filter {A B} (f : A -> B) (p : A -> bool) (l : list A) :
  List.NoDup (map f l) -> List.NoDup (map f (List.filter p l)).
Proof.
  induction l as [|a l IH]; simpl; intros H; [constructor|].
  inversion H as [|? ? Hn Hl]; subst.
  destruct (p a); simpl; [constructor|]; auto.
  intros Hin. apply Hn. apply in_map_iff in Hin as (b & Hb & Hin).
  apply in_map_iff. exists b. split; [assumption|].
  apply filter_In in Hin. tauto.
Qed.

Lemma NoDup_map_inj {A B} (f : A -> B) (l : list A) a b :
  List.NoDup (map f l) -> In a l -> In b l -> f a = f b -> a = b.
Proof.
  induction l as [|c l IH]; simpl; intros H Ha Hb E; [tauto|].
  inversion H as [|? ? Hn Hl]; subst.
  destruct Ha as [->|Ha], Hb as [->|Hb]; auto.
  - exfalso. apply Hn. rewrite E. by apply in_map.
  - exfalso. apply Hn. rewrite <- E. by apply in_map.
Qed.

Lemma NoDup_map_count {A} (f : A -> string) (l : list A) k :
  List.NoDup (map f l) ->
  (length (List.filter (fun a => String.eqb (f a) k) l) <= 1)%nat.
Proof.
  induction l as [|a l IH]; simpl; intros H; [lia|].
  inversion H as [|? ? Hn Hl]; subst.
  destruct (String.eqb (f a) k) eqn:E; [|auto].
  apply String.eqb_eq in E. simpl.
  assert (List.filter (fun a0 => String.eqb (f a0) k) l = []) as ->; [|simpl; lia].
  destruct (List.filter _ l) as [|b r] eqn:F; [reflexivity|].
  assert (In b (List.filter (fun a0 => String.eqb (f a0) k) l)) as Hb
    by (rewrite F; left; reflexivity).
  apply filter_In in Hb as [Hb Eb]. apply String.eqb_eq in Eb.
  exfalso. apply Hn. rewrite E, <- Eb. by apply in_map.
Qed.

Lemma wf_init : wf (init (T := T)).
Proof.
  split; simpl; try constructor; try tauto.
  intros k h H. by rewrite lookup_empty in H.
Qed.

(** After [_clearExpired key], no pending timer deletes [key]. *)
Lemma wf_clearExpired key s :
  wf s ->
  wf (_clearExpired key s) /\
  cacheTimeouts (_clearExpired key s) !! key = None /\
  memoryCache (_clearExpired key s) = memoryCache s /\
  next_handle (_clearExpired key s) = next_handle s /\
  clock (_clearExpired key s) = clock s /\
  (forall u, In u (pending (_clearExpired key s)) <->
             In u (pending s) /\ callback_key u <> key).
Proof.
  intros W. unfold _clearExpired.
  destruct (cacheTimeouts s !! key) as [h|] eqn:E; simpl.
  - assert (forall u, In u (List.filter (fun u0 => negb (handle u0 =? h)%nat) (pending s)) <->
                      In u (pending s) /\ callback_key u <> key) as Hin.
    { intros u. rewrite filter_In, negb_true_iff, Nat.eqb_neq.
      split; intros [Hu Hne]; split; auto.
      - intros Hk. destruct (wf_stored s W key h E) as (w & Hw & Kw & Hh).
        apply Hne. pose proof (wf_pending s W u Hu) as Pu.
        rewrite Hk, E in Pu. congruence.
      - intros Hh. apply Hne.
        pose proof (wf_pending s W u Hu) as Pu.
        destruct (wf_stored s W key h E) as (w & Hw & Kw & Hw').
        assert (u = w) by (eapply NoDup_map_inj; [apply (wf_handles s W)| | |]; congruence).
        congruence. }
    split; [|split; [apply lookup_delete_eq|repeat (split; [reflexivity|]); exact Hin]].
    split; simpl.
    + apply NoDup_map_filter, W.
    + apply NoDup_map_filter, W.
    + intros u Hu. apply Hin in Hu as [Hu Hne].
      rewrite lookup_delete_ne by congruence. by apply W.
    + intros k h' Hk. destruct (decide (key = k)) as [->|Hne].
      * by rewrite lookup_delete_eq in Hk.
      * rewrite lookup_delete_ne in Hk by assumption.
        destruct (wf_stored s W k h' Hk) as (w & Hw & Kw & Hh).
        exists w. rewrite Hin. repeat split; congruence.
    + intros u Hu. apply Hin in Hu as [Hu _]. by apply W.
  - do 2 (split; [assumption|]). repeat (split; [reflexivity|]).
    intros u. split; [|tauto]. intros Hu. split; [assumption|].
    intros Hk. pose proof (wf_pending s W u Hu) as Pu.
    rewrite Hk, E in Pu. discriminate.
Qed.

Lemma set_spec key (v : Js.value T) ttl s :
  wf s ->
  let s' := _setCacheWithExpiration key v ttl s in
  wf s' /\
  memoryCache s' = <[key := v]> (memoryCache s) /\
  cacheTimeouts s' !! key = Some (next_handle s) /\
  (forall k, k <> key -> cacheTimeouts s' !! k = cacheTimeouts s !! k) /\
  next_handle s' = S (next_handle s) /\
  clock s' = clock s /\
  (forall u, In u (pending s') <->
             u = fresh_timer key ttl s \/ (In u (pending s) /\ callback_key u <> key)).
Proof.
  intros W.
  destruct (wf_clearExpired key s W) as (W1 & Hnone & Hmem & Hnext & Hclock & Hin).
  unfold _setCacheWithExpiration, setTimeout. simpl.
  set (c := _clearExpired key s) in *.
  assert (forall u, In u (enqueue {| handle := next_handle c;
                                     fires_at := clock c + timerDelay (ttl * 1000);
                                     callback_key := key |} (pending c)) <->
                    u = fresh_timer key ttl s \/ (In u (pending s) /\ callback_key u <> key)) as Hq.
  { intros u. rewrite In_enqueue, Hin. unfold fresh_timer. by rewrite Hnext, Hclock. }
  split; [|repeat split].
  - split; simpl.
    + apply NoDup_map_enqueue. simpl. constructor; [|apply W1].
      intros Hk. apply in_map_iff in Hk as (w & Kw & Hw).
      apply Hin in Hw. tauto.
    + apply NoDup_map_enqueue. simpl. constructor; [|apply W1].
      intros Hk. apply in_map_iff in Hk as (w & Kw & Hw).
      apply (wf_fresh c W1) in Hw. lia.
    + intros u Hu. apply Hq in Hu as [->|[Hu Hne]]; simpl.
      * rewrite lookup_insert_eq. by rewrite Hnext.
      * rewrite lookup_insert_ne by congruence.
        apply (wf_pending c W1). apply Hin. tauto.
    + intros k h Hk. destruct (decide (key = k)) as [<-|Hne].
      * rewrite lookup_insert_eq in Hk. injection Hk as <-.
        exists (fresh_timer key ttl s). rewrite Hq. unfold fresh_timer; simpl. rewrite Hnext. tauto.
      * rewrite lookup_insert_ne in Hk by assumption.
        destruct (wf_stored c W1 k h Hk) as (w & Hw & Kw & Hh).
        exists w. rewrite Hq. apply Hin in Hw. tauto.
    + intros u Hu. apply Hq in Hu as [->|[Hu Hne]]; simpl; [rewrite Hnext; lia|].
      assert (In u (pending c)) as Hc by (apply Hin; tauto).
      apply (wf_fresh c W1) in Hc. lia.
  - by rewrite Hmem.
  - rewrite lookup_insert_eq. by rewrite Hnext.
  - intros k Hne. rewrite lookup_insert_ne by congruence.
    unfold c, _clearExpired. destruct (cacheTimeouts s !! key); simpl; [|reflexivity].
    by rewrite lookup_delete_ne by congruence.
  - by rewrite Hnext.
  - assumption.
  - apply Hq.
  - apply Hq.
Qed.

Lemma delete_spec key s :
  wf s ->
  let s' := snd (_deleteCache key s) in
  wf s' /\
  memoryCache s' = delete key (memoryCache s) /\
  (forall k, k <> key -> cacheTimeouts s' !! k = cacheTimeouts s !! k) /\
  next_handle s' = next_handle s /\
  clock s' = clock s /\
  (forall u, In u (pending s') <-> In u (pending s) /\ callback_key u <> key).
Proof.
  intros W.
  destruct (wf_clearExpired key s W) as (W1 & Hnone & Hmem & Hnext & Hclock & Hin).
  unfold _deleteCache. simpl. set (c := _clearExpired key s) in *.
  split; [|split; [|split; [|split; [|split; [|exact Hin]]]]]; try assumption.
  - destruct W1 as [K H P S F]. by split.
  - by rewrite Hmem.
  - intros k Hne. unfold c, _clearExpired.
    destruct (cacheTimeouts s !! key); simpl; [|reflexivity].
    by rewrite lookup_delete_ne by congruence.
Qed.

Lemma expire_all_spec (l : list Timeout) s :
  let s' := fold_left (fun s0 u => expire (callback_key u) s0) l s in
  pending s' = pending s /\ next_handle s' = next_handle s /\ clock s' = clock s /\
  (forall k, In k (map callback_key l) ->
             memoryCache s' !! k = None /\ cacheTimeouts s' !! k = None) /\
  (forall k, ~ In k (map callback_key l) ->
             memoryCache s' !! k = memoryCache s !! k /\
             cacheTimeouts s' !! k = cacheTimeouts s !! k).
Proof.
  revert s. induction l as [|u l IH]; intros s; simpl.
  - repeat split; tauto.
  - destruct (IH (expire (callback_key u) s)) as (Hp & Hn & Hc & Hin & Hout).
    simpl in *. repeat split; try assumption.
    + destruct (in_dec String.string_dec k (map callback_key l)) as [Hk|Hk].
      * by apply Hin.
      * destruct (Hout k Hk) as [-> _]. destruct H as [->|H]; [|tauto].
        apply lookup_delete_eq.
    + destruct (in_dec String.string_dec k (map callback_key l)) as [Hk|Hk].
      * by apply Hin.
      * destruct (Hout k Hk) as [_ ->]. destruct H as [->|H]; [|tauto].
        apply lookup_delete_eq.
    + destruct (Hout k) as [-> _]; [tauto|]. apply lookup_delete_ne. tauto.
    + destruct (Hout k) as [_ ->]; [tauto|]. apply lookup_delete_ne. tauto.
Qed.

Lemma elapse_spec dt s :
  wf s ->
  let s' := elapse dt s in
  wf s' /\
  next_handle s' = next_handle s /\
  clock s' = clock s + Z.of_N dt /\
  (forall u, In u (pending s') <-> In u (pending s) /\ clock s + Z.of_N dt < fires_at u) /\
  (forall k, (forall u, In u (pending s) -> callback_key u = k ->
                        clock s + Z.of_N dt < fires_at u) ->
             memoryCache s' !! k = memoryCache s !! k /\
             cacheTimeouts s' !! k = cacheTimeouts s !! k) /\
  (forall u, In u (pending s) -> fires_at u <= clock s + Z.of_N dt ->
             memoryCache s' !! callback_key u = None).
Proof.
  intros W. unfold elapse. set (t := clock s + Z.of_N dt).
  set (s0 := {| memoryCache := memoryCache s; cacheTimeouts := cacheTimeouts s;
                pending := List.filter (fun u => negb (due t u)) (pending s);
                next_handle := next_handle s; clock := t |}).
  destruct (expire_all_spec (List.filter (due t) (pending s)) s0)
    as (Hp & Hn & Hc & Hin & Hout).
  cbv zeta in *. set (s' := fold_left _ _ s0) in *.
  assert (forall u, In u (pending s') <-> In u (pending s) /\ t < fires_at u) as Hq.
  { intros u. rewrite Hp. simpl. rewrite filter_In. unfold due.
    rewrite negb_true_iff, Z.leb_gt. tauto. }
  assert (forall k, In k (map callback_key (List.filter (due t) (pending s))) <->
                    exists u, In u (pending s) /\ callback_key u = k /\ fires_at u <= t) as Hdue.
  { intros k. rewrite in_map_iff. split; intros (u & A & B).
    - apply filter_In in B as [B C]. unfold due in C. apply Z.leb_le in C. eauto.
    - exists u. rewrite filter_In. unfold due. rewrite Z.leb_le. tauto. }
  assert (forall k, (forall u, In u (pending s) -> callback_key u = k -> t < fires_at u) ->
                    memoryCache s' !! k = memoryCache s !! k /\
                    cacheTimeouts s' !! k = cacheTimeouts s !! k) as Hkeep.
  { intros k Hk. apply (Hout k). rewrite Hdue. intros (u & A & B & C).
    specialize (Hk u A B). lia. }
  split; [|split; [exact Hn|split; [exact Hc|split; [exact Hq|split; [exact Hkeep|]]]]].
  - split.
    + rewrite Hp. simpl. apply NoDup_map_filter, W.
    + rewrite Hp. simpl. apply NoDup_map_filter, W.
    + intros u Hu. apply Hq in Hu as [Hu Ht].
      destruct (Hkeep (callback_key u)) as [_ ->]; [|by apply W].
      intros w Hw Kw.
      assert (w = u) as -> by (eapply NoDup_map_inj; [apply (wf_keys s W)| | |]; assumption).
      assumption.
    + intros k h Hk.
      destruct (in_dec String.string_dec k (map callback_key (List.filter (due t) (pending s)))) as [D|D].
      * destruct (Hin k D) as [_ E]. congruence.
      * destruct (Hout k D) as [_ E]. rewrite E in Hk. simpl in Hk.
        destruct (wf_stored s W k h Hk) as (w & Hw & Kw & Hh).
        exists w. rewrite Hq. repeat split; try assumption.
        destruct (Z_lt_le_dec t (fires_at w)) as [|L]; [assumption|].
        exfalso. apply D, Hdue. eauto.
    + intros u Hu. rewrite Hn. simpl. apply Hq in Hu as [Hu _]. by apply W.
  - intros u Hu Ht. apply Hin, Hdue. eauto.
Qed.

Lemma wf_step o s : wf s -> wf (step o s).
Proof.
  intros W. destruct o as [key v ttl|key|key|dt]; simpl.
  - apply (set_spec key v ttl s W).
  - apply (delete_spec key s W).
  - assumption.
  - apply (elapse_spec dt s W).
Qed.

Lemma wf_run ops s : wf s -> wf (run ops s).
Proof.
  revert s. induction ops as [|o ops IH]; intros s W; simpl; [assumption|].
  apply IH, wf_step, W.
Qed.

Lemma wf_reachable s : reachable s -> wf s.
Proof. induction 1; [apply wf_init|by apply wf_step]. Qed.

Lemma reachable_run ops s : reachable s -> reachable (run ops s).
Proof.
  revert s. induction ops as [|o ops IH]; intros s R; simpl; [assumption|].
  apply IH. by constructor.
Qed.

Lemma clock_step o s : wf s -> clock s <= clock (step o s).
Proof.
  intros W. destruct o as [key v ttl|key|key|dt]; cbn [step].
  - destruct (set_spec key v ttl s W) as (_ & _ & _ & _ & _ & -> & _). lia.
  - destruct (delete_spec key s W) as (_ & _ & _ & _ & -> & _). lia.
  - lia.
  - destruct (elapse_spec dt s W) as (_ & _ & -> & _). lia.
Qed.

Lemma clock_run ops s : wf s -> clock s <= clock (run ops s).
Proof.
  revert s. induction ops as [|o ops IH]; intros s W; simpl; [lia|].
  pose proof (clock_step o s W). pose proof (IH (step o s) (wf_step o s W)). lia.
Qed.

Lemma handed_out_step P h o s : wf s -> handed_out P h s -> handed_out P h (step o s).
Proof.
  intros W [Hlt Hp]. destruct o as [key v ttl|key|key|dt]; cbn [step].
  - destruct (set_spec key v ttl s W) as (_ & _ & _ & _ & Hn & _ & Hin).
    split; [rewrite Hn; lia|]. intros u Hu Hh.
    apply Hin in Hu as [->|[Hu _]]; [simpl in Hh; lia|auto].
  - destruct (delete_spec key s W) as (_ & _ & _ & Hn & _ & Hin).
    split; [rewrite Hn; lia|]. intros u Hu Hh. apply Hin in Hu as [Hu _]. auto.
  - by split.
  - destruct (elapse_spec dt s W) as (_ & Hn & _ & Hin & _).
    split; [rewrite Hn; lia|]. intros u Hu Hh. apply Hin in Hu as [Hu _]. auto.
Qed.

Lemma handed_out_run P h ops s : wf s -> handed_out P h s -> handed_out P h (run ops s).
Proof.
  revert s. induction ops as [|o ops IH]; intros s W H; simpl; [assumption|].
  apply IH; [by apply wf_step|by apply handed_out_step].
Qed.

(** A live entry survives whatever leaves its key alone, as long as its
    own timer is not due. *)
Lemma live_step k v t h o s :
  wf s -> live k v t h s -> leaves k o -> clock (step o s) < t ->
  live k v t h (step o s).
Proof.
  intros W (Hm & Hc & Hp) Hl Ht. destruct o as [key v' ttl|key|key|dt]; cbn [step leaves] in *.
  - destruct (set_spec key v' ttl s W) as (_ & Em & _ & Ec & _ & _ & Hin).
    repeat split.
    + rewrite Em. by rewrite lookup_insert_ne.
    + rewrite Ec by congruence. assumption.
    + apply Hin. right. simpl. split; [assumption|congruence].
  - destruct (delete_spec key s W) as (_ & Em & Ec & _ & _ & Hin).
    repeat split.
    + rewrite Em. by rewrite lookup_delete_ne.
    + rewrite Ec by congruence. assumption.
    + apply Hin. simpl. split; [assumption|congruence].
  - by repeat split.
  - destruct (elapse_spec dt s W) as (_ & _ & Ecl & Hin & Hk & _).
    rewrite Ecl in Ht.
    destruct (Hk k) as [Em Ec].
    { intros u Hu Ku.
      assert (u = {| handle := h; fires_at := t; callback_key := k |}) as ->
        by (eapply NoDup_map_inj; [apply (wf_keys s W)| | |]; assumption).
      assumption. }
    repeat split; [congruence|congruence|].
    apply Hin. by split.
Qed.

Lemma live_run k v t h ops s :
  wf s -> live k v t h s -> Forall (leaves k) ops -> clock (run ops s) < t ->
  live k v t h (run ops s).
Proof.
  revert s. induction ops as [|o ops IH]; intros s W L F Ht; simpl in *; [assumption|].
  inversion F as [|? ? Fo Fops]; subst.
  apply IH; try assumption; [by apply wf_step|].
  apply live_step; try assumption.
  pose proof (clock_run ops (step o s) (wf_step o s W)). lia.
Qed.

Lemma timerDelay_in_range (after : Z) :
  1 <= after <= TIMEOUT_MAX -> timerDelay after = after.
Proof.
  intros [Lo Hi]. unfold timerDelay.
  apply Z.leb_le in Lo, Hi. by rewrite Lo, Hi.
Qed.

Lemma timerDelay_out_of_range (after : Z) :
  ~ 1 <= after <= TIMEOUT_MAX -> timerDelay after = 1.
Proof.
  intros H. unfold timerDelay.
  destruct (1 <=? after) eqn:Lo; destruct (after <=? TIMEOUT_MAX) eqn:Hi; simpl;
    try reflexivity.
  apply Z.leb_le in Lo, Hi. lia.
Qed.

Lemma timerDelay_positive (after : Z) : 1 <= timerDelay after <= TIMEOUT_MAX.
Proof.
  unfold timerDelay.
  destruct (1 <=? after) eqn:Lo; destruct (after <=? TIMEOUT_MAX) eqn:Hi; simpl;
    try (unfold TIMEOUT_MAX; lia).
  apply Z.leb_le in Lo, Hi. lia.
Qed.

Lemma timerDelay_le (after : Z) : 1 <= after -> timerDelay after <= after.
Proof.
  intros H. unfold timerDelay.
  destruct ((1 <=? after) && (after <=? TIMEOUT_MAX)); lia.
Qed.

(** Operations that leave [k] alone keep its entry, or expire it. *)
Lemma stored_or_gone_step k (v : Js.value T) o s :
  leaves k o ->
  memoryCache s !! k = Some v \/ memoryCache s !! k = None ->
  memoryCache (step o s) !! k = Some v \/ memoryCache (step o s) !! k = None.
Proof.
  intros Hl H. destruct o as [key v' ttl|key|key|dt]; cbn [step leaves] in *.
  - unfold _setCacheWithExpiration, setTimeout, _clearExpired.
    destruct (cacheTimeouts s !! key); simpl; by rewrite lookup_insert_ne.
  - unfold _deleteCache, _clearExpired.
    destruct (cacheTimeouts s !! key); simpl; by rewrite lookup_delete_ne.
  - assumption.
  - unfold elapse. set (t := clock s + Z.of_N dt).
    set (s0 := {| memoryCache := memoryCache s; cacheTimeouts := cacheTimeouts s;
                  pending := List.filter (fun u => negb (due t u)) (pending s);
                  next_handle := next_handle s; clock := t |}).
    destruct (expire_all_spec (List.filter (due t) (pending s)) s0)
      as (_ & _ & _ & Hin & Hout).
    destruct (in_dec String.string_dec k
                (map callback_key (List.filter (due t) (pending s)))) as [Hk|Hk].
    + right. by apply Hin.
    + destruct (Hout k Hk) as [-> _]. exact H.
Qed.

Lemma stored_or_gone_run k (v : Js.value T) ops s :
  Forall (leaves k) ops ->
  memoryCache s !! k = Some v \/ memoryCache s !! k = None ->
  memoryCache (run ops s) !! k = Some v \/ memoryCache (run ops s) !! k = None.
Proof.
  revert s. induction ops as [|o ops IH]; intros s F H; simpl; [assumption|].
  inversion F as [|? ? Fo Fops]; subst.
  apply IH; [assumption|]. by apply stored_or_gone_step.
Qed.

Lemma getCache_falsy k (v : Js.value T) s :
  Js.truthy v = false ->
  memoryCache s !! k = Some v \/ memoryCache s !! k = None ->
  _getCache k s = Js.Null /\ getCachedResult k s = Js.Null.
Proof.
  intros Tv [E|E]; unfold getCachedResult, _getCache, Js.or; rewrite E; simpl.
  - rewrite Tv. split; reflexivity.
  - split; reflexivity.
Qed.

Lemma live_set k (v : Js.value T) ttl s :
  wf s ->
  live k v (clock s + timerDelay (ttl * 1000)) (next_handle s)
    (_setCacheWithExpiration k v ttl s).
Proof.
  intros W. destruct (set_spec k v ttl s W) as (_ & Em & Ek & _ & _ & _ & Hin).
  repeat split.
  - rewrite Em. apply lookup_insert_eq.
  - assumption.
  - apply Hin. left. reflexivity.
Qed.

Lemma timersOf_live k v t h s :
  wf s -> live k v t h s ->
  timersOf k s = [{| handle := h; fires_at := t; callback_key := k |}].
Proof.
  intros W (_ & _ & Hp). unfold timersOf.
  pose proof (NoDup_map_count callback_key (pending s) k (wf_keys s W)) as Hlen.
  assert (In {| handle := h; fires_at := t; callback_key := k |}
            (List.filter (fun u => String.eqb (callback_key u) k) (pending s))) as Hin
    by (apply filter_In; split; [assumption|apply String.eqb_refl]).
  destruct (List.filter _ (pending s)) as [|a [|b r]]; simpl in *; [tauto| |lia].
  destruct Hin as [->|[]]. reflexivity.
Qed.

Lemma getCache_stored k (v : Js.value T) s :
  memoryCache s !! k = Some v ->
  _getCache k s = (if Js.truthy v then v else Js.Null) /\
  getCachedResult k s = (if Js.truthy v then v else Js.Null).
Proof.
  intros E. unfold getCachedResult, _getCache, Js.or. rewrite E. simpl.
  destruct (Js.truthy v) eqn:Tv; [by rewrite Tv|]. split; reflexivity.
Qed.

(** C1 (as amended).  In any state of the service, [set(k, v, ttl)]
    followed, before its timer fires, by [set(k, v2, ttl2)], with any
    activity on other keys and any passing of time in between and
    afterwards: the timer of the first [set] is still pending when the
    second [set] starts and is cancelled by it, the timer of the second
    [set] is then the only one for [k], and until that timer fires (so
    also once the original [ttl] has elapsed) the entry of [k] is [v2];
    [get(k)] returns [v2] if [v2] is truthy and [null] otherwise.  The
    timer of a [set] fires when its TTL has elapsed, for every TTL
    between 1 and [TIMEOUT_MAX] milliseconds.  At every instant each key
    has at most one pending timer. *)
Theorem cache_replace_cancels_stale_timer :
  forall (s0 : state T) k v v2 ttl ttl2 ops1 ops2,
    reachable s0 ->
    Forall (leaves k) ops1 -> Forall (leaves k) ops2 ->
    let s1 := _setCacheWithExpiration k v ttl s0 in
    let s2 := run ops1 s1 in
    let s3 := _setCacheWithExpiration k v2 ttl2 s2 in
    let s4 := run ops2 s3 in
    clock s2 < clock s1 + timerDelay (ttl * 1000) ->
    clock s4 < clock s3 + timerDelay (ttl2 * 1000) ->
    (1 <= ttl * 1000 <= TIMEOUT_MAX -> timerDelay (ttl * 1000) = ttl * 1000) /\
    (1 <= ttl2 * 1000 <= TIMEOUT_MAX -> timerDelay (ttl2 * 1000) = ttl2 * 1000) /\
    timersOf k s2 = [fresh_timer k ttl s0] /\
    ~ In (handle (fresh_timer k ttl s0)) (map handle (pending s3)) /\
    ~ In (handle (fresh_timer k ttl s0)) (map handle (pending s4)) /\
    timersOf k s3 = [fresh_timer k ttl2 s2] /\
    timersOf k s4 = [fresh_timer k ttl2 s2] /\
    memoryCache s4 !! k = Some v2 /\
    _getCache k s4 = (if Js.truthy v2 then v2 else Js.Null) /\
    (forall s key, reachable s -> (length (timersOf key s) <= 1)%nat).
Proof.
  intros s0 k v v2 ttl ttl2 ops1 ops2 R F1 F2 s1 s2 s3 s4 Ht1 Ht2.
  pose proof (wf_reachable s0 R) as W0.
  assert (wf s1) as W1 by apply (set_spec k v ttl s0 W0).
  assert (wf s2) as W2 by apply (wf_run ops1 s1 W1).
  assert (wf s3) as W3 by apply (set_spec k v2 ttl2 s2 W2).
  assert (clock s1 = clock s0) as C1 by apply (set_spec k v ttl s0 W0).
  assert (clock s3 = clock s2) as C3 by apply (set_spec k v2 ttl2 s2 W2).
  assert (live k v (clock s0 + timerDelay (ttl * 1000)) (next_handle s0) s2) as L2.
  { apply live_run; try assumption; [apply live_set, W0|]. fold s2. lia. }
  assert (live k v2 (clock s2 + timerDelay (ttl2 * 1000)) (next_handle s2) s4) as L4.
  { apply live_run; try assumption; [apply live_set, W2|]. fold s4. lia. }
  assert (handed_out (fun u => callback_key u = k) (next_handle s0) s2) as H2.
  { apply handed_out_run; [assumption|].
    destruct (set_spec k v ttl s0 W0) as (_ & _ & _ & _ & Hn & _ & Hin).
    split; [fold s1 in Hn; rewrite Hn; lia|]. intros u Hu Hh.
    apply Hin in Hu as [->|[Hu _]]; [reflexivity|].
    apply (wf_fresh s0 W0) in Hu. lia. }
  assert (handed_out (fun _ => False) (next_handle s0) s3) as H3.
  { destruct H2 as [Hlt Hk].
    destruct (set_spec k v2 ttl2 s2 W2) as (_ & _ & _ & _ & Hn & _ & Hin).
    split; [fold s3 in Hn; rewrite Hn; lia|]. intros u Hu Hh.
    apply Hin in Hu as [->|[Hu Hne]]; [simpl in Hh; lia|].
    apply Hne, Hk; assumption. }
  assert (handed_out (fun _ => False) (next_handle s0) s4) as H4
    by (apply handed_out_run; assumption).
  split; [apply timerDelay_in_range|].
  split; [apply timerDelay_in_range|].
  split; [apply (timersOf_live k v _ _ s2 W2 L2)|].
  split; [intros Hin; apply in_map_iff in Hin as (u & Hh & Hu); by apply (proj2 H3 u)|].
  split; [intros Hin; apply in_map_iff in Hin as (u & Hh & Hu); by apply (proj2 H4 u)|].
  split; [apply (timersOf_live k v2 _ _ s3 W3), live_set, W2|].
  split; [apply (timersOf_live k v2 _ _ s4 (wf_run ops2 s3 W3) L4)|].
  split; [apply L4|].
  split; [apply getCache_stored, L4|].
  intros s key Rs. apply NoDup_map_count, wf_keys, wf_reachable, Rs.
Qed.

(** C9.  After [set(k, v, ttl)] with a falsy [v], a read of [k] returns
    [null], through [_getCache] and through [getCachedResult] alike, for
    as long as the key is not stored again.  Until the timer of the
    [set] fires, the entry is stored and its timer is pending, falsy or
    not, and a read returns [v] when [v] is truthy.  The timer fires
    when the TTL has elapsed if the TTL is between 1 and [TIMEOUT_MAX]
    milliseconds, and after one millisecond otherwise. *)
Theorem cache_falsy_payload_reads_as_miss :
  forall (s : state T) k v ttl ops,
    reachable s -> Forall (leaves k) ops ->
    let s' := run ops (_setCacheWithExpiration k v ttl s) in
    (Js.truthy v = false ->
     _getCache k s' = Js.Null /\ getCachedResult k s' = Js.Null) /\
    (clock s' < clock s + timerDelay (ttl * 1000) ->
     memoryCache s' !! k = Some v /\
     timersOf k s' = [fresh_timer k ttl s] /\
     (Js.truthy v = true ->
      _getCache k s' = v /\ getCachedResult k s' = v)) /\
    (1 <= ttl * 1000 <= TIMEOUT_MAX -> timerDelay (ttl * 1000) = ttl * 1000) /\
    (~ 1 <= ttl * 1000 <= TIMEOUT_MAX -> timerDelay (ttl * 1000) = 1).
Proof.
  intros s k v ttl ops R F s'.
  pose proof (wf_reachable s R) as W.
  assert (wf (_setCacheWithExpiration k v ttl s)) as W1 by apply (set_spec k v ttl s W).
  split; [|split; [|split; [apply timerDelay_in_range|apply timerDelay_out_of_range]]].
  - intros Tv. apply (getCache_falsy k v s' Tv).
    apply stored_or_gone_run; [assumption|]. left.
    apply (live_set k v ttl s W).
  - intros Ht.
    assert (live k v (clock s + timerDelay (ttl * 1000)) (next_handle s) s') as L
      by (apply live_run; try assumption; apply live_set, W).
    split; [apply L|].
    split; [apply (timersOf_live k v _ _ s' (wf_run ops _ W1) L)|].
    destruct (getCache_stored k v s' (proj1 L)) as [G1 G2].
    intros Tv; rewrite Tv in G1, G2; by split.
Qed.

End CacheFacts.

(** C1, as stated, fails in two ways.  For a falsy replacement value:
  [0] is stored and its timer is pending, yet [get] answers [null].  For
  a replacement TTL of more than [TIMEOUT_MAX] milliseconds: the timer
  of the second [set] fires after one millisecond, so the entry [7] is
  gone long before its TTL has elapsed. *)
Lemma cache_replace_counterexample :
let s0 := CacheService.init (T := unit) in
let s1 := CacheService._setCacheWithExpiration "k" (Js.Num 1) 10 s0 in
let s2 := CacheService.run [CacheService.OpElapse 5000] s1 in
let s3 := CacheService._setCacheWithExpiration "k" (Js.Num 0) 20 s2 in
let s4 := CacheService.run [CacheService.OpElapse 5000] s3 in
let l3 := CacheService._setCacheWithExpiration "k" (Js.Num 7) 2147484 s2 in
let l4 := CacheService.run [CacheService.OpElapse 5000] l3 in
(CacheService.clock s2 < CacheService.clock s1 + 10 * 1000 /\
 CacheService.clock s1 + 10 * 1000 <= CacheService.clock s4 /\
 CacheService.clock s4 < CacheService.clock s3 + 20 * 1000 /\
 CacheService.memoryCache s4 !! "k" = Some (Js.Num 0) /\
 CacheService._getCache "k" s4 = Js.Null /\
 CacheService._getCache "k" s4 <> Js.Num 0) /\
(CacheService.clock s1 + 10 * 1000 <= CacheService.clock l4 /\
 CacheService.clock l4 < CacheService.clock l3 + 2147484 * 1000 /\
 CacheService.pending l3 =
   [{| CacheService.handle := 1; CacheService.fires_at := 5001;
       CacheService.callback_key := "k" |}] /\
 CacheService.memoryCache l4 !! "k" = None /\
 CacheService._getCache "k" l4 = Js.Null /\
 CacheService._getCache "k" l4 <> Js.Num 7).
Proof. vm_compute. repeat split; discriminate. Qed.

Lemma cache_replace_cancels_stale_timer_witness :
let s0 := CacheService.init (T := unit) in
let s1 := CacheService._setCacheWithExpiration "k" (Js.Num 1) 10 s0 in
let s2 := CacheService.run [CacheService.OpElapse 5000] s1 in
let s3 := CacheService._setCacheWithExpiration "k" (Js.Num 7) 20 s2 in
let s4 := CacheService.run [CacheService.OpElapse 5000] s3 in
CacheService.clock s1 + 10 * 1000 <= CacheService.clock s4 /\
CacheService._getCache "k" s4 = Js.Num 7.
Proof.
intros s0 s1 s2 s3 s4. split; [vm_compute; discriminate|].
refine (proj1 (proj2 (proj2 (proj2 (proj2 (proj2 (proj2 (proj2 (proj2
  (cache_replace_cancels_stale_timer (T := unit) CacheService.init "k" (Js.Num 1) (Js.Num 7)
     10 20 [CacheService.OpElapse 5000] [CacheService.OpElapse 5000] _ _ _ _ _)))))))))).
- constructor.
- repeat constructor.
- repeat constructor.
- vm_compute. reflexivity.
- vm_compute. reflexivity.
Defined.

Lemma cache_falsy_payload_reads_as_miss_witness :
let s' := CacheService.run [CacheService.OpElapse 1000]
            (CacheService._setCacheWithExpiration "k" (Js.Num 0) 600
               (CacheService.init (T := unit))) in
CacheService.memoryCache s' !! "k" = Some (Js.Num 0) /\
CacheService.getCachedResult "k" s' = Js.Null.
Proof.
intros s'.
destruct (cache_falsy_payload_reads_as_miss (T := unit) CacheService.init "k" (Js.Num 0)
            600 [CacheService.OpElapse 1000]) as (Hf & Hl & _).
- constructor.
- repeat constructor.
- split; [apply Hl; vm_compute; reflexivity|]. apply Hf. reflexivity.
Defined.

(** ** Strings and sets of strings *)

Section StringFacts.

Implicit Types (s r : string) (l : list string) (x y : string).

Lemma eqb_neq x y : String.eqb x y = false <-> x <> y.
Proof. apply String.eqb_neq. Qed.

Lemma has_In l x : QueryProcessor.has l x = true <-> In x l.
Proof.
  unfold QueryProcessor.has. rewrite existsb_exists. split.
  - intros (y & Hy & E). apply String.eqb_eq in E. by subst.
  - intros H. exists x. split; [assumption|apply String.eqb_refl].
Qed.

Lemma filter_filter_comm {A} (p q : A -> bool) (l : list A) :
  List.filter p (List.filter q l) = List.filter q (List.filter p l).
Proof.
  induction l as [|a l IH]; simpl; [reflexivity|].
  destruct (q a) eqn:Q, (p a) eqn:P; simpl; rewrite ?Q, ?P, IH; reflexivity.
Qed.

Lemma filter_filter_and {A} (p q : A -> bool) (l : list A) :
List.filter p (List.filter q l) = List.filter (fun a => p a && q a) l.
Proof.
induction l as [|a l IH]; simpl; [reflexivity|].
destruct (q a) eqn:Q; simpl; rewrite ?andb_false_r, ?andb_true_r, IH; reflexivity.
Qed.

Lemma filter_all {A} (p : A -> bool) (l : list A) :
(forall a, In a l -> p a = true) -> List.filter p l = l.
Proof.
induction l as [|a l IH]; simpl; intros H; [reflexivity|].
rewrite (H a), IH; auto.
Qed.

Lemma filter_none {A} (p : A -> bool) (l : list A) :
(forall a, In a l -> p a = false) -> List.filter p l = [].
Proof.
induction l as [|a l IH]; simpl; intros H; [reflexivity|].
rewrite (H a), IH; auto.
Qed.

Lemma filter_absorb {A} (p q : A -> bool) (l : list A) :
  (forall a, In a l -> p a = true -> q a = true) ->
  List.filter p (List.filter q l) = List.filter p l.
Proof.
  induction l as [|a l IH]; simpl; intros H; [reflexivity|].
  destruct (q a) eqn:Q; simpl.
  - destruct (p a); rewrite IH; auto.
  - destruct (p a) eqn:P; [|apply IH; auto].
    rewrite (H a) in Q; auto. discriminate.
Qed.

Lemma firstSeen_filter (p : string -> bool) l :
  Spec.firstSeen (List.filter p l) = List.filter p (Spec.firstSeen l).
Proof.
  induction l as [|x l IH]; simpl; [reflexivity|].
  destruct (p x) eqn:P; simpl.
  - rewrite IH. f_equal. apply filter_filter_comm.
  - rewrite IH. symmetry. apply filter_absorb.
    intros a _ Pa. apply negb_true_iff, eqb_neq. intros ->. congruence.
Qed.

Lemma newSet_acc l acc :
  fold_left Js.setAdd l acc =
  acc ++ Spec.firstSeen (List.filter (fun y => negb (QueryProcessor.has acc y)) l).
Proof.
  revert acc. induction l as [|x l IH]; intros acc; simpl.
  - by rewrite app_nil_r.
  - unfold Js.setAdd at 2. fold (QueryProcessor.has acc x).
    destruct (QueryProcessor.has acc x) eqn:H; simpl; [apply IH|].
    rewrite IH, <- app_assoc. simpl.
    rewrite <- firstSeen_filter, filter_filter_comm. do 3 f_equal.
    rewrite filter_filter_and. apply filter_ext. intros y. unfold QueryProcessor.has.
    rewrite existsb_app. simpl. rewrite orb_false_r, negb_orb.
    f_equal. f_equal. apply String.eqb_sym.
Qed.

(** The spread of a [Set] is the sequence without its repetitions. *)
Lemma newSet_firstSeen l : Js.newSet l = Spec.firstSeen l.
Proof.
  unfold Js.newSet. rewrite newSet_acc. simpl. f_equal.
  induction l as [|x l IH]; simpl; congruence.
Qed.

Lemma In_firstSeen l x : In x (Spec.firstSeen l) <-> In x l.
Proof.
  induction l as [|y l IH]; simpl; [tauto|].
  rewrite filter_In, IH, negb_true_iff, eqb_neq.
  destruct (String.string_dec y x); intuition congruence.
Qed.

Lemma NoDup_firstSeen l : List.NoDup (Spec.firstSeen l).
Proof.
  induction l as [|y l IH]; simpl; constructor.
  - rewrite filter_In, negb_true_iff, eqb_neq. tauto.
  - by apply List.NoDup_filter.
Qed.

Lemma firstSeen_NoDup l : List.NoDup l -> Spec.firstSeen l = l.
Proof.
  induction 1 as [|x l Hx Hl IH]; simpl; [reflexivity|].
  rewrite IH. f_equal. apply filter_all.
  intros a Ha. apply negb_true_iff, eqb_neq. congruence.
Qed.

End StringFacts.

(** ** Splitting and trimming *)

Section SplitFacts.

Variable sep : ascii -> bool.

Lemma runs_nonempty cls s :
  Js.startsWithSep cls s = true -> Js.runs cls s <> [].
Proof.
  destruct s as [|c r]; simpl; [discriminate|]. intros ->.
  destruct (Js.startsWithSep cls r); [|discriminate].
  destruct (Js.runs cls r); discriminate.
Qed.

(** The pieces of a split are the maximal runs of other characters, with an
    empty piece in front when the text starts with a separator and one at
    the end when it ends with one (or is empty). *)
Lemma split_runs s :
  Js.split sep s =
  (if Js.startsWithSep sep s then [EmptyString] else []) ++
  Js.runs (fun c => negb (sep c)) s ++
  (if Js.endsWithSep sep s || String.eqb s EmptyString then [EmptyString] else []).
Proof.
  induction s as [|c r IH]; [reflexivity|].
  cbn [Js.split Js.runs Js.startsWithSep]. rewrite IH. clear IH.
  destruct r as [|c' r'].
  - simpl. destruct (sep c); reflexivity.
  - cbn [Js.startsWithSep Js.endsWithSep String.eqb]. rewrite !orb_false_r.
    pose proof (runs_nonempty (fun c => negb (sep c)) (String c' r')) as Hne.
    cbn [Js.startsWithSep] in Hne.
    destruct (sep c) eqn:Sc, (sep c') eqn:Sc'; cbn [negb app]; try reflexivity.
    destruct (Js.runs (fun c0 => negb (sep c0)) (String c' r')) as [|p ps];
      [exfalso; by apply Hne|reflexivity].
Qed.

End SplitFacts.

Lemma isWhiteSpace_lowerChar c : Js.isWhiteSpace (Js.lowerChar c) = Js.isWhiteSpace c.
Proof. destruct c as [[] [] [] [] [] [] [] []]; reflexivity. Qed.

Lemma startsWithSep_toLowerCase s :
  Js.startsWithSep Js.isWhiteSpace (Js.toLowerCase s) = Js.startsWithSep Js.isWhiteSpace s.
Proof. destruct s; simpl; [reflexivity|apply isWhiteSpace_lowerChar]. Qed.

Lemma endsWithSep_toLowerCase s :
  Js.endsWithSep Js.isWhiteSpace (Js.toLowerCase s) = Js.endsWithSep Js.isWhiteSpace s.
Proof.
  induction s as [|c r IH]; [reflexivity|].
  destruct r as [|c' r']; [apply isWhiteSpace_lowerChar|exact IH].
Qed.

Lemma toLowerCase_empty s : Js.toLowerCase s = EmptyString <-> s = EmptyString.
Proof. destruct s; simpl; split; congruence. Qed.

Lemma startsWithSep_trimStart s :
  Js.startsWithSep Js.isWhiteSpace (Js.trimStart s) = false.
Proof.
  induction s as [|c r IH]; [reflexivity|]. simpl.
  destruct (Js.isWhiteSpace c) eqn:E; [exact IH|simpl; exact E].
Qed.

Lemma startsWithSep_trimEnd s :
  Js.startsWithSep Js.isWhiteSpace s = false ->
  Js.startsWithSep Js.isWhiteSpace (Js.trimEnd s) = false.
Proof.
  destruct s as [|c r]; [reflexivity|]. simpl. intros E.
  destruct (Js.trimEnd r); [rewrite E; simpl|simpl]; exact E.
Qed.

Lemma endsWithSep_trimEnd s : Js.endsWithSep Js.isWhiteSpace (Js.trimEnd s) = false.
Proof.
  induction s as [|c r IH]; [reflexivity|]. simpl.
  destruct (Js.trimEnd r) as [|c' r'] eqn:E.
  - destruct (Js.isWhiteSpace c) eqn:W; simpl; [reflexivity|exact W].
  - exact IH.
Qed.

(** A trimmed text that is not empty splits into its words. *)
Lemma split_trimmed query :
  Js.trim query <> EmptyString ->
  Js.split Js.isWhiteSpace (Js.toLowerCase (Js.trim query)) =
  Spec.tokens (Js.toLowerCase (Js.trim query)).
Proof.
  intros Hne. rewrite split_runs.
  rewrite startsWithSep_toLowerCase, endsWithSep_toLowerCase.
  unfold Js.trim in *.
  rewrite startsWithSep_trimEnd by apply startsWithSep_trimStart.
  rewrite endsWithSep_trimEnd.
  destruct (String.eqb_spec (Js.toLowerCase (Js.trimEnd (Js.trimStart query))) EmptyString) as [E|_].
  - exfalso. apply Hne. by apply toLowerCase_empty.
  - simpl. apply app_nil_r.
Qed.

(** ** The query rewriter *)

(** C8.  For every query, [terms] is the sequence of the whitespace
    tokens of the trimmed, lower-cased query that are not stop words,
    followed by [expansions], without its repetitions: each term stays
    where it is seen first, no term occurs twice, and the terms are exactly
    those tokens and expansions.  [expanded] is [terms] joined with single
    spaces.  The tokens are the pieces of the split on whitespace; for a
    query that is not blank they are exactly its words. *)
Theorem rewrite_terms_ordered_union :
  forall query,
    let r := QueryProcessor.rewriteQuery query in
    let working := Js.toLowerCase (Js.trim query) in
    let tokens :=
      List.filter (fun w => negb (QueryProcessor.has QueryProcessor.stopWords w))
        (Js.split Js.isWhiteSpace working) in
    QueryProcessor.terms r = Spec.firstSeen (tokens ++ QueryProcessor.expansions r) /\
    List.NoDup (QueryProcessor.terms r) /\
    (forall x, In x (QueryProcessor.terms r) <->
               In x tokens \/ In x (QueryProcessor.expansions r)) /\
    QueryProcessor.expanded r = Js.join " " (QueryProcessor.terms r) /\
    (Js.trim query <> EmptyString ->
     Js.split Js.isWhiteSpace working = Spec.tokens working).
Proof.
  intros query r working tokens.
  assert (QueryProcessor.terms r = Spec.firstSeen (tokens ++ QueryProcessor.expansions r)) as E.
  { unfold r, tokens, QueryProcessor.rewriteQuery.
    cbn [QueryProcessor.terms QueryProcessor.expansions]. apply newSet_firstSeen. }
  split; [exact E|]. rewrite E.
  split; [apply NoDup_firstSeen|].
  split; [intros x; rewrite In_firstSeen; apply in_app_iff|].
  split; [rewrite <- E; reflexivity|].
  apply split_trimmed.
Qed.

Lemma rewrite_terms_ordered_union_witness :
  Js.trim "  Fix the API error, fix the api " <> EmptyString /\
  Spec.tokens (Js.toLowerCase (Js.trim "  Fix the API error, fix the api ")) =
  ["fix"; "the"; "api"; "error,"; "fix"; "the"; "api"] /\
  QueryProcessor.terms (QueryProcessor.rewriteQuery "  Fix the API error, fix the api ") =
  ["fix"; "api"; "error,"; "issue"; "problem"; "troubleshoot"; "interface"; "endpoint";
   "call"; "integration"].
Proof.
  assert (Js.trim "  Fix the API error, fix the api " <> EmptyString) as Hne
    by (vm_compute; discriminate).
  destruct (rewrite_terms_ordered_union "  Fix the API error, fix the api ")
    as (E & _ & _ & _ & Hw).
  split; [exact Hne|]. split.
  - rewrite <- (Hw Hne). vm_compute. reflexivity.
  - rewrite E. vm_compute. reflexivity.
Defined.

Lemma flat_map_nil {A B} (f : A -> list B) (l : list A) :
  (forall a, In a l -> f a = []) -> flat_map f l = [].
Proof.
  induction l as [|a l IH]; simpl; intros H; [reflexivity|].
  rewrite (H a), IH; auto.
Qed.

(** C10.  A query that is not blank, whose words are all stop words and
    which contains no expansion trigger as a substring, is rewritten to an
    empty list of terms; the complexity analysis then divides 0 by 0:
    [averageLength] is [NaN], [termCount] is 0, and [hasTechnicalTerms] and
    [isComplex] are false. *)
Theorem stop_word_query_average_is_NaN :
  forall query topK,
    Js.trim query <> EmptyString ->
    Forall (fun w => In w QueryProcessor.stopWords)
           (Spec.tokens (Js.toLowerCase (Js.trim query))) ->
    (forall trigger, In trigger (map fst QueryProcessor.queryExpansions) ->
                     Js.includes (Js.toLowerCase (Js.trim query)) trigger = false) ->
    let p := QueryProcessor.prepareSearchQuery query topK in
    QueryProcessor.terms (QueryProcessor.rewriteQuery query) = [] /\
    QueryProcessor.termCount (QueryProcessor.queryComplexity p) = 0%nat /\
    QueryProcessor.averageLength (QueryProcessor.queryComplexity p) = Js.div 0 0 /\
    QueryProcessor.averageLength (QueryProcessor.queryComplexity p) = Js.NotANumber /\
    QueryProcessor.hasTechnicalTerms (QueryProcessor.queryComplexity p) = false /\
    QueryProcessor.isComplex (QueryProcessor.queryComplexity p) = false.
Proof.
  intros query topK Hne Hstop Htrig p.
  assert (QueryProcessor.terms (QueryProcessor.rewriteQuery query) = []) as E.
  { unfold QueryProcessor.rewriteQuery. cbn [QueryProcessor.terms].
    rewrite split_trimmed by assumption.
    assert (QueryProcessor.expand (Js.toLowerCase (Js.trim query)) = []) as ->.
    { apply flat_map_nil. intros [term related] Hin.
      rewrite (Htrig term); [reflexivity|]. apply in_map_iff. by exists (term, related). }
    rewrite filter_none; [reflexivity|].
    intros w Hw. apply negb_false_iff, has_In.
    rewrite List.Forall_forall in Hstop. by apply Hstop. }
  split; [exact E|].
  unfold p, QueryProcessor.prepareSearchQuery. cbn [QueryProcessor.queryComplexity].
  rewrite E. repeat split.
Qed.

Lemma stop_word_query_average_is_NaN_witness :
  QueryProcessor.terms (QueryProcessor.rewriteQuery " To the ") = [] /\
  QueryProcessor.averageLength
    (QueryProcessor.queryComplexity (QueryProcessor.prepareSearchQuery " To the " 5)) =
  Js.NotANumber.
Proof.
  destruct (stop_word_query_average_is_NaN " To the " 5) as (E & _ & _ & N & _).
  - vm_compute. discriminate.
  - assert (Spec.tokens (Js.toLowerCase (Js.trim " To the ")) = ["to"; "the"]) as ->
      by (vm_compute; reflexivity).
    repeat (apply List.Forall_cons; [apply has_In; vm_compute; reflexivity|]).
    apply List.Forall_nil.
  - intros trigger Hin. simpl in Hin.
    repeat (destruct Hin as [<-|Hin]; [vm_compute; reflexivity|]). destruct Hin.
  - split; [exact E|exact N].
Defined.

(** ** The stable sort by descending key *)

Section SortFacts.

Context {A : Type} (key : A -> Q).

Local Abbreviation desc := (Spec.descending key).

Lemma In_insertDesc x a l : In a (Js.insertDesc key x l) <-> a = x \/ In a l.
Proof.
  induction l as [|y l IH]; simpl; [intuition congruence|].
  destruct (Qle_bool (key y) (key x)); simpl; rewrite ?IH; intuition congruence.
Qed.

Lemma insertDesc_Permutation x l : Permutation (Js.insertDesc key x l) (x :: l).
Proof.
  induction l as [|y l IH]; simpl; [reflexivity|].
  destruct (Qle_bool (key y) (key x)); [reflexivity|].
  rewrite IH. apply perm_swap.
Qed.

Lemma sortDesc_Permutation l : Permutation (Js.sortDesc key l) l.
Proof.
  induction l as [|x l IH]; simpl; [reflexivity|].
  rewrite insertDesc_Permutation. by constructor.
Qed.

Lemma In_sortDesc a l : In a (Js.sortDesc key l) <-> In a l.
Proof.
  split; apply Permutation_in; [|symmetry]; apply sortDesc_Permutation.
Qed.

Lemma desc_cons x l : desc (x :: l) <-> (forall a, In a l -> (key a <= key x)%Q) /\ desc l.
Proof.
  unfold Spec.descending. split.
  - intros H. inversion H as [|? ? Hl Hx]; subst. split; [|assumption].
    by apply List.Forall_forall.
  - intros [Hx Hl]. constructor; [assumption|]. by apply List.Forall_forall.
Qed.

Lemma desc_nil : desc [].
Proof. constructor. Qed.

Lemma insertDesc_desc x l : desc l -> desc (Js.insertDesc key x l).
Proof.
  induction l as [|y l IH]; simpl; intros H.
  - apply desc_cons. split; [intros a []|apply desc_nil].
  - destruct (Qle_bool (key y) (key x)) eqn:E.
    + apply Qle_bool_iff in E. apply desc_cons. split; [|assumption].
      apply desc_cons in H as [Hy _].
      intros a [<-|Ha]; [assumption|]. eapply Qle_trans; [by apply Hy|assumption].
    + assert (key x <= key y)%Q as L.
      { apply Qnot_lt_le. intros L. apply Qlt_le_weak, Qle_bool_iff in L. congruence. }
      apply desc_cons in H as [Hy Hl]. apply desc_cons. split; [|by apply IH].
      intros a Ha. apply In_insertDesc in Ha as [->|Ha]; [assumption|by apply Hy].
Qed.

Lemma sortDesc_desc l : desc (Js.sortDesc key l).
Proof.
  induction l as [|x l IH]; simpl; [apply desc_nil|by apply insertDesc_desc].
Qed.

Lemma insertDesc_head x l : desc (x :: l) -> Js.insertDesc key x l = x :: l.
Proof.
  destruct l as [|y l]; simpl; [reflexivity|]. intros H.
  apply desc_cons in H as [Hx _].
  assert (Qle_bool (key y) (key x) = true) as ->; [|reflexivity].
  apply Qle_bool_iff, Hx. by left.
Qed.

Lemma sortDesc_id l : desc l -> Js.sortDesc key l = l.
Proof.
  induction l as [|x l IH]; simpl; intros H; [reflexivity|].
  rewrite IH by (apply desc_cons in H; tauto). by apply insertDesc_head.
Qed.

Lemma desc_sublist l1 l2 : sublist l1 l2 -> desc l2 -> desc l1.
Proof.
  induction 1 as [|x l1 l2 Hs IH|x l1 l2 Hs IH]; intros H.
  - assumption.
  - apply desc_cons in H as [Hx Hl]. apply desc_cons. split; [|by apply IH].
    intros a Ha. apply Hx. apply list_elem_of_In. eapply elem_of_sublist; [|eassumption].
    by apply list_elem_of_In.
  - apply desc_cons in H as [_ Hl]. by apply IH.
Qed.

Lemma sublist_list_filter (p : A -> bool) l : sublist (List.filter p l) l.
Proof.
  induction l as [|x l IH]; simpl; [constructor|].
  destruct (p x); by constructor.
Qed.


Lemma desc_filter (p : A -> bool) l : desc l -> desc (List.filter p l).
Proof. apply desc_sublist, sublist_list_filter. Qed.

(** The sort is stable: it commutes with every selection. *)
Lemma filter_insertDesc (p : A -> bool) x l :
  desc l ->
  List.filter p (Js.insertDesc key x l) =
  if p x then Js.insertDesc key x (List.filter p l) else List.filter p l.
Proof.
  induction l as [|y l IH]; intros H.
  - simpl. destruct (p x); reflexivity.
  - cbn [Js.insertDesc]. destruct (Qle_bool (key y) (key x)) eqn:E.
    + cbn [List.filter]. destruct (p x) eqn:Px; [|reflexivity].
      symmetry. apply (insertDesc_head x (List.filter p (y :: l))).
      apply desc_cons. split; [|by apply desc_filter].
      intros a Ha. apply filter_In in Ha as [Ha _].
      apply Qle_bool_iff in E. apply desc_cons in H as [Hy _].
      destruct Ha as [<-|Ha]; [assumption|].
      eapply Qle_trans; [by apply Hy|assumption].
    + cbn [List.filter]. rewrite IH by (apply desc_cons in H; tauto).
      destruct (p y) eqn:Py, (p x) eqn:Px; try reflexivity.
      cbn [Js.insertDesc]. by rewrite E.
Qed.

Lemma filter_sortDesc (p : A -> bool) l :
  List.filter p (Js.sortDesc key l) = Js.sortDesc key (List.filter p l).
Proof.
  induction l as [|x l IH]; simpl; [reflexivity|].
  rewrite filter_insertDesc by apply sortDesc_desc. rewrite IH.
  destruct (p x); reflexivity.
Qed.


End SortFacts.

(** ** Dictionaries and document groups *)

Section EntriesFacts.

Context {V : Type}.
Implicit Types (o : list (string * V)) (e : string * V).

Lemma insertIndex_Permutation n e (l : list (N * (string * V))) :
  Permutation (map snd (Js.insertIndex n e l)) (e :: map snd l).
Proof.
  induction l as [|[m e'] l IH]; simpl; [reflexivity|].
  destruct (n <? m)%N; simpl; [reflexivity|].
  rewrite IH. apply perm_swap.
Qed.

Lemma indexEntries_Permutation o :
  Permutation (map snd (Js.indexEntries o)) (List.filter (fun e => negb (Js.isNamed e)) o).
Proof.
  induction o as [|e o IH]; simpl; [reflexivity|].
  unfold Js.isNamed at 1. destruct (Js.arrayIndex (fst e)); simpl; [|assumption].
  rewrite insertIndex_Permutation. by constructor.
Qed.

Lemma filter_split_Permutation {B} (p : B -> bool) (l : list B) :
  Permutation (List.filter (fun b => negb (p b)) l ++ List.filter p l) l.
Proof.
  induction l as [|b l IH]; simpl; [reflexivity|].
  destruct (p b); simpl.
  - rewrite <- Permutation_middle. by constructor.
  - by constructor.
Qed.

(** [Object.entries] enumerates every property once. *)
Lemma entries_Permutation o : Permutation (Js.entries o) o.
Proof.
  unfold Js.entries. rewrite indexEntries_Permutation. apply filter_split_Permutation.
Qed.

End EntriesFacts.

Section GroupFacts.

Import QueryProcessor.
Implicit Types (G E : list (string * list Raw.Result)) (l rs : list Raw.Result)
  (r : Raw.Result) (k : string).

Lemma groupOf_pushOwn k k' r G :
  Spec.groupOf k (pushOwn k' r G) =
  if String.eqb k' k then Spec.groupOf k G ++ [r] else Spec.groupOf k G.
Proof.
  unfold Spec.groupOf. induction G as [|[k0 rs] G IH]; simpl.
  - destruct (String.eqb k' k); reflexivity.
  - destruct (String.eqb k0 k') eqn:E0; simpl.
    + apply String.eqb_eq in E0. subst k0.
      destruct (String.eqb k' k); reflexivity.
    + destruct (String.eqb k0 k) eqn:E1; [|exact IH].
      apply String.eqb_eq in E1. subst k0.
      rewrite String.eqb_sym in E0. by rewrite E0.
Qed.

Lemma keys_pushOwn k' r G k :
  In k (map fst (pushOwn k' r G)) <-> k = k' \/ In k (map fst G).
Proof.
  induction G as [|[k0 rs] G IH]; simpl; [intuition congruence|].
  destruct (String.eqb k0 k') eqn:E0; simpl.
  - apply String.eqb_eq in E0. intuition congruence.
  - rewrite IH. tauto.
Qed.

Lemma NoDup_pushOwn k' r G :
  List.NoDup (map fst G) -> List.NoDup (map fst (pushOwn k' r G)).
Proof.
  induction G as [|[k0 rs] G IH]; simpl; intros H.
  - constructor; [intros []|constructor].
  - inversion H as [|? ? Hn Hl]; subst.
    destruct (String.eqb k0 k') eqn:E0; simpl; [by constructor|].
    constructor; [|by apply IH].
    rewrite keys_pushOwn. apply String.eqb_neq in E0. intuition congruence.
Qed.

Lemma groupOf_groups k l G :
  Spec.groupOf k (groupsOwn l G) = Spec.groupOf k G ++ QueryProcessor.keyed k l.
Proof.
  revert G. induction l as [|r l IH]; intros G; simpl; [by rewrite app_nil_r|].
  unfold groupsOwn in *. simpl. rewrite IH, groupOf_pushOwn.
  destruct (String.eqb (docId r) k); [by rewrite <- app_assoc|reflexivity].
Qed.

Lemma NoDup_groups l G : List.NoDup (map fst G) -> List.NoDup (map fst (groupsOwn l G)).
Proof.
  revert G. induction l as [|r l IH]; intros G H; simpl; [assumption|].
  apply IH, NoDup_pushOwn, H.
Qed.

Lemma In_groupOf k rs G :
  List.NoDup (map fst G) -> In (k, rs) G -> Spec.groupOf k G = rs.
Proof.
  unfold Spec.groupOf. induction G as [|[k0 rs0] G IH]; simpl; intros H Hin; [tauto|].
  inversion H as [|? ? Hn Hl]; subst.
  destruct Hin as [E|Hin].
  - injection E as -> ->. by rewrite String.eqb_refl.
  - destruct (String.eqb k0 k) eqn:E0; [|by apply IH].
    apply String.eqb_eq in E0. subst k0. exfalso. apply Hn.
    apply in_map_iff. by exists (k, rs).
Qed.

Lemma groupOf_absent k G : ~ In k (map fst G) -> Spec.groupOf k G = [].
Proof.
  unfold Spec.groupOf. induction G as [|[k0 rs0] G IH]; simpl; intros H; [reflexivity|].
  destruct (String.eqb k0 k) eqn:E0; [|apply IH; tauto].
  apply String.eqb_eq in E0. tauto.
Qed.

Lemma groupOf_present k G :
  In k (map fst G) -> In (k, Spec.groupOf k G) G.
Proof.
  unfold Spec.groupOf. induction G as [|[k0 rs0] G IH]; simpl; intros H; [tauto|].
  destruct (String.eqb k0 k) eqn:E0; simpl.
  - apply String.eqb_eq in E0. subst. by left.
  - right. apply IH. apply String.eqb_neq in E0. intuition congruence.
Qed.

Lemma groupOf_Permutation k E G :
  List.NoDup (map fst G) -> Permutation E G -> Spec.groupOf k E = Spec.groupOf k G.
Proof.
  intros HG HP.
  assert (List.NoDup (map fst E)) as HE
    by (eapply Permutation_NoDup; [apply Permutation_map; symmetry; exact HP|exact HG]).
  destruct (in_dec String.string_dec k (map fst G)) as [Hk|Hk].
  - apply In_groupOf; [assumption|].
    eapply Permutation_in; [symmetry; exact HP|]. by apply groupOf_present.
  - rewrite (groupOf_absent k G Hk). apply groupOf_absent.
    intros Hin. apply Hk. eapply Permutation_in; [apply Permutation_map; exact HP|exact Hin].
Qed.

Lemma ofDocument_all k l : (forall r, In r l -> docId r = k) -> QueryProcessor.keyed k l = l.
Proof.
  intros H. apply filter_all. intros r Hr. apply String.eqb_eq. by apply H.
Qed.

Lemma ofDocument_none k l : (forall r, In r l -> docId r <> k) -> QueryProcessor.keyed k l = [].
Proof.
  intros H. apply filter_none. intros r Hr. apply String.eqb_neq. by apply H.
Qed.

Lemma In_firstn {B} n (l : list B) b : In b (firstn n l) -> In b l.
Proof.
  revert l. induction n as [|n IH]; intros [|c l]; simpl; try tauto.
  intros [->|H]; auto.
Qed.

(** Capping the groups of a dictionary whose arrays hold results of their
    own key. *)
Lemma ofDocument_capped k E :
  List.NoDup (map fst E) ->
  (forall k' rs, In (k', rs) E -> forall r, In r rs -> docId r = k') ->
  QueryProcessor.keyed k (flat_map (fun '(_, docResults) => firstn maxChunksPerDocument docResults) E) =
  firstn maxChunksPerDocument (Spec.groupOf k E).
Proof.
  induction E as [|[k0 rs0] E IH]; intros H Hown; [reflexivity|].
  inversion H as [|? ? Hn Hl]; subst.
  cbn [flat_map]. unfold QueryProcessor.keyed in *. rewrite List.filter_app, IH; [|assumption|].
  2:{ intros k' rs Hin. apply Hown. by right. }
  unfold Spec.groupOf at 2. cbn [List.find fst snd].
  destruct (String.eqb k0 k) eqn:E0.
  - apply String.eqb_eq in E0. subst k0.
    rewrite (groupOf_absent k E Hn). rewrite firstn_nil, app_nil_r.
    apply (ofDocument_all k). intros r Hr. apply (Hown k rs0); [by left|].
    eapply In_firstn, Hr.
  - fold (Spec.groupOf k E). apply String.eqb_neq in E0.
    assert (QueryProcessor.keyed k (firstn maxChunksPerDocument rs0) = []) as X.
    { apply ofDocument_none. intros r Hr.
      rewrite (Hown k0 rs0 (or_introl eq_refl) r); [assumption|].
      eapply In_firstn, Hr. }
    unfold QueryProcessor.keyed in X. by rewrite X.
Qed.

Lemma In_ofDocument k l r : In r (QueryProcessor.keyed k l) <-> In r l /\ docId r = k.
Proof. unfold QueryProcessor.keyed. by rewrite filter_In, String.eqb_eq. Qed.

Lemma groups_own l k rs :
  In (k, rs) (groupsOwn l []) -> rs = QueryProcessor.keyed k l.
Proof.
  intros Hin. rewrite <- (In_groupOf k rs (groupsOwn l [])); [|apply NoDup_groups; constructor|assumption].
  by rewrite groupOf_groups.
Qed.

(** What [groupOwn] keeps of each document. *)
Lemma group_ofDocument k l :
  QueryProcessor.keyed k (groupOwn l) =
  Js.sortDesc Raw.similarity_score (firstn maxChunksPerDocument (QueryProcessor.keyed k l)).
Proof.
  unfold groupOwn, limit.
  destruct (length l <=? 1)%nat eqn:Len.
  - destruct l as [|a [|b l]]; [reflexivity| |discriminate].
    unfold QueryProcessor.keyed. simpl. destruct (String.eqb (docId a) k); reflexivity.
  - unfold QueryProcessor.keyed at 1.
    rewrite filter_sortDesc. f_equal. fold (QueryProcessor.keyed k).
    pose proof (entries_Permutation (groupsOwn l [])) as HP.
    assert (List.NoDup (map fst (groupsOwn l []))) as HG by (apply NoDup_groups; constructor).
    etransitivity; [apply (ofDocument_capped k (Js.entries (groupsOwn l [])))|].
    3:{ rewrite (groupOf_Permutation k _ _ HG HP), groupOf_groups. reflexivity. }
    + eapply Permutation_NoDup; [apply Permutation_map; symmetry; exact HP|exact HG].
    + intros k' rs Hin r Hr.
      apply (Permutation_in _ HP) in Hin. apply groups_own in Hin. subst rs.
      by apply In_ofDocument in Hr as [_ Hr].
Qed.

Lemma In_group l r : In r (groupOwn l) -> In r l.
Proof.
  intros Hin.
  assert (In r (QueryProcessor.keyed (docId r) (groupOwn l))) as H
    by (by apply In_ofDocument).
  rewrite group_ofDocument in H. apply In_sortDesc, In_firstn, In_ofDocument in H. tauto.
Qed.

Lemma group_desc l : Spec.descending Raw.similarity_score (groupOwn l).
Proof.
  unfold groupOwn, limit. destruct (length l <=? 1)%nat eqn:Len.
  - destruct l as [|a [|b l]]; [apply desc_nil| |discriminate].
    apply desc_cons. split; [intros ? []|apply desc_nil].
  - apply sortDesc_desc.
Qed.

(** The key that the code computes is the document key. *)
Lemma docId_documentKey r : docId r = Spec.documentKey r.
Proof.
  unfold docId, Spec.documentKey, Raw.meta.
  destruct (Raw.result_document_id r) as [[|c id]|]; simpl;
    try reflexivity;
    (destruct (Raw.metadata r) as [m|]; simpl; [|reflexivity];
     destruct (Raw.source m) as [[|c' name]|]; reflexivity).
Qed.

Lemma keyed_ofDocument k l : keyed k l = Spec.ofDocument k l.
Proof.
  unfold keyed, Spec.ofDocument. apply List.filter_ext.
  intros r. by rewrite docId_documentKey.
Qed.

(** *** Keys inherited from [Object.prototype] *)

Lemma keysAreOwn_spec l :
  keysAreOwn l = true <-> forall r, In r l -> Js.inherited (docId r) = false.
Proof.
  unfold keysAreOwn. rewrite forallb_forall.
  split; intros H r Hr; specialize (H r Hr); by destruct (Js.inherited (docId r)).
Qed.

Lemma keysAreOwn_false l :
  keysAreOwn l = false -> exists r, In r l /\ Js.inherited (docId r) = true.
Proof.
  unfold keysAreOwn. induction l as [|a l IH]; simpl; [discriminate|].
  destruct (Js.inherited (docId a)) eqn:E; simpl.
  - intros _. exists a. by split; [left|].
  - intros H. destruct (IH H) as (r & Hr & Er). exists r. by split; [right|].
Qed.

Lemma hasOwn_keys {V} key (G : list (string * V)) :
  Js.hasOwn key G = true <-> In key (map fst G).
Proof.
  unfold Js.hasOwn. rewrite existsb_exists, in_map_iff.
  split; intros (e & A & B).
  - apply String.eqb_eq in B. by exists e.
  - exists e. split; [exact B|]. by apply String.eqb_eq.
Qed.

Lemma thrown_stays (l : list Raw.Result) message :
  fold_left (fun groups result => Js.andThen groups (pushGroup (docId result) result))
            l (Js.TypeError message) = Js.TypeError message.
Proof. induction l as [|r l IH]; simpl; [reflexivity|exact IH]. Qed.

(** The loop over the dictionary throws at the first inherited key, and
    files the results under their keys when there is none. *)
Lemma groups_spec l G :
  (forall k, In k (map fst G) -> Js.inherited k = false) ->
  groups l G =
  if keysAreOwn l then Js.Normal (groupsOwn l G) else Js.TypeError notAFunction.
Proof.
  revert G. induction l as [|r l IH]; intros G HG; [reflexivity|].
  unfold groups, groupsOwn, keysAreOwn in *. cbn [fold_left forallb Js.andThen].
  unfold pushGroup at 2.
  destruct (Js.inherited (docId r)) eqn:E; cbn [negb andb].
  - assert (Js.hasOwn (docId r) G = false) as ->.
    { destruct (Js.hasOwn (docId r) G) eqn:H; [|reflexivity].
      apply hasOwn_keys, HG in H. congruence. }
    cbn [negb andb]. apply thrown_stays.
  - rewrite andb_false_r. apply IH.
    intros k Hk. apply keys_pushOwn in Hk as [->|Hk]; [exact E|by apply HG].
Qed.

Lemma group_spec l :
  _groupResultsByDocument l =
  if (length l <=? 1)%nat || keysAreOwn l then Js.Normal (groupOwn l)
  else Js.TypeError notAFunction.
Proof.
  unfold _groupResultsByDocument, groupOwn.
  destruct (length l <=? 1)%nat; [reflexivity|].
  rewrite groups_spec by (intros k []). cbn [orb].
  destruct (keysAreOwn l); reflexivity.
Qed.

Lemma format_spec l q :
  formatResultsWithCitations l q =
  let deduplicated := _deduplicateResults (Js.sortDesc Raw.similarity_score l) in
  if (length deduplicated <=? 1)%nat || keysAreOwn deduplicated
  then Js.Normal (formatOwn l q) else Js.TypeError notAFunction.
Proof.
  unfold formatResultsWithCitations, formatOwn.
  destruct l as [|a l]; [reflexivity|]. cbn [length Nat.eqb]. cbv zeta.
  rewrite group_spec.
  destruct (_ || _); reflexivity.
Qed.

End GroupFacts.

(** ** The runs of a class of characters in a text *)

Section RunFacts.

Variable cls : ascii -> bool.

Lemma within_cons c w : Spec.within cls (String c w) <-> cls c = true /\ Spec.within cls w.
Proof.
  unfold Spec.within. simpl. split.
  - intros H. split; [apply H; by left|]. intros x Hx. apply H. by right.
  - intros [Hc Hw] x [<-|Hx]; auto.
Qed.

Lemma notAfter_nil : Spec.notAfter cls EmptyString.
Proof. intros [|x b'] c E; discriminate E. Qed.

Lemma notAfter_cons x b :
  Spec.notAfter cls (String x b) <-> (b = EmptyString /\ cls x = false) \/ (b <> EmptyString /\ Spec.notAfter cls b).
Proof.
  split.
  - intros H. destruct b as [|y b].
    + left. split; [reflexivity|]. by apply (H EmptyString x).
    + right. split; [discriminate|]. intros b' c E. apply (H (String x b') c).
      simpl. by rewrite E.
  - intros [[-> Hx]|[Hb H]] b' c E.
    + destruct b' as [|y b']; simpl in E.
      * by injection E as ->.
      * injection E as _ E. destruct b'; discriminate E.
    + destruct b' as [|y b']; simpl in E.
      * injection E as _ E. contradiction.
      * injection E as _ E. by apply (H b' c).
Qed.

Lemma notBefore_startsWithSep a : Spec.notBefore cls a <-> Js.startsWithSep cls a = false.
Proof.
  unfold Spec.notBefore. destruct a as [|c a]; simpl.
  - split; [reflexivity|]. intros _ c a' E. discriminate E.
  - split; [intros H; by apply (H c a)|]. intros H c' a' [= <- <-]. exact H.
Qed.

Lemma append_startsWithSep w a :
  w <> EmptyString -> Spec.within cls w -> Js.startsWithSep cls (w +:+ a) = true.
Proof.
  destruct w as [|c w]; [contradiction|]. intros _ H. simpl.
  by apply within_cons in H as [H _].
Qed.

(** Two runs at the start of a text are the same. *)
Lemma prefix_unique w p a a2 :
  Spec.within cls w -> Spec.within cls p -> Spec.notBefore cls a -> Spec.notBefore cls a2 ->
  (w +:+ a = p +:+ a2)%string -> w = p.
Proof.
  revert p. induction w as [|x w IH]; intros [|y p] Hw Hp Ha Ha2 E; simpl in E.
  - reflexivity.
  - apply within_cons in Hp as [Hy _]. rewrite (Ha y _ E) in Hy. discriminate.
  - apply within_cons in Hw as [Hx _]. symmetry in E. rewrite (Ha2 x _ E) in Hx. discriminate.
  - injection E as -> E. apply within_cons in Hw as [_ Hw]. apply within_cons in Hp as [_ Hp].
    f_equal. by apply IH.
Qed.

Lemma runs_sound s :
  (forall w, In w (Js.runs cls s) -> exists b a, Spec.runAt cls s b w a) /\
  (Js.startsWithSep cls s = true ->
   exists p ps a, Js.runs cls s = p :: ps /\ Spec.runAt cls s EmptyString p a /\
     forall w, In w ps -> exists b a', b <> EmptyString /\ Spec.runAt cls s b w a').
Proof.
  induction s as [|c r [IH1 IH2]].
  - split; [intros w []|discriminate].
  - cbn [Js.runs Js.startsWithSep]. destruct (cls c) eqn:Hc.
    + destruct (Js.startsWithSep cls r) eqn:Hr.
      * destruct (IH2 eq_refl) as (p & ps & a & E & (Er & Hp & Ap & _ & Na) & Hps).
        rewrite E.
        assert (Spec.runAt cls (String c r) EmptyString (String c p) a) as Hhead.
        { split; [simpl in *; by rewrite Er|]. split; [discriminate|].
          split; [by apply within_cons|]. split; [apply notAfter_nil|exact Na]. }
        assert (forall w, In w ps ->
                  exists b a', b <> EmptyString /\ Spec.runAt cls (String c r) b w a') as Htail.
        { intros w Hw. destruct (Hps w Hw) as (b & a' & Hb & (Eb & Hw' & Aw & Nb & Na')).
          exists (String c b), a'. split; [discriminate|].
          split; [simpl; by rewrite Eb|]. split; [exact Hw'|]. split; [exact Aw|].
          split; [apply notAfter_cons; by right|exact Na']. }
        split.
        -- intros w [<-|Hw]; [by eauto|]. destruct (Htail w Hw) as (b & a' & _ & H). eauto.
        -- intros _. by exists (String c p), ps, a.
      * assert (Spec.runAt cls (String c r) EmptyString (String c EmptyString) r) as Hhead.
        { split; [reflexivity|]. split; [discriminate|].
          split; [apply within_cons; split; [exact Hc|intros x []]|].
          split; [apply notAfter_nil|by apply notBefore_startsWithSep]. }
        assert (forall w, In w (Js.runs cls r) ->
                  exists b a', b <> EmptyString /\ Spec.runAt cls (String c r) b w a') as Htail.
        { intros w Hw. destruct (IH1 w Hw) as (b & a' & (Eb & Hw' & Aw & Nb & Na')).
          assert (b <> EmptyString) as Hb.
          { intros ->. change (r = (w +:+ a')%string) in Eb. rewrite Eb in Hr.
            rewrite (append_startsWithSep w a' Hw' Aw) in Hr. discriminate. }
          exists (String c b), a'. split; [discriminate|].
          split; [simpl; by rewrite Eb|]. split; [exact Hw'|]. split; [exact Aw|].
          split; [apply notAfter_cons; by right|exact Na']. }
        split.
        -- intros w [<-|Hw]; [by eauto|]. destruct (Htail w Hw) as (b & a' & _ & H). eauto.
        -- intros _. by exists (String c EmptyString), (Js.runs cls r), r.
    + split; [|discriminate]. intros w Hw.
      destruct (IH1 w Hw) as (b & a' & (Eb & Hw' & Aw & Nb & Na')).
      exists (String c b), a'. split; [simpl; by rewrite Eb|]. split; [exact Hw'|].
      split; [exact Aw|]. split; [|exact Na'].
      apply notAfter_cons. destruct b as [|y b]; [by left|right]. split; [discriminate|exact Nb].
Qed.

Lemma runs_complete s :
  (forall b w a, Spec.runAt cls s b w a -> In w (Js.runs cls s)) /\
  (Js.startsWithSep cls s = true ->
   forall b w a, b <> EmptyString -> Spec.runAt cls s b w a -> In w (tl (Js.runs cls s))).
Proof.
  induction s as [|c r [IH1 IH2]].
  - split; [|discriminate]. intros b w a (E & Hw & _).
    destruct b; [|discriminate E]. destruct w; [contradiction|discriminate E].
  - assert (forall b w a, b <> EmptyString -> Spec.runAt cls (String c r) b w a ->
              exists b', b = String c b' /\ (cls c = true -> b' <> EmptyString) /\
                         Spec.runAt cls r b' w a) as Hshift.
    { intros b w a Hb (E & Hw & Aw & Nb & Na).
      destruct b as [|x b']; [contradiction|]. simpl in E. injection E as <- E.
      exists b'. split; [reflexivity|].
      apply notAfter_cons in Nb as [[-> Hx]|[Hb' Nb']].
      - split; [congruence|]. split; [exact E|]. split; [exact Hw|]. split; [exact Aw|].
        split; [apply notAfter_nil|exact Na].
      - split; [by intros _|]. by repeat split. }
    cbn [Js.runs Js.startsWithSep]. destruct (cls c) eqn:Hc.
    + assert (forall b w a, b <> EmptyString -> Spec.runAt cls (String c r) b w a ->
                In w (tl (if Js.startsWithSep cls r
                          then match Js.runs cls r with
                               | [] => [String c EmptyString]
                               | p :: ps => String c p :: ps
                               end
                          else String c EmptyString :: Js.runs cls r))) as H2.
      { intros b w a Hb H. destruct (Hshift b w a Hb H) as (b' & -> & Hb' & H').
        specialize (Hb' eq_refl).
        destruct (Js.startsWithSep cls r) eqn:Hr.
        - pose proof (IH2 eq_refl b' w a Hb' H') as Hin.
          destruct (Js.runs cls r) as [|p ps]; [destruct Hin|exact Hin].
        - simpl. by apply (IH1 b' w a). }
      split; [|intros _; exact H2].
      intros b w a H. destruct b as [|x b'].
      * destruct H as (E & Hw & Aw & _ & Na). simpl in E.
        destruct w as [|x w']; [contradiction|]. simpl in E. injection E as <- E.
        apply within_cons in Aw as [_ Aw].
        destruct (Js.startsWithSep cls r) eqn:Hr.
        -- destruct (proj2 (runs_sound r) Hr) as (p & ps & a2 & Ep & (E2 & _ & Ap & _ & Na2) & _).
           rewrite Ep. left. f_equal. change (r = (p +:+ a2)%string) in E2. symmetry.
           apply (prefix_unique w' p a a2); try assumption. congruence.
        -- left. f_equal. destruct w' as [|y w'']; [reflexivity|].
           rewrite E in Hr. simpl in Hr. apply within_cons in Aw as [Hy _]. congruence.
      * assert (In w (tl (if Js.startsWithSep cls r
                          then match Js.runs cls r with
                               | [] => [String c EmptyString]
                               | p :: ps => String c p :: ps
                               end
                          else String c EmptyString :: Js.runs cls r))) as Hin
          by (by apply (H2 (String x b') w a)).
        destruct (Js.startsWithSep cls r); [destruct (Js.runs cls r)|]; simpl in *; tauto.
    + split; [|discriminate]. intros b w a H.
      destruct b as [|x b'].
      * destruct H as (E & Hw & Aw & _). simpl in E.
        destruct w as [|y w']; [contradiction|]. simpl in E. injection E as <- E.
        apply within_cons in Aw as [Hy _]. congruence.
      * destruct (Hshift (String x b') w a) as (b'' & _ & _ & H'); [discriminate|exact H|].
        by apply (IH1 b'' w a).
Qed.

(** [Js.runs] lists the runs of a text. *)
Lemma In_runs s w :
  In w (Js.runs cls s) <-> exists before after, Spec.runAt cls s before w after.
Proof.
  split.
  - apply runs_sound.
  - intros (b & a & H). by apply (proj1 (runs_complete s) b w a).
Qed.

End RunFacts.

(** ** Content similarity and deduplication *)

Section DedupFacts.

Import QueryProcessor.
Implicit Types (l kept : list Raw.Result) (r e : Raw.Result).

Lemma NoDup_newSet (l : list string) : List.NoDup (Js.newSet l).
Proof. rewrite newSet_firstSeen. apply NoDup_firstSeen. Qed.

Lemma In_newSet (l : list string) x : In x (Js.newSet l) <-> In x l.
Proof. rewrite newSet_firstSeen. apply In_firstSeen. Qed.

Lemma newSet_length_ext (l1 l2 : list string) :
  (forall x, In x l1 <-> In x l2) -> length (Js.newSet l1) = length (Js.newSet l2).
Proof.
  intros H. apply Permutation_length, Permutation.NoDup_Permutation; try apply NoDup_newSet.
  intros x. by rewrite !In_newSet.
Qed.

(** The similarity does not depend on the order of its arguments. *)
Lemma similarity_sym c1 c2 :
  _calculateContentSimilarity c1 c2 = _calculateContentSimilarity c2 c1.
Proof.
  unfold _calculateContentSimilarity.
  rewrite (newSet_length_ext (wordSet c1 ++ wordSet c2) (wordSet c2 ++ wordSet c1))
    by (intros x; rewrite !in_app_iff; tauto).
  rewrite (newSet_length_ext (List.filter (fun x => has (wordSet c2) x) (wordSet c1))
                             (List.filter (fun x => has (wordSet c1) x) (wordSet c2)))
    by (intros x; rewrite !filter_In, !has_In; tauto).
  reflexivity.
Qed.

Lemma Zpos_of_nat n : (0 < n)%nat -> Z.pos (Pos.of_nat n) = Z.of_nat n.
Proof. intros H. rewrite <- positive_nat_Z, Nat2Pos.id by lia. reflexivity. Qed.

(** A content with at least one word is a near-duplicate of itself. *)
Lemma similarity_self c :
  wordSet c <> [] ->
  Js.gtQ (_calculateContentSimilarity c c) (9 # 10) = true.
Proof.
  intros Hne. unfold _calculateContentSimilarity.
  rewrite (newSet_length_ext (wordSet c ++ wordSet c) (wordSet c))
    by (intros x; rewrite in_app_iff; tauto).
  rewrite (filter_all (fun x => has (wordSet c) x)) by (intros a Ha; by apply has_In).
  assert (Js.newSet (wordSet c) = wordSet c) as ->
    by (rewrite newSet_firstSeen; apply firstSeen_NoDup, NoDup_newSet).
  destruct (wordSet c) as [|w ws]; [congruence|].
  set (n := length (w :: ws)). assert (0 < n)%nat as Hn by (unfold n; simpl; lia).
  assert ((0 <? n)%nat = true) as -> by (apply Nat.ltb_lt; assumption).
  unfold Js.gtQ, Qle_bool. simpl Qnum. simpl Qden.
  apply negb_true_iff, Z.leb_gt. rewrite Zpos_of_nat by assumption. lia.
Qed.

Lemma gtQ_spec a b : Js.gtQ a b = true <-> (b < a)%Q.
Proof.
  unfold Js.gtQ. rewrite negb_true_iff. split.
  - intros H. apply Qnot_le_lt. intros L. apply Qle_bool_iff in L. congruence.
  - intros H. destruct (Qle_bool a b) eqn:E; [|reflexivity].
    apply Qle_bool_iff in E. exfalso. by apply (Qlt_not_le b a).
Qed.

Lemma isDuplicate_spec kept r :
  isDuplicate kept r = true <-> exists e, In e kept /\ Spec.nearDuplicate r e.
Proof.
  unfold isDuplicate, Spec.nearDuplicate. rewrite existsb_exists.
  split; intros (e & He & H); exists e; (split; [assumption|]); by apply gtQ_spec.
Qed.

Lemma isDuplicate_false kept r :
  isDuplicate kept r = false <-> forall e, In e kept -> ~ Spec.nearDuplicate r e.
Proof.
  split.
  - intros H e He N. assert (isDuplicate kept r = true) by (apply isDuplicate_spec; eauto).
    congruence.
  - intros H. destruct (isDuplicate kept r) eqn:E; [|reflexivity].
    apply isDuplicate_spec in E as (e & He & N). exfalso. by apply (H e).
Qed.

Lemma dedup_fold l : _deduplicateResults l = fold_left keepUnique l [].
Proof.
  unfold _deduplicateResults. destruct l as [|a [|b l]]; reflexivity.
Qed.

Lemma keepUnique_extends l kept :
  exists rest, fold_left keepUnique l kept = kept ++ rest /\ sublist rest l.
Proof.
  revert kept. induction l as [|r l IH]; intros kept; simpl.
  - exists []. by rewrite app_nil_r.
  - unfold keepUnique at 2. destruct (isDuplicate kept r).
    + destruct (IH kept) as (rest & E & S). exists rest. split; [assumption|by constructor].
    + destruct (IH (kept ++ [r])) as (rest & E & S). exists (r :: rest).
      split; [by rewrite E, <- app_assoc|by constructor].
Qed.

Lemma dedup_sublist l : sublist (_deduplicateResults l) l.
Proof.
  rewrite dedup_fold. destruct (keepUnique_extends l []) as (rest & -> & S). exact S.
Qed.

Lemma dedup_desc l :
  Spec.descending Raw.similarity_score l ->
  Spec.descending Raw.similarity_score (_deduplicateResults l).
Proof. apply desc_sublist, dedup_sublist. Qed.

(** A result that is kept follows the results kept before it. *)
Lemma dedup_keeps pre r post :
  isDuplicate (_deduplicateResults pre) r = false ->
  exists rest,
    _deduplicateResults (pre ++ r :: post) = _deduplicateResults pre ++ r :: rest.
Proof.
  intros H. rewrite !dedup_fold in *. rewrite fold_left_app. simpl.
  unfold keepUnique at 2. rewrite H.
  destruct (keepUnique_extends post (fold_left keepUnique pre [] ++ [r])) as (rest & -> & _).
  exists rest. by rewrite <- app_assoc.
Qed.

(** A result that is dropped leaves no trace. *)
Lemma dedup_drops pre r post :
  isDuplicate (_deduplicateResults pre) r = true ->
  _deduplicateResults (pre ++ r :: post) = _deduplicateResults (pre ++ post).
Proof.
  intros H. rewrite !dedup_fold in *. rewrite !fold_left_app. simpl.
  unfold keepUnique at 2. by rewrite H.
Qed.

(** *** The similarity is the Jaccard index of the lowercase word sets *)

Lemma In_wordSet c w : In w (wordSet c) <-> Spec.lowercaseWord c w.
Proof.
  unfold wordSet, Spec.lowercaseWord, Spec.word. rewrite In_newSet. apply In_runs.
Qed.

Lemma cardinal_unique (P : string -> Prop) n m :
  Spec.cardinal P n -> Spec.cardinal P m -> n = m.
Proof.
  intros (l & Nl & Hl & <-) (l' & Nl' & Hl' & <-).
  apply Permutation_length, Permutation.NoDup_Permutation; try assumption.
  intros x. by rewrite Hl, Hl'.
Qed.

Lemma similarity_jaccard c1 c2 : Spec.jaccard c1 c2 (_calculateContentSimilarity c1 c2).
Proof.
  unfold _calculateContentSimilarity.
  set (intersection := Js.newSet (List.filter (fun x => has (wordSet c2) x) (wordSet c1))).
  set (union := Js.newSet (wordSet c1 ++ wordSet c2)).
  exists (length intersection), (length union). split; [|split].
  - exists intersection. split; [apply NoDup_newSet|]. split; [|reflexivity].
    intros w. unfold intersection. by rewrite In_newSet, filter_In, has_In, !In_wordSet.
  - exists union. split; [apply NoDup_newSet|]. split; [|reflexivity].
    intros w. unfold union. by rewrite In_newSet, in_app_iff, !In_wordSet.
  - by destruct (length union).
Qed.

Lemma jaccard_unique c1 c2 j :
  Spec.jaccard c1 c2 j -> j = _calculateContentSimilarity c1 c2.
Proof.
  intros (i & u & Hi & Hu & ->).
  destruct (similarity_jaccard c1 c2) as (i' & u' & Hi' & Hu' & ->).
  by rewrite (cardinal_unique _ _ _ Hi Hi'), (cardinal_unique _ _ _ Hu Hu').
Qed.

Lemma tooSimilar_nearDuplicate r e : Spec.tooSimilar r e <-> Spec.nearDuplicate r e.
Proof.
  unfold Spec.tooSimilar, Spec.nearDuplicate. split.
  - intros (j & Hj & H). by rewrite <- (jaccard_unique _ _ _ Hj).
  - intros H. eexists. split; [apply similarity_jaccard|exact H].
Qed.

Lemma sortDesc_pair r1 r2 :
  Js.sortDesc Raw.similarity_score [r1; r2] = [r1; r2] \/
  Js.sortDesc Raw.similarity_score [r1; r2] = [r2; r1].
Proof.
  simpl. destruct (Qle_bool _ _); tauto.
Qed.

Lemma dedup_pair a b :
  _deduplicateResults [a; b] =
  if Js.gtQ (_calculateContentSimilarity (Raw.content b) (Raw.content a)) (9 # 10)
  then [a] else [a; b].
Proof.
  unfold _deduplicateResults. simpl. unfold keepUnique, isDuplicate. simpl.
  rewrite orb_false_r. reflexivity.
Qed.

Lemma mapIndexFrom_length {B C} (f : B -> nat -> C) i (l : list B) :
  length (Js.mapIndexFrom f i l) = length l.
Proof. revert i. induction l; intros i; simpl; auto. Qed.

Lemma group_pair_length a b : length (groupOwn [a; b]) = 2%nat.
Proof.
  unfold groupOwn, limit. cbn [length Nat.leb].
  rewrite (Permutation_length (sortDesc_Permutation _ _)).
  rewrite (Permutation_length (Permutation_flat_map _ (entries_Permutation _))).
  unfold groupsOwn. simpl. destruct (String.eqb (docId a) (docId b)); reflexivity.
Qed.

Lemma format_length l q :
  length (formatOwn l q) =
  length (groupOwn (_deduplicateResults (Js.sortDesc Raw.similarity_score l))).
Proof.
  unfold formatOwn. destruct l as [|a l]; [reflexivity|].
  cbn [length Nat.eqb]. apply mapIndexFrom_length.
Qed.

End DedupFacts.

(** C3 (as amended).  The similarity that deduplication compares is the
    Jaccard similarity of the sets of lowercase words of the two
    contents.  Deduplication walks the sorted sequence and keeps a result
    exactly when none of the results kept before it has a similarity
    with it strictly greater than 0.9.  Of two results with the same
    content, which has at least one word, exactly one is kept, and the
    curated output has one entry; two results whose similarity is at
    most 0.9, such as two that share half of their words, are both kept,
    and the curated output, whenever curation returns one, has two
    entries; it does return one when neither document key is a name of
    [Object.prototype]. *)
Theorem dedup_keeps_unless_near_duplicate :
  forall (pre post : list Raw.Result) (r r1 r2 : Raw.Result) (query : string),
    (forall c1 c2,
       Spec.jaccard c1 c2 (QueryProcessor._calculateContentSimilarity c1 c2) /\
       forall j, Spec.jaccard c1 c2 j ->
                 j = QueryProcessor._calculateContentSimilarity c1 c2) /\
    ((forall e, In e (QueryProcessor._deduplicateResults pre) -> ~ Spec.tooSimilar r e) ->
     exists rest,
       QueryProcessor._deduplicateResults (pre ++ r :: post) =
       QueryProcessor._deduplicateResults pre ++ r :: rest) /\
    ((exists e, In e (QueryProcessor._deduplicateResults pre) /\ Spec.tooSimilar r e) ->
     QueryProcessor._deduplicateResults (pre ++ r :: post) =
     QueryProcessor._deduplicateResults (pre ++ post)) /\
    (Raw.content r1 = Raw.content r2 ->
     (exists w, Spec.lowercaseWord (Raw.content r1) w) ->
     length (QueryProcessor._deduplicateResults (Js.sortDesc Raw.similarity_score [r1; r2])) =
       1%nat /\
     exists c, QueryProcessor.formatResultsWithCitations [r1; r2] query = Js.Normal [c]) /\
    ((exists j, Spec.jaccard (Raw.content r1) (Raw.content r2) j /\ (j <= 9 # 10)%Q) ->
     QueryProcessor._deduplicateResults (Js.sortDesc Raw.similarity_score [r1; r2]) =
     Js.sortDesc Raw.similarity_score [r1; r2] /\
     (forall out,
        QueryProcessor.formatResultsWithCitations [r1; r2] query = Js.Normal out ->
        length out = 2%nat) /\
     (Js.inherited (Spec.documentKey r1) = false ->
      Js.inherited (Spec.documentKey r2) = false ->
      exists c1 c2,
        QueryProcessor.formatResultsWithCitations [r1; r2] query = Js.Normal [c1; c2])).
Proof.
  intros pre post r r1 r2 query.
  split; [intros c1 c2; split; [apply similarity_jaccard|apply jaccard_unique]|].
  split.
  { intros H. apply dedup_keeps, isDuplicate_false.
    intros e He N. apply (H e He). by apply tooSimilar_nearDuplicate. }
  split.
  { intros (e & He & N). apply dedup_drops, isDuplicate_spec.
    exists e. split; [exact He|]. by apply tooSimilar_nearDuplicate. }
  split.
  - intros Ec (w & Hw).
    assert (QueryProcessor.wordSet (Raw.content r1) <> []) as Hne.
    { apply In_wordSet in Hw. intros E. rewrite E in Hw. destruct Hw. }
    assert (forall a b, Raw.content a = Raw.content b ->
                        QueryProcessor.wordSet (Raw.content a) <> [] ->
                        QueryProcessor._deduplicateResults [a; b] = [a]) as Hd.
    { intros a b E W. rewrite dedup_pair, <- E, similarity_self; auto. }
    assert (exists a, QueryProcessor._deduplicateResults
                        (Js.sortDesc Raw.similarity_score [r1; r2]) = [a]) as (a & Ea).
    { destruct (sortDesc_pair r1 r2) as [-> | ->]; eexists; apply Hd;
        rewrite <- ?Ec; auto. }
    split; [by rewrite Ea|].
    pose proof (format_length [r1; r2] query) as Hlen.
    rewrite format_spec. cbv zeta. rewrite Ea in *. cbn [length Nat.leb orb].
    unfold QueryProcessor.groupOwn in Hlen. cbn [length Nat.leb] in Hlen.
    destruct (QueryProcessor.formatOwn [r1; r2] query) as [|c [|c' out]];
      try discriminate Hlen.
    by exists c.
  - intros (j & Hj & Hle).
    apply jaccard_unique in Hj. subst j.
    assert (forall a b,
              (QueryProcessor._calculateContentSimilarity (Raw.content b) (Raw.content a)
               <= 9 # 10)%Q ->
              QueryProcessor._deduplicateResults [a; b] = [a; b]) as Hd.
    { intros a b E. rewrite dedup_pair.
      destruct (Js.gtQ _ _) eqn:G; [|reflexivity].
      apply gtQ_spec in G. exfalso. by apply (Qlt_not_le _ _ G). }
    assert (exists a b,
              Js.sortDesc Raw.similarity_score [r1; r2] = [a; b] /\
              QueryProcessor._deduplicateResults [a; b] = [a; b] /\
              (a = r1 /\ b = r2 \/ a = r2 /\ b = r1)) as (a & b & Es & Ed & Hab).
    { destruct (sortDesc_pair r1 r2) as [E | E]; rewrite E.
      - exists r1, r2. split; [reflexivity|]. split; [|tauto].
        apply Hd. by rewrite similarity_sym.
      - exists r2, r1. split; [reflexivity|]. split; [|tauto]. by apply Hd. }
    rewrite Es, Ed. split; [reflexivity|].
    pose proof (format_length [r1; r2] query) as Hlen.
    rewrite Es, Ed, group_pair_length in Hlen.
    rewrite format_spec. cbv zeta. rewrite Es, Ed. cbn [length Nat.leb orb].
    split.
    + intros out. destruct (QueryProcessor.keysAreOwn [a; b]); [|discriminate].
      intros [= <-]. exact Hlen.
    + intros K1 K2.
      assert (QueryProcessor.keysAreOwn [a; b] = true) as ->.
      { apply keysAreOwn_spec. intros x Hx. rewrite docId_documentKey.
        destruct Hab as [[-> ->]|[-> ->]]; destruct Hx as [<-|[<-|[]]]; assumption. }
      destruct (QueryProcessor.formatOwn [r1; r2] query) as [|c1 [|c2 [|c3 out]]];
        try discriminate Hlen.
      by exists c1, c2.
Qed.

(** C3, as stated, fails for identical contents without a word: the
    similarity of two empty word sets is 0, so both results are kept. *)
Lemma dedup_identical_wordless_counterexample :
  let r1 := Sample.result "c1" "---" (9 # 10) "d1" in
  let r2 := Sample.result "c2" "---" (8 # 10) "d2" in
  Raw.content r1 = Raw.content r2 /\
  QueryProcessor._deduplicateResults (Js.sortDesc Raw.similarity_score [r1; r2]) = [r1; r2] /\
  exists c1 c2,
    QueryProcessor.formatResultsWithCitations [r1; r2] "separator" = Js.Normal [c1; c2].
Proof. vm_compute. repeat split. eexists _, _. reflexivity. Qed.

Lemma dedup_keeps_unless_near_duplicate_witness :
  let a := Sample.result "c1" "Restart the server" (9 # 10) "d1" in
  let b := Sample.result "c2" "Restart the server" (8 # 10) "d2" in
  let c := Sample.result "c3" "the server crashed" (7 # 10) "d3" in
  QueryProcessor._deduplicateResults ([a] ++ b :: [c]) =
  QueryProcessor._deduplicateResults ([a] ++ [c]) /\
  (exists x, QueryProcessor.formatResultsWithCitations [a; b] "restart" = Js.Normal [x]) /\
  (exists x y, QueryProcessor.formatResultsWithCitations [a; c] "restart" = Js.Normal [x; y]).
Proof.
  intros a b c.
  destruct (dedup_keeps_unless_near_duplicate [a] [c] b a b "restart")
    as (Hj & _ & Hdrop & Hsame & _).
  destruct (dedup_keeps_unless_near_duplicate [a] [c] b a c "restart")
    as (_ & _ & _ & _ & Hhalf).
  split; [|split].
  - apply Hdrop. exists a. split; [by left|].
    eexists. split; [apply Hj|]. vm_compute. reflexivity.
  - apply Hsame; [reflexivity|]. exists "restart".
    exists EmptyString, " the server". vm_compute.
    split; [reflexivity|]. split; [discriminate|].
    split; [|split; [intros [|x b'] y E; discriminate E|by intros y z [= <- <-]]].
    intros y Hy. repeat (destruct Hy as [<-|Hy]; [reflexivity|]). destruct Hy.
  - apply Hhalf; [|reflexivity|reflexivity].
    eexists. split; [apply Hj|]. vm_compute. discriminate.
Defined.

(** ** Grouping, ranking and citations *)

Lemma docId_of_document_id r d :
  Raw.result_document_id r = Some d -> d <> EmptyString -> QueryProcessor.docId r = d.
Proof.
  intros E Hd. unfold QueryProcessor.docId. rewrite E. simpl.
  destruct (String.eqb_spec d EmptyString) as [|_]; [contradiction|]. simpl.
  destruct (String.eqb_spec d EmptyString) as [|_]; [contradiction|]. reflexivity.
Qed.

(** C4.  On a sequence sorted by descending score, as deduplication leaves
    it, grouping returns whenever no document key (the [document_id],
    else [metadata.source], else "unknown") is a name of
    [Object.prototype], and what it returns keeps of every document key
    the first two results of that document, that is its two best, and no
    more than two; what it keeps comes from the input and is sorted by
    descending score again.  Five results that share one [document_id]
    that is no such name, with descending scores such as 0.9, 0.8, 0.7,
    0.6 and 0.5, leave exactly the first two, those with scores 0.9 and
    0.8.  Five results of the document [constructor] with these scores
    leave nothing: grouping, and curation with it, throws a
    [TypeError]. *)
Theorem group_caps_two_per_document :
  (forall raw,
     Spec.descending Raw.similarity_score
       (QueryProcessor._deduplicateResults (Js.sortDesc Raw.similarity_score raw))) /\
  (forall results,
     Spec.descending Raw.similarity_score results ->
     ((forall r, In r results -> Js.inherited (Spec.documentKey r) = false) ->
      exists out, QueryProcessor._groupResultsByDocument results = Js.Normal out) /\
     (forall out,
        QueryProcessor._groupResultsByDocument results = Js.Normal out ->
        (forall k, Spec.ofDocument k out = firstn 2 (Spec.ofDocument k results)) /\
        (forall k, (length (Spec.ofDocument k out) <= 2)%nat) /\
        (forall r, In r out -> In r results) /\
        Spec.descending Raw.similarity_score out)) /\
  (forall r1 r2 r3 r4 r5 d,
     d <> EmptyString ->
     Js.inherited d = false ->
     Forall (fun r => Raw.result_document_id r = Some d) [r1; r2; r3; r4; r5] ->
     Spec.descending Raw.similarity_score [r1; r2; r3; r4; r5] ->
     QueryProcessor._groupResultsByDocument [r1; r2; r3; r4; r5] = Js.Normal [r1; r2]) /\
  (map Spec.documentKey Sample.fiveOfConstructor =
     ["constructor"; "constructor"; "constructor"; "constructor"; "constructor"] /\
   map Raw.similarity_score Sample.fiveOfConstructor =
     [9 # 10; 8 # 10; 7 # 10; 6 # 10; 5 # 10] /\
   QueryProcessor._deduplicateResults
     (Js.sortDesc Raw.similarity_score Sample.fiveOfConstructor) =
     Sample.fiveOfConstructor /\
   QueryProcessor._groupResultsByDocument Sample.fiveOfConstructor =
     Js.TypeError "documentGroups[docId].push is not a function" /\
   QueryProcessor.formatResultsWithCitations Sample.fiveOfConstructor "install" =
     Js.TypeError "documentGroups[docId].push is not a function").
Proof.
  assert (forall results,
            Spec.descending Raw.similarity_score results ->
            forall k, QueryProcessor.keyed k (QueryProcessor.groupOwn results) =
                      firstn 2 (QueryProcessor.keyed k results)) as Hcap.
  { intros results Hd k. rewrite group_ofDocument. apply sortDesc_id.
    eapply desc_sublist; [apply sublist_take|]. by apply desc_filter. }
  split; [intros raw; apply dedup_desc, sortDesc_desc|].
  split; [|split].
  - intros results Hd. rewrite group_spec. split.
    + intros Hown.
      assert (QueryProcessor.keysAreOwn results = true) as ->
        by (apply keysAreOwn_spec; intros r Hr; rewrite docId_documentKey; by apply Hown).
      rewrite orb_true_r. by eexists.
    + intros out. destruct (_ || _); [|discriminate]. intros [= <-].
      split; [intros k; rewrite <- !keyed_ofDocument; by apply Hcap|].
      split; [intros k; rewrite <- keyed_ofDocument, Hcap by assumption;
              apply firstn_le_length|].
      split; [apply In_group|apply group_desc].
  - intros r1 r2 r3 r4 r5 d Hd Hown Hdoc Hsorted.
    set (results := [r1; r2; r3; r4; r5]) in *.
    assert (forall r, In r results -> QueryProcessor.docId r = d) as Hkey.
    { intros r Hr. apply docId_of_document_id; [|assumption].
      rewrite List.Forall_forall in Hdoc. by apply Hdoc. }
    rewrite group_spec.
    assert (QueryProcessor.keysAreOwn results = true) as ->
      by (apply keysAreOwn_spec; intros r Hr; by rewrite (Hkey r Hr)).
    rewrite orb_true_r. f_equal.
    rewrite <- (ofDocument_all d (QueryProcessor.groupOwn results))
      by (intros r Hr; apply Hkey, In_group, Hr).
    rewrite Hcap by assumption. by rewrite (ofDocument_all d results).
  - vm_compute. repeat split.
Qed.

Lemma group_caps_two_per_document_witness :
  map Raw.similarity_score Sample.fiveOfOne = [9 # 10; 8 # 10; 7 # 10; 6 # 10; 5 # 10] /\
  QueryProcessor._groupResultsByDocument Sample.fiveOfOne =
  Js.Normal [Sample.result "c1" "install the package" (9 # 10) "guide";
             Sample.result "c2" "configure the server" (8 # 10) "guide"].
Proof.
  split; [reflexivity|].
  refine (proj1 (proj2 (proj2 group_caps_two_per_document)) _ _ _ _ _ "guide" _ _ _ _).
  - discriminate.
  - reflexivity.
  - repeat constructor.
  - repeat (apply desc_cons; split;
            [intros a Ha; simpl in Ha;
             repeat (destruct Ha as [<-|Ha]; [discriminate|]); destruct Ha|]).
    apply desc_nil.
Defined.

Section RankFacts.

Import QueryProcessor.





Lemma format_mapIndex l q :
  formatOwn l q =
  Js.mapIndex (annotate q)
    (groupOwn (_deduplicateResults (Js.sortDesc Raw.similarity_score l))).
Proof.
  unfold formatOwn. destruct l as [|a l]; reflexivity.
Qed.



End RankFacts.



(** ** The quality gate *)

Section GateFacts.

Import RAGController.

Lemma fold_max_spec l x :
  let m := fold_left (fun m y => if Qle_bool m y then y else m) l x in
  In m (x :: l) /\ forall y, In y (x :: l) -> (y <= m)%Q.
Proof.
  revert x. induction l as [|z l IH]; intros x; simpl.
  - split; [by left|]. intros y [<-|[]]. apply Qle_refl.
  - destruct (IH (if Qle_bool x z then z else x)) as [Hin Hmax]. simpl in *.
    split.
    + destruct Hin as [E|Hin]; [|tauto]. rewrite <- E.
      destruct (Qle_bool x z); tauto.
    + assert (x <= (if Qle_bool x z then z else x) /\ z <= (if Qle_bool x z then z else x))%Q
        as [Hx Hz].
      { destruct (Qle_bool x z) eqn:E.
        - apply Qle_bool_iff in E. split; [assumption|apply Qle_refl].
        - split; [apply Qle_refl|]. apply Qlt_le_weak, Qnot_le_lt.
          intros L. apply Qle_bool_iff in L. congruence. }
      intros y [<-|[<-|Hy]].
      * eapply Qle_trans; [exact Hx|]. apply Hmax. by left.
      * eapply Qle_trans; [exact Hz|]. apply Hmax. by left.
      * apply Hmax. by right.
Qed.

Lemma maxOf_isMaximum x l :
  exists m, Js.maxOf (x :: l) = Js.Fin m /\ Spec.isMaximum m (x :: l).
Proof.
  eexists. split; [reflexivity|].
  destruct (fold_max_spec l x) as [Hin Hmax].
  split; [|exact Hmax]. eexists. split; [exact Hin|reflexivity].
Qed.

Lemma isMaximum_unique m m' l :
  Spec.isMaximum m l -> Spec.isMaximum m' l -> (m == m')%Q.
Proof.
  intros [(x & Hx & Ex) Hm] [(x' & Hx' & Ex') Hm'].
  apply Qle_antisym.
  - rewrite <- Ex. by apply Hm'.
  - rewrite <- Ex'. by apply Hm.
Qed.

Lemma Qle_bool_proper a a' b b' :
  (a == a')%Q -> (b == b')%Q -> Qle_bool a b = Qle_bool a' b'.
Proof.
  intros Ea Eb. destruct (Qle_bool a b) eqn:E, (Qle_bool a' b') eqn:E'; try reflexivity.
  - apply Qle_bool_iff in E. rewrite Ea, Eb in E. apply Qle_bool_iff in E. congruence.
  - apply Qle_bool_iff in E'. rewrite <- Ea, <- Eb in E'. apply Qle_bool_iff in E'. congruence.
Qed.

Lemma ltQ_spec a b : Js.ltQ a b = true <-> (a < b)%Q.
Proof. apply (gtQ_spec b a). Qed.

(** Printing depends on the value of a number only. *)
Lemma toFixed3Q_proper x y : (x == y)%Q -> Js.toFixed3Q x = Js.toFixed3Q y.
Proof.
  intros E. unfold Js.toFixed3Q, Js.ltQ.
  rewrite (Qle_bool_proper 0 0 x y) by (assumption || reflexivity).
  assert (Qfloor (Qabs x * 1000 + (1 # 2)) = Qfloor (Qabs y * 1000 + (1 # 2))) as ->
    by (apply Qfloor_comp; rewrite E; reflexivity).
  reflexivity.
Qed.

Lemma addValue_extends l acc :
  (length acc <= length (fold_left Js.addValue l acc))%nat.
Proof.
  revert acc. induction l as [|x l IH]; intros acc; simpl; [lia|].
  etransitivity; [|apply IH]. unfold Js.addValue.
  destruct (existsb _ acc); [lia|]. rewrite length_app. lia.
Qed.

Lemma sameValue_eq a b : Js.sameValue a b = true <-> a = b.
Proof.
  destruct a as [x|], b as [y|]; simpl; try (split; congruence).
  rewrite String.eqb_eq. split; congruence.
Qed.

Lemma existsb_sameValue x acc : existsb (Js.sameValue x) acc = true <-> In x acc.
Proof.
  rewrite existsb_exists. split.
  - intros (y & Hy & E). apply sameValue_eq in E. by subst.
  - intros H. exists x. split; [assumption|by apply sameValue_eq].
Qed.

Lemma addValue_spec l acc :
  List.NoDup acc ->
  List.NoDup (fold_left Js.addValue l acc) /\
  forall x, In x (fold_left Js.addValue l acc) <-> In x acc \/ In x l.
Proof.
  revert acc. induction l as [|y l IH]; intros acc H; simpl.
  - split; [assumption|]. tauto.
  - unfold Js.addValue at 2 4. destruct (existsb (Js.sameValue y) acc) eqn:E.
    + apply existsb_sameValue in E. destruct (IH acc H) as [Hn Hin].
      split; [assumption|]. intros x. rewrite Hin. intuition congruence.
    + assert (~ In y acc) as Hy by (rewrite <- existsb_sameValue; congruence).
      destruct (IH (acc ++ [y])) as [Hn Hin].
      { apply List.NoDup_app; [assumption| |].
        - constructor; [intros []|constructor].
        - intros a Ha [<-|[]]. contradiction. }
      split; [assumption|]. intros x. rewrite Hin, in_app_iff. simpl. tauto.
Qed.

Lemma newSetOfValues_count l :
  Spec.distinctCount l (length (Js.newSetOfValues l)).
Proof.
  destruct (addValue_spec l []) as [Hn Hin]; [constructor|].
  exists (Js.newSetOfValues l). split; [assumption|]. split; [|reflexivity].
  intros x. unfold Js.newSetOfValues. rewrite Hin. simpl. tauto.
Qed.

Lemma newSetOfValues_nonempty x l : (1 <= length (Js.newSetOfValues (x :: l)))%nat.
Proof.
  unfold Js.newSetOfValues. simpl.
  etransitivity; [|apply addValue_extends]. simpl. lia.
Qed.

Lemma scores_formatted l : map score (map formatResult l) = map Raw.similarity_score l.
Proof. rewrite map_map. reflexivity. Qed.

(** The verdict on a sequence that is not empty, by its greatest score. *)
Lemma validate_nonempty r rs m :
  let raw := r :: rs in
  let formatted := map formatResult raw in
  let n := length (Js.newSetOfValues (map Spec.gateDocument formatted)) in
  Spec.isMaximum m (map Raw.similarity_score raw) ->
  _validateRetrievalQuality raw formatted =
  if Js.ltQ m (1 # 10) then
    {| isValid := false;
       reason := "Maximum similarity score (" +:+ Js.toFixed3Q m +:+
                 ") below minimum threshold (0.1)";
       details := "Best match score: " +:+ Js.toFixed3Q m +:+ ", threshold: 0.1" |}
  else
    {| isValid := true;
       reason := "All quality checks passed";
       details := "Max similarity: " +:+ Js.toFixed3Q m +:+ ", Unique docs: " +:+
                  Js.decimal (N.of_nat n) |}.
Proof.
  intros raw formatted n Hm. subst n formatted raw.
  unfold _validateRetrievalQuality. cbn [length Nat.eqb].
  rewrite scores_formatted.
  destruct (maxOf_isMaximum (Raw.similarity_score r) (map Raw.similarity_score rs))
    as (m0 & E & Hm0).
  change (Raw.similarity_score r :: map Raw.similarity_score rs)
    with (map Raw.similarity_score (r :: rs)) in *.
  rewrite E. cbn [Js.lt Js.toFixed3].
  pose proof (isMaximum_unique m0 m _ Hm0 Hm) as Em.
  unfold MIN_SIMILARITY_THRESHOLD, Js.ltQ.
  rewrite (Qle_bool_proper (1 # 10) (1 # 10) m0 m) by (assumption || reflexivity).
  rewrite (toFixed3Q_proper m0 m Em).
  destruct (negb (Qle_bool (1 # 10) m)); [reflexivity|].
  match goal with
  | |- context [(?k <? MIN_UNIQUE_DOCUMENTS)%nat] =>
      assert ((k <? MIN_UNIQUE_DOCUMENTS)%nat = false) as ->
        by (apply Nat.ltb_ge, (newSetOfValues_nonempty _ _))
  end.
  reflexivity.
Qed.

End GateFacts.

(** C2 (as amended).  The quality gate, on the results of the backend and
    their formatted form: an empty sequence is invalid, with the reason
    "No relevant documents found" and details that report 0 results; a
    sequence whose greatest score is below 0.1 is invalid, with a reason
    that names that score, printed with three decimals, and the threshold
    0.1; any other sequence is valid, it has at least one distinct
    source_file-or-document_id value, and the details report the greatest
    score and the number of those values. *)
Theorem quality_gate_verdicts :
  forall rawResults m,
    let formatted := map RAGController.formatResult rawResults in
    let verdict := RAGController._validateRetrievalQuality rawResults formatted in
    (rawResults = [] ->
     RAGController.isValid verdict = false /\
     RAGController.reason verdict = "No relevant documents found" /\
     RAGController.details verdict = "Retrieved 0 results from vector store") /\
    (Spec.isMaximum m (map Raw.similarity_score rawResults) -> (m < 1 # 10)%Q ->
     RAGController.isValid verdict = false /\
     RAGController.reason verdict =
       ("Maximum similarity score (" +:+ Js.toFixed3Q m +:+
        ") below minimum threshold (0.1)")%string) /\
    (Spec.isMaximum m (map Raw.similarity_score rawResults) -> (1 # 10 <= m)%Q ->
     RAGController.isValid verdict = true /\
     exists n,
       Spec.distinctCount (map Spec.gateDocument formatted) n /\ (1 <= n)%nat /\
       RAGController.details verdict =
         ("Max similarity: " +:+ Js.toFixed3Q m +:+ ", Unique docs: " +:+
          Js.decimal (N.of_nat n))%string).
Proof.
  intros rawResults m formatted verdict.
  split; [intros ->; repeat split|].
  split.
  - intros Hm Hlt. destruct rawResults as [|r rs]; [destruct Hm as [(x & [] & _) _]|].
    unfold verdict, formatted. rewrite (validate_nonempty r rs m Hm).
    apply ltQ_spec in Hlt. rewrite Hlt. split; reflexivity.
  - intros Hm Hge. destruct rawResults as [|r rs]; [destruct Hm as [(x & [] & _) _]|].
    unfold verdict, formatted. rewrite (validate_nonempty r rs m Hm).
    assert (Js.ltQ m (1 # 10) = false) as ->.
    { destruct (Js.ltQ m (1 # 10)) eqn:E; [|reflexivity].
      apply ltQ_spec in E. exfalso. by apply (Qlt_not_le m (1 # 10)). }
    split; [reflexivity|]. eexists. split; [apply newSetOfValues_count|].
    split; [apply newSetOfValues_nonempty|reflexivity].
Qed.

(** C2, as stated, fails on the empty sequence: the reason of the verdict
    does not mention "no results", in any letter case. *)
Lemma quality_gate_reason_counterexample :
  let verdict := RAGController._validateRetrievalQuality [] (map RAGController.formatResult []) in
  RAGController.isValid verdict = false /\
  RAGController.reason verdict = "No relevant documents found" /\
  Js.includes (Js.toLowerCase (RAGController.reason verdict)) "no results" = false.
Proof. vm_compute. repeat split. Qed.

Lemma quality_gate_verdicts_witness :
  let low := Sample.result "c1" "alpha" (1 # 16) "d1" in
  let good := Sample.result "c1" "alpha" (1 # 2) "d1" in
  RAGController.reason
    (RAGController._validateRetrievalQuality [low] (map RAGController.formatResult [low])) =
  "Maximum similarity score (0.063) below minimum threshold (0.1)" /\
  RAGController.isValid
    (RAGController._validateRetrievalQuality [good] (map RAGController.formatResult [good])) =
  true /\
  RAGController.isValid
    (RAGController._validateRetrievalQuality [] (map RAGController.formatResult [])) = false.
Proof.
  intros low good.
  destruct (quality_gate_verdicts [low] (1 # 16)) as (_ & Hlow & _).
  destruct (quality_gate_verdicts [good] (1 # 2)) as (_ & _ & Hgood).
  destruct (quality_gate_verdicts [] 0) as (Hempty & _).
  split; [|split].
  - apply Hlow; [|reflexivity].
    split; [exists (1 # 16); split; [by left|reflexivity]|].
    intros y [<-|[]]. apply Qle_refl.
  - apply Hgood; [|discriminate].
    split; [exists (1 # 2); split; [by left|reflexivity]|].
    intros y [<-|[]]. apply Qle_refl.
  - by apply Hempty.
Defined.

(** ** The handlers *)

Section HandlerFacts.

Import RAGController.

Lemma next_handle_set {T} key (v : Js.value T) ttl s :
  CacheService.next_handle (CacheService._setCacheWithExpiration key v ttl s) =
  S (CacheService.next_handle s).
Proof.
  unfold CacheService._setCacheWithExpiration, CacheService._clearExpired. simpl.
  destruct (CacheService.cacheTimeouts s !! key); reflexivity.
Qed.

Lemma memoryCache_set {T} key (v : Js.value T) ttl s :
  CacheService.memoryCache (CacheService._setCacheWithExpiration key v ttl s) !! key = Some v.
Proof.
  unfold CacheService._setCacheWithExpiration. simpl. apply lookup_insert_eq.
Qed.

Lemma next_handle_elapse {T} dt (s : CacheService.state T) :
  CacheService.next_handle (CacheService.elapse dt s) = CacheService.next_handle s.
Proof.
  unfold CacheService.elapse.
  match goal with
  | |- CacheService.next_handle (fold_left _ ?l ?s0) = _ =>
      destruct (expire_all_spec l s0) as (_ & E & _)
  end.
  exact E.
Qed.

Lemma next_handle_clearExpired {T} key (s : CacheService.state T) :
  CacheService.next_handle (CacheService._clearExpired key s) = CacheService.next_handle s.
Proof.
  unfold CacheService._clearExpired. destruct (CacheService.cacheTimeouts s !! key); reflexivity.
Qed.

(** Only a write hands out a timer handle, and it hands out one. *)
Lemma cacheWrites_step {T} (o : CacheService.op T) s :
  Spec.cacheWrites s (CacheService.step o s) =
  match o with CacheService.OpSet _ _ _ => 1%nat | _ => 0%nat end.
Proof.
  unfold Spec.cacheWrites. destruct o as [key v ttl|key|key|dt]; cbn [CacheService.step].
  - rewrite next_handle_set. lia.
  - unfold CacheService._deleteCache. cbn [snd CacheService.next_handle].
    rewrite next_handle_clearExpired. lia.
  - lia.
  - rewrite next_handle_elapse. lia.
Qed.

Lemma cacheWrites_same {T} (s : CacheService.state T) : Spec.cacheWrites s s = 0%nat.
Proof. unfold Spec.cacheWrites. lia. Qed.

Lemma cacheWrites_elapse {T} dt (s : CacheService.state T) :
  Spec.cacheWrites s (CacheService.elapse dt s) = 0%nat.
Proof. unfold Spec.cacheWrites. rewrite next_handle_elapse. lia. Qed.

Lemma cacheWrites_cacheResult key response ttl dt w :
  Spec.cacheWrites (cache w) (cache (cacheResult key response ttl (await dt w))) = 1%nat.
Proof.
  unfold Spec.cacheWrites, cacheResult, await, CacheService.cacheResult. cbn [cache snd].
  rewrite next_handle_set, next_handle_elapse. lia.
Qed.

(** Recording a query leaves the cache alone, and adds at most the row of
    the query to the table. *)
Lemma cache_record env queryData w : cache (_recordQueryAsync env queryData w) = cache w.
Proof.
  unfold _recordQueryAsync, recordQuery. by destruct (insert_query env _).
Qed.

Lemma searchAnswered_spec env query user_id cacheKey startTime rawResults w :
  let verdict := _validateRetrievalQuality (reply_results rawResults)
                   (map formatResult (reply_results rawResults)) in
  let out := searchAnswered env query user_id cacheKey startTime rawResults w in
  exists response,
    fst out = {| status := 200; body := SearchBody response |} /\
    search_retrieval_quality response = verdict /\
    search_retrieval_gated response = negb (isValid verdict) /\
    cache (snd out) =
    if isValid verdict
    then cache (cacheResult cacheKey (SearchPayload response) (_getCacheTTL query) w)
    else cache w.
Proof.
  intros verdict out. unfold out, searchAnswered. fold verdict.
  eexists. split; [reflexivity|]. cbn [fst snd search_retrieval_quality search_retrieval_gated].
  split; [reflexivity|]. split; [reflexivity|].
  rewrite cache_record. destruct (isValid verdict); reflexivity.
Qed.

Lemma llmAnswered_spec env query user_id cacheKey startTime rawResults w :
  let verdict := _validateRetrievalQuality (llm_reply_sources rawResults)
                   (map formatResult (llm_reply_sources rawResults)) in
  let out := llmAnswered env query user_id cacheKey startTime rawResults w in
  exists response,
    fst out = {| status := 200; body := LlmBody response |} /\
    llm_retrieval_quality response = verdict /\
    llm_retrieval_gated response = negb (isValid verdict) /\
    cache (snd out) =
    if isValid verdict
    then cache (cacheResult cacheKey (LlmPayload response) (_getCacheTTL query) w)
    else cache w.
Proof.
  intros verdict out. unfold out, llmAnswered. fold verdict.
  eexists. split; [reflexivity|]. cbn [fst snd llm_retrieval_quality llm_retrieval_gated].
  split; [reflexivity|]. split; [reflexivity|].
  rewrite cache_record. destruct (isValid verdict); reflexivity.
Qed.

End HandlerFacts.

(** C6.  A request writes to the cache exactly when it reaches the quality
    gate and the verdict is valid, on the search path and on the LLM path.
    With a valid verdict the cache is the one that [cacheResult] makes of
    the response, written once; with an invalid verdict the gated response
    is returned, with status 200, and the cache is left as the passing of
    time leaves it; a request that does not reach the gate leaves the cache
    alone or to the passing of time. *)
Theorem cache_written_iff_gate_passes :
  forall env req w,
    let before := RAGController.cache w in
    let waited := CacheService.elapse (RAGController.retrieval_latency env) before in
    let search := RAGController.searchDocuments env req w in
    let llm := RAGController.queryDocumentsWithLLM env req w in
    match Spec.searchVerdict env req w with
    | Some verdict =>
        exists response,
          fst search = {| RAGController.status := 200;
                          RAGController.body := RAGController.SearchBody response |} /\
          RAGController.search_retrieval_quality response = verdict /\
          RAGController.search_retrieval_gated response = negb (RAGController.isValid verdict) /\
          if RAGController.isValid verdict
          then Spec.cacheWrites before (RAGController.cache (snd search)) = 1%nat /\
               exists key ttl,
                 RAGController.cache (snd search) =
                 snd (CacheService.cacheResult key
                        (Js.Obj (RAGController.SearchPayload response)) (Some ttl) waited) /\
                 CacheService.memoryCache (RAGController.cache (snd search)) !! key =
                 Some (Js.Obj (RAGController.SearchPayload response))
          else Spec.cacheWrites before (RAGController.cache (snd search)) = 0%nat /\
               RAGController.cache (snd search) = waited
    | None =>
        Spec.cacheWrites before (RAGController.cache (snd search)) = 0%nat /\
        (RAGController.cache (snd search) = before \/
         RAGController.cache (snd search) = waited)
    end /\
    match Spec.llmVerdict env req w with
    | Some verdict =>
        exists response,
          fst llm = {| RAGController.status := 200;
                       RAGController.body := RAGController.LlmBody response |} /\
          RAGController.llm_retrieval_quality response = verdict /\
          RAGController.llm_retrieval_gated response = negb (RAGController.isValid verdict) /\
          if RAGController.isValid verdict
          then Spec.cacheWrites before (RAGController.cache (snd llm)) = 1%nat /\
               exists key ttl,
                 RAGController.cache (snd llm) =
                 snd (CacheService.cacheResult key
                        (Js.Obj (RAGController.LlmPayload response)) (Some ttl) waited) /\
                 CacheService.memoryCache (RAGController.cache (snd llm)) !! key =
                 Some (Js.Obj (RAGController.LlmPayload response))
          else Spec.cacheWrites before (RAGController.cache (snd llm)) = 0%nat /\
               RAGController.cache (snd llm) = waited
    | None =>
        Spec.cacheWrites before (RAGController.cache (snd llm)) = 0%nat /\
        (RAGController.cache (snd llm) = before \/
         RAGController.cache (snd llm) = waited)
    end.
Proof.
  intros env req w before waited search llm.
  assert (forall c, c = before -> Spec.cacheWrites before c = 0%nat /\ (c = before \/ c = waited))
    as Same by (intros c ->; split; [apply cacheWrites_same|by left]).
  assert (forall c, c = waited -> Spec.cacheWrites before c = 0%nat /\ (c = before \/ c = waited))
    as Waited by (intros c ->; split; [apply cacheWrites_elapse|by right]).
  split.
  - unfold search, RAGController.searchDocuments, Spec.searchVerdict, RAGController.invalidQuery.
    destruct (RAGController.req_query req) as [query|]; [|by apply Same].
    destruct (String.length (Js.trim query) =? 0)%nat; [by apply Same|].
    cbn [from_option id].
    set (key := ("search:" +:+ query +:+ ":" +:+ _)%string).
    destruct (Js.truthy (CacheService.getCachedResult key (RAGController.cache w))).
    { destruct (CacheService.getCachedResult key (RAGController.cache w)) as [| | | | | |[| |]];
        cbn [snd]; rewrite ?cache_record; by apply Same. }
    destruct (RAGController.retrieval_search env query _ _) as [reply|message];
      [|by apply Waited].
    destruct (searchAnswered_spec env query (RAGController.req_user_id req) key
                (RAGController.now w) reply
                (RAGController.await (RAGController.retrieval_latency env) w))
      as (response & E1 & E2 & E3 & E4).
    exists response. split; [exact E1|]. split; [exact E2|]. split; [exact E3|].
    rewrite E4. destruct (RAGController.isValid _).
    + split; [apply cacheWrites_cacheResult|].
      exists key, (RAGController._getCacheTTL query). split; [reflexivity|apply memoryCache_set].
    + split; [apply cacheWrites_elapse|reflexivity].
  - unfold llm, RAGController.queryDocumentsWithLLM, Spec.llmVerdict, RAGController.invalidQuery.
    destruct (RAGController.req_query req) as [query|]; [|by apply Same].
    destruct (String.length (Js.trim query) =? 0)%nat; [by apply Same|].
    cbn [from_option id].
    set (key := ("llm:" +:+ query +:+ ":" +:+ _)%string).
    destruct (Js.truthy (CacheService.getCachedResult key (RAGController.cache w))).
    { destruct (CacheService.getCachedResult key (RAGController.cache w)) as [| | | | | |[| |]];
        cbn [snd]; rewrite ?cache_record; by apply Same. }
    destruct (RAGController.retrieval_llm env query _ _) as [reply|message];
      [|by apply Waited].
    destruct (llmAnswered_spec env query (RAGController.req_user_id req) key
                (RAGController.now w) reply
                (RAGController.await (RAGController.retrieval_latency env) w))
      as (response & E1 & E2 & E3 & E4).
    exists response. split; [exact E1|]. split; [exact E2|]. split; [exact E3|].
    rewrite E4. destruct (RAGController.isValid _).
    + split; [apply cacheWrites_cacheResult|].
      exists key, (RAGController._getCacheTTL query). split; [reflexivity|apply memoryCache_set].
    + split; [apply cacheWrites_elapse|reflexivity].
Qed.

(** ** The TTL policy *)

(** What [_getCacheTTL] gives for a query that neither starts nor ends with
    whitespace: 300 for more than 10 words, 600 otherwise. *)
Lemma cache_ttl_of_trimmed_query query :
  query <> EmptyString ->
  Js.startsWithSep Js.isWhiteSpace query = false ->
  Js.endsWithSep Js.isWhiteSpace query = false ->
  RAGController._getCacheTTL query =
  if (10 <? length (Spec.tokens query))%nat then 300 else 600.
Proof.
  intros Hne Hs He. unfold RAGController._getCacheTTL.
  rewrite split_runs, Hs, He.
  destruct (String.eqb_spec query EmptyString) as [|_]; [contradiction|].
  simpl. rewrite app_nil_r. reflexivity.
Qed.

(** C7 at a query of 10 words that ends with a space: the split has 11
    pieces, the last one empty, and the TTL is 300. *)
Lemma cache_ttl_trailing_space :
  let query := "how do i rotate the api keys of my account " in
  length (Spec.tokens query) = 10%nat /\
  length (Js.split Js.isWhiteSpace query) = 11%nat /\
  RAGController._getCacheTTL query = 300 /\
  RAGController._getCacheTTL "how do i rotate the api keys of my account" = 600.
Proof. vm_compute. repeat split. Qed.

(** ** The cache service: expiry, deletion and the typed entry points *)

Section CacheLifeFacts.

Context {T : Type}.
Import CacheService.
Implicit Types (s : CacheService.state T) (u w : Timeout) (k key : string).

Lemma timersOf_nil k s :
  timersOf k s = [] <-> forall u, In u (pending s) -> callback_key u <> k.
Proof.
  unfold timersOf. split.
  - intros E u Hu Hk.
    assert (In u (List.filter (fun u0 => String.eqb (callback_key u0) k) (pending s))) as Hin
      by (apply filter_In; split; [assumption|by apply String.eqb_eq]).
    rewrite E in Hin. destruct Hin.
  - intros H. destruct (List.filter _ (pending s)) as [|a r] eqn:F; [reflexivity|].
    assert (In a (List.filter (fun u0 => String.eqb (callback_key u0) k) (pending s))) as Hin
      by (rewrite F; left; reflexivity).
    apply filter_In in Hin as [Ha Ea]. apply String.eqb_eq in Ea.
    destruct (H a Ha Ea).
Qed.

(** The timers of a key are determined by which timers are pending. *)
Lemma timersOf_ext k s s' :
  wf s -> wf s' ->
  (forall u, callback_key u = k -> In u (pending s) <-> In u (pending s')) ->
  timersOf k s = timersOf k s'.
Proof.
  intros W W' H.
  pose proof (NoDup_map_count callback_key (pending s) k (wf_keys s W)) as L.
  pose proof (NoDup_map_count callback_key (pending s') k (wf_keys s' W')) as L'.
  assert (forall u, In u (timersOf k s) <-> In u (timersOf k s')) as Hin.
  { intros u. unfold timersOf. rewrite !filter_In, String.eqb_eq.
    split; intros [Hu Ku]; (split; [by apply (H u Ku)|assumption]). }
  unfold timersOf in *.
  destruct (List.filter _ (pending s)) as [|a [|? ?]],
           (List.filter _ (pending s')) as [|b [|? ?]]; simpl in *; try lia.
  - reflexivity.
  - destruct (proj2 (Hin b)); tauto.
  - destruct (proj1 (Hin a)); tauto.
  - destruct (proj1 (Hin a)) as [->|[]]; tauto.
Qed.

(** A key without pending timer has no stored handle. *)
Lemma no_timer_no_handle k s :
  wf s -> (forall u, In u (pending s) -> callback_key u <> k) ->
  cacheTimeouts s !! k = None.
Proof.
  intros W H. destruct (cacheTimeouts s !! k) as [h|] eqn:E; [|reflexivity].
  destruct (wf_stored s W k h E) as (u & Hu & Ku & _). destruct (H u Hu Ku).
Qed.

Lemma absent_step k o s :
  wf s -> Spec.absent k s -> leaves k o -> Spec.absent k (step o s).
Proof.
  intros W (Hm & Hc & Hp) Hl. rewrite timersOf_nil in Hp.
  unfold Spec.absent. rewrite timersOf_nil.
  destruct o as [key v' ttl|key|key|dt]; cbn [step leaves] in *.
  - destruct (set_spec key v' ttl s W) as (_ & Em & _ & Ec & _ & _ & Hin).
    split; [|split].
    + rewrite Em. by rewrite lookup_insert_ne.
    + by rewrite Ec by congruence.
    + intros u Hu. apply Hin in Hu as [->|[Hu _]]; [simpl; congruence|by apply Hp].
  - destruct (delete_spec key s W) as (_ & Em & Ec & _ & _ & Hin).
    split; [|split].
    + rewrite Em. by rewrite lookup_delete_ne.
    + by rewrite Ec by congruence.
    + intros u Hu. apply Hin in Hu as [Hu _]. by apply Hp.
  - by repeat split.
  - destruct (elapse_spec dt s W) as (_ & _ & _ & Hin & Hk & _).
    destruct (Hk k) as [Em Ec].
    { intros u Hu Ku. destruct (Hp u Hu Ku). }
    split; [congruence|split; [congruence|]].
    intros u Hu. apply Hin in Hu as [Hu _]. by apply Hp.
Qed.

Lemma absent_run k ops s :
  wf s -> Spec.absent k s -> Forall (leaves k) ops -> Spec.absent k (run ops s).
Proof.
  revert s. induction ops as [|o ops IH]; intros s W A F; simpl; [assumption|].
  inversion F as [|? ? Fo Fops]; subst.
  apply IH; [by apply wf_step|by apply absent_step|assumption].
Qed.

Lemma absent_get k s :
  Spec.absent k s -> _getCache k s = Js.Null /\ getCachedResult k s = Js.Null.
Proof.
  intros (Hm & _). unfold getCachedResult, _getCache. rewrite Hm. by split.
Qed.

(** An entry whose timer is not yet due either stays as it is or, once
    the timer fires, disappears together with the timer. *)
Lemma expiry_step k v t h o s :
  wf s -> (live k v t h s /\ clock s < t) \/ Spec.absent k s -> leaves k o ->
  (live k v t h (step o s) /\ clock (step o s) < t) \/ Spec.absent k (step o s).
Proof.
  intros W [[L Ht]|A] Hl; [|right; by apply absent_step].
  destruct (Z.ltb_spec (clock (step o s)) t) as [Hlt|Hge].
  { left. split; [by apply live_step|assumption]. }
  right. destruct o as [key v' ttl|key|key|dt]; cbn [step leaves] in *.
  - destruct (set_spec key v' ttl s W) as (_ & _ & _ & _ & _ & Ecl & _). lia.
  - destruct (delete_spec key s W) as (_ & _ & _ & _ & Ecl & _). lia.
  - lia.
  - destruct (elapse_spec dt s W) as (W' & _ & Ecl & Hin & _ & Hdue).
    rewrite Ecl in Hge. destruct L as (_ & _ & Hp).
    assert (forall u, In u (pending (elapse dt s)) -> callback_key u <> k) as Hno.
    { intros u Hu Ku. apply Hin in Hu as [Hu Hf].
      assert (u = {| handle := h; fires_at := t; callback_key := k |}) as ->
        by (eapply NoDup_map_inj; [apply (wf_keys s W)| | |]; assumption).
      simpl in Hf. lia. }
    split; [apply (Hdue _ Hp); simpl; lia|].
    split; [by apply no_timer_no_handle|by apply timersOf_nil].
Qed.

Lemma expiry_run k v t h ops s :
  wf s -> (live k v t h s /\ clock s < t) \/ Spec.absent k s ->
  Forall (leaves k) ops ->
  (live k v t h (run ops s) /\ clock (run ops s) < t) \/ Spec.absent k (run ops s).
Proof.
  revert s. induction ops as [|o ops IH]; intros s W A F; simpl; [assumption|].
  inversion F as [|? ? Fo Fops]; subst.
  apply IH; [by apply wf_step|by apply expiry_step|assumption].
Qed.

(** X1.  An entry stored with a positive TTL is gone once the TTL has
    elapsed: whatever happens to other keys in between, from the instant
    [ttl] seconds after the [set] the key has no entry, no stored handle
    and no pending timer, and both read paths answer [null]. *)
Theorem cache_entry_expires_after_ttl :
  forall (s : state T) k v ttl ops,
    reachable s -> 0 < ttl -> Forall (leaves k) ops ->
    let s' := run ops (_setCacheWithExpiration k v ttl s) in
    clock s + ttl * 1000 <= clock s' ->
    Spec.absent k s' /\ _getCache k s' = Js.Null /\ getCachedResult k s' = Js.Null.
Proof.
  intros s k v ttl ops R Hpos F s' Ht.
  pose proof (wf_reachable s R) as W.
  destruct (set_spec k v ttl s W) as (W1 & _ & _ & _ & _ & Ecl & _).
  pose proof (timerDelay_positive (ttl * 1000)) as Hd.
  pose proof (timerDelay_le (ttl * 1000) ltac:(lia)) as Hle.
  destruct (expiry_run k v (clock s + timerDelay (ttl * 1000)) (next_handle s) ops
              (_setCacheWithExpiration k v ttl s) W1) as [[_ Hlt]|A].
  - left. split; [apply live_set, W|]. rewrite Ecl. lia.
  - assumption.
  - fold s' in Hlt. lia.
  - split; [exact A|]. by apply absent_get.
Qed.

(** X2.  [_deleteCache] reports whether the key had an entry, and leaves
    the key without entry, handle or timer, so that reads answer [null]
    and a second delete reports [false], until the key is stored again.
    The entries and timers of the other keys are untouched. *)
Theorem cache_delete_removes_entry_and_timer :
  forall (s : state T) k ops,
    reachable s -> Forall (leaves k) ops ->
    let s1 := snd (_deleteCache k s) in
    let s' := run ops s1 in
    fst (_deleteCache k s) = bool_decide (is_Some (memoryCache s !! k)) /\
    Spec.absent k s' /\
    _getCache k s' = Js.Null /\
    fst (_deleteCache k s') = false /\
    (forall k', k' <> k ->
       memoryCache s1 !! k' = memoryCache s !! k' /\ timersOf k' s1 = timersOf k' s).
Proof.
  intros s k ops R F s1 s'.
  pose proof (wf_reachable s R) as W.
  destruct (wf_clearExpired k s W) as (_ & _ & Hmem & _).
  destruct (delete_spec k s W) as (W1 & Em & Ec & _ & _ & Hin). fold s1 in W1, Em, Ec, Hin.
  assert (forall u, In u (pending s1) -> callback_key u <> k) as Hno
    by (intros u Hu; by apply Hin in Hu as [_ Hu]).
  assert (Spec.absent k s1) as A1.
  { split; [rewrite Em; apply lookup_delete_eq|].
    split; [by apply no_timer_no_handle|by apply timersOf_nil]. }
  assert (Spec.absent k s') as A by (by apply absent_run).
  split; [unfold _deleteCache; cbn [fst]; by rewrite Hmem|].
  split; [exact A|]. split; [by apply absent_get|]. split.
  - assert (wf s') as W' by (by apply wf_run).
    destruct (wf_clearExpired k s' W') as (_ & _ & Hmem' & _).
    unfold _deleteCache. cbn [fst]. rewrite Hmem'. destruct A as (-> & _).
    apply bool_decide_eq_false. by intros [x Hx].
  - intros k' Hk'. split; [rewrite Em; by rewrite lookup_delete_ne|].
    apply timersOf_ext; try assumption.
    intros u Ku. rewrite Hin. split; [tauto|]. intros Hu. split; [assumption|congruence].
Qed.

(** In every state the service can reach, the keys with an entry are the
    keys with a stored handle. *)
Lemma tracked_reachable s :
  reachable s ->
  forall k, is_Some (memoryCache s !! k) <-> is_Some (cacheTimeouts s !! k).
Proof.
  induction 1 as [|o s R IH]; intros k.
  { simpl. rewrite !lookup_empty. split; intros [? ?]; discriminate. }
  pose proof (wf_reachable s R) as W.
  destruct o as [key v' ttl|key|key|dt]; cbn [step].
  - destruct (set_spec key v' ttl s W) as (_ & Em & Ek & Ec & _).
    destruct (decide (k = key)) as [->|Hne].
    + rewrite Em, Ek, lookup_insert_eq. split; eauto.
    + rewrite Em, lookup_insert_ne, Ec by congruence. apply IH.
  - destruct (delete_spec key s W) as (W1 & Em & Ec & _ & _ & Hin).
    destruct (decide (k = key)) as [->|Hne].
    + rewrite Em, lookup_delete_eq, (no_timer_no_handle key _ W1).
      * split; intros [? ?]; discriminate.
      * intros u Hu. by apply Hin in Hu as [_ Hu].
    + rewrite Em, lookup_delete_ne, Ec by congruence. apply IH.
  - apply IH.
  - destruct (elapse_spec dt s W) as (W1 & _ & _ & Hin & Hk & Hdue).
    destruct (existsb (fun u => String.eqb (callback_key u) k &&
                                (fires_at u <=? clock s + Z.of_N dt)) (pending s)) eqn:E.
    + apply existsb_exists in E as (u & Hu & E).
      apply andb_true_iff in E as [Ku Fu].
      apply String.eqb_eq in Ku. apply Z.leb_le in Fu. subst k.
      rewrite (Hdue u Hu Fu), (no_timer_no_handle (callback_key u) _ W1);
        [split; intros [? ?]; discriminate|].
      intros w Hw Kw. apply Hin in Hw as [Hw Fw].
      assert (w = u) as -> by (eapply NoDup_map_inj; [apply (wf_keys s W)| | |]; assumption).
      lia.
    + destruct (Hk k) as [-> ->]; [|apply IH].
      intros u Hu Ku.
      destruct (Z.ltb_spec (clock s + Z.of_N dt) (fires_at u)) as [|Hle]; [assumption|].
      assert (existsb (fun u => String.eqb (callback_key u) k &&
                                (fires_at u <=? clock s + Z.of_N dt)) (pending s) = true)
        as E'; [|congruence].
      apply existsb_exists. exists u. split; [assumption|].
      apply andb_true_iff. split; [by apply String.eqb_eq|by apply Z.leb_le].
Qed.

(** X3.  In every state the service can reach, entries and timers
    correspond: a key has an entry exactly when a timer is pending for it,
    the keys of [memoryCache] and of [cacheTimeouts] are the same, and the
    number of entries is the number of pending timers. *)
Theorem cache_entries_match_timers :
  forall (s : state T),
    reachable s ->
    (forall k, is_Some (memoryCache s !! k) <-> timersOf k s <> []) /\
    dom (memoryCache s) = dom (cacheTimeouts s) /\
    cacheSize s = length (pending s).
Proof.
  intros s R. pose proof (wf_reachable s R) as W.
  pose proof (tracked_reachable s R) as Tr.
  assert (forall k, is_Some (cacheTimeouts s !! k) <-> In k (map callback_key (pending s)))
    as Hk.
  { intros k. rewrite in_map_iff. split.
    - intros [h Hh]. destruct (wf_stored s W k h Hh) as (u & Hu & Ku & _). eauto.
    - intros (u & Ku & Hu). subst k. rewrite (wf_pending s W u Hu). eauto. }
  split; [|split].
  - intros k. rewrite Tr, Hk, timersOf_nil, in_map_iff. split.
    + intros (u & Ku & Hu) H. by apply (H u Hu).
    + intros H.
      destruct (in_dec String.string_dec k (map callback_key (pending s))) as [Hin|Hout].
      * by apply in_map_iff.
      * exfalso. apply H. intros u Hu Ku. apply Hout. subst k. by apply in_map.
  - apply set_eq. intros k. rewrite !elem_of_dom. apply Tr.
  - unfold cacheSize. rewrite <- size_dom.
    assert (dom (memoryCache s) = list_to_set (map callback_key (pending s))) as ->.
    { apply set_eq. intros k.
      rewrite elem_of_dom, elem_of_list_to_set, list_elem_of_In, Tr. apply Hk. }
    rewrite size_list_to_set by apply NoDup_ListNoDup, (wf_keys s W). apply length_map.
Qed.

End CacheLifeFacts.

Section JsTrimFacts.

Lemma lowerChar_idem c : Js.lowerChar (Js.lowerChar c) = Js.lowerChar c.
Proof. destruct c as [[] [] [] [] [] [] [] []]; reflexivity. Qed.

Lemma toLowerCase_idem s : Js.toLowerCase (Js.toLowerCase s) = Js.toLowerCase s.
Proof. induction s as [|c r IH]; simpl; [reflexivity|]. by rewrite lowerChar_idem, IH. Qed.

Lemma trimStart_toLowerCase s :
  Js.trimStart (Js.toLowerCase s) = Js.toLowerCase (Js.trimStart s).
Proof.
  induction s as [|c r IH]; simpl; [reflexivity|].
  rewrite isWhiteSpace_lowerChar. destruct (Js.isWhiteSpace c); [exact IH|reflexivity].
Qed.

Lemma trimEnd_toLowerCase s :
  Js.trimEnd (Js.toLowerCase s) = Js.toLowerCase (Js.trimEnd s).
Proof.
  induction s as [|c r IH]; simpl; [reflexivity|].
  rewrite IH, isWhiteSpace_lowerChar.
  destruct (Js.trimEnd r); simpl; [destruct (Js.isWhiteSpace c)|]; reflexivity.
Qed.

(** Trimming and lower-casing commute. *)
Lemma trim_toLowerCase s : Js.trim (Js.toLowerCase s) = Js.toLowerCase (Js.trim s).
Proof. unfold Js.trim. by rewrite trimStart_toLowerCase, trimEnd_toLowerCase. Qed.

Lemma trimStart_fix s :
  Js.startsWithSep Js.isWhiteSpace s = false -> Js.trimStart s = s.
Proof. destruct s as [|c r]; simpl; [reflexivity|]. by intros ->. Qed.

Lemma trimEnd_fix s :
  Js.endsWithSep Js.isWhiteSpace s = false -> Js.trimEnd s = s.
Proof.
  induction s as [|c r IH]; [reflexivity|]. cbn [Js.endsWithSep Js.trimEnd].
  destruct r as [|c' r']; [simpl; by intros ->|].
  intros H. rewrite (IH H). reflexivity.
Qed.

Lemma trim_idem s : Js.trim (Js.trim s) = Js.trim s.
Proof.
  unfold Js.trim at 1.
  rewrite trimStart_fix; [apply trimEnd_fix|]; unfold Js.trim.
  - apply endsWithSep_trimEnd.
  - apply startsWithSep_trimEnd, startsWithSep_trimStart.
Qed.

End JsTrimFacts.

Section CacheEntriesFacts.

Context {T : Type}.
Variable generateHash : string -> string.
Import CacheService CacheEntries.
Implicit Types (s : CacheService.state T) (k key : string).

Lemma queryKey_toLowerCase q :
  queryKey generateHash (Js.toLowerCase q) = queryKey generateHash q.
Proof. unfold queryKey. by rewrite toLowerCase_idem. Qed.

Lemma queryKey_trim q : queryKey generateHash (Js.trim q) = queryKey generateHash q.
Proof. unfold queryKey. by rewrite !trim_toLowerCase, trim_idem. Qed.

(** While its timer is pending, a stored entry is what a read returns. *)
Lemma read_after_set key (v : Js.value T) ttl ops s :
  reachable s -> Forall (leaves key) ops ->
  let s' := run ops (_setCacheWithExpiration key v ttl s) in
  clock s' < clock s + timerDelay (ttl * 1000) ->
  wf s' /\ memoryCache s' !! key = Some v /\
  _getCache key s' = (if Js.truthy v then v else Js.Null).
Proof.
  intros R F s' Ht. pose proof (wf_reachable s R) as W.
  assert (wf (_setCacheWithExpiration key v ttl s)) as W1 by apply (set_spec key v ttl s W).
  assert (live key v (clock s + timerDelay (ttl * 1000)) (next_handle s) s') as L
    by (apply live_run; try assumption; apply live_set, W).
  split; [by apply wf_run|]. split; [apply L|]. apply getCache_stored, L.
Qed.

(** X4.  Query results are cached under the lower-cased, trimmed query:
    until the expiration timer of the entry fires, a lookup with any
    query that differs from the cached one only in letter case and
    surrounding white space returns the cached results (or [null] if
    they are falsy).  The timer fires once the TTL ([options.ttl], or 600
    seconds when it is missing or 0) has elapsed if the TTL is between 1
    and [TIMEOUT_MAX] milliseconds, and after one millisecond
    otherwise. *)
Theorem query_cache_hit_up_to_case_and_space :
  forall (s : state T) q q' results ttl ops,
    reachable s ->
    Js.trim (Js.toLowerCase q') = Js.trim (Js.toLowerCase q) ->
    Forall (leaves (queryKey generateHash q)) ops ->
    let s' := run ops (snd (cacheQueryResults generateHash q results ttl s)) in
    clock s' < clock s + timerDelay (ttlOrDefault ttl * 1000) ->
    let hit := if Js.truthy results then results else Js.Null in
    getCachedQueryResults generateHash q' s' = hit /\
    getCachedQueryResults generateHash (Js.toLowerCase q) s' = hit /\
    getCachedQueryResults generateHash (Js.trim q) s' = hit /\
    (ttl = None \/ ttl = Some 0 -> ttlOrDefault ttl = 600) /\
    (1 <= ttlOrDefault ttl * 1000 <= TIMEOUT_MAX ->
     timerDelay (ttlOrDefault ttl * 1000) = ttlOrDefault ttl * 1000) /\
    (~ 1 <= ttlOrDefault ttl * 1000 <= TIMEOUT_MAX ->
     timerDelay (ttlOrDefault ttl * 1000) = 1).
Proof.
  intros s q q' results ttl ops R E F s' Ht hit.
  unfold cacheQueryResults in s'. cbn [snd] in s'.
  destruct (read_after_set (queryKey generateHash q) results (ttlOrDefault ttl) ops s R F Ht)
    as (_ & _ & G). fold s' in G.
  assert (getCachedQueryResults generateHash q s' = hit) as H.
  { unfold getCachedQueryResults. rewrite G. unfold hit.
    destruct (Js.truthy results) eqn:Tr; [by rewrite Tr|reflexivity]. }
  split; [|split; [|split; [|split; [|split]]]].
  - unfold getCachedQueryResults, queryKey in *. by rewrite E.
  - unfold getCachedQueryResults in *. by rewrite queryKey_toLowerCase.
  - unfold getCachedQueryResults in *. by rewrite queryKey_trim.
  - by intros [->| ->].
  - apply timerDelay_in_range.
  - apply timerDelay_out_of_range.
Qed.

Lemma chunksKey_inj d d' : chunksKey d = chunksKey d' -> d = d'.
Proof. unfold chunksKey. intros H. by simplify_eq/=. Qed.

(** X5.  Cached document chunks are returned until the expiration timer
    of the entry fires, which is once the TTL (1800 seconds by default)
    has elapsed if the TTL is between 1 and [TIMEOUT_MAX] milliseconds
    and after one millisecond otherwise; until then
    [invalidateDocumentCache] reports [true] and removes them, a second
    invalidation reports [false], and the cached chunks of other
    documents, the cached query results and the cached embeddings are
    unaffected. *)
Theorem invalidate_document_chunks :
  forall (s : state T) d chunks ttl ops,
    reachable s -> Forall (leaves (chunksKey d)) ops ->
    let s' := run ops (snd (cacheDocumentChunks d chunks ttl s)) in
    clock s' < clock s + timerDelay (default 1800 ttl * 1000) ->
    (1 <= default 1800 ttl * 1000 <= TIMEOUT_MAX ->
     timerDelay (default 1800 ttl * 1000) = default 1800 ttl * 1000) /\
    (~ 1 <= default 1800 ttl * 1000 <= TIMEOUT_MAX ->
     timerDelay (default 1800 ttl * 1000) = 1) /\
    getCachedDocumentChunks d s' = (if Js.truthy chunks then chunks else Js.Null) /\
    fst (invalidateDocumentCache d s') = true /\
    let s2 := snd (invalidateDocumentCache d s') in
    getCachedDocumentChunks d s2 = Js.Null /\
    fst (invalidateDocumentCache d s2) = false /\
    (forall d', d' <> d -> getCachedDocumentChunks d' s2 = getCachedDocumentChunks d' s') /\
    (forall q, getCachedQueryResults generateHash q s2 =
               getCachedQueryResults generateHash q s') /\
    (forall c, getCachedDocumentEmbedding generateHash c s2 =
               getCachedDocumentEmbedding generateHash c s').
Proof.
  intros s d chunks ttl ops R F s' Ht.
  unfold cacheDocumentChunks in s'. cbn [snd] in s'.
  destruct (read_after_set (chunksKey d) chunks (default 1800 ttl) ops s R F Ht)
    as (W' & Hm & G). fold s' in W', Hm, G.
  destruct (wf_clearExpired (chunksKey d) s' W') as (_ & _ & Hmem & _).
  destruct (delete_spec (chunksKey d) s' W') as (W2 & Em & _).
  assert (forall k, k <> chunksKey d ->
            _getCache k (snd (_deleteCache (chunksKey d) s')) = _getCache k s') as Hother.
  { intros k Hk. unfold _getCache at 1 2. rewrite Em. by rewrite lookup_delete_ne. }
  split; [apply timerDelay_in_range|].
  split; [apply timerDelay_out_of_range|].
  split; [exact G|].
  change (invalidateDocumentCache (T := T) d) with (_deleteCache (T := T) (chunksKey d)).
  split; [unfold _deleteCache; cbn [fst]; rewrite Hmem, Hm;
          apply bool_decide_eq_true; eauto|].
  intros s2.
  split; [unfold getCachedDocumentChunks, _getCache; subst s2; rewrite Em;
          by rewrite lookup_delete_eq|].
  split.
  { destruct (wf_clearExpired (chunksKey d) s2 W2) as (_ & _ & Hmem2 & _).
    unfold _deleteCache. cbn [fst].
    rewrite Hmem2. subst s2. rewrite Em, lookup_delete_eq.
    apply bool_decide_eq_false. by intros [x Hx]. }
  split; [|split].
  - intros d' Hd. apply Hother. intros E. by apply Hd, chunksKey_inj.
  - intros q. unfold getCachedQueryResults. rewrite Hother; [reflexivity|].
    unfold queryKey, chunksKey. simpl. discriminate.
  - intros c. apply Hother. unfold embeddingKey, chunksKey. simpl. discriminate.
Qed.

End CacheEntriesFacts.


(** ** The query processor: similarity, deduplication, curation, terms *)

Section SimilarityFacts.

Import QueryProcessor.

Lemma intersection_le_union (w1 w2 : list string) :
  (length (Js.newSet (List.filter (fun x => has w2 x) w1)) <=
   length (Js.newSet (w1 ++ w2)))%nat.
Proof.
  apply NoDup_incl_length; [apply NoDup_newSet|].
  intros x. rewrite !In_newSet, filter_In, in_app_iff. tauto.
Qed.

(** X6.  The content similarity is a number between 0 and 1 that does not
    depend on the order of the two contents; it is 1 for two equal
    contents with at least one word, and 0 exactly when the contents share
    no word. *)
Theorem similarity_is_a_jaccard_index :
  forall c1 c2,
    (0 <= _calculateContentSimilarity c1 c2 <= 1)%Q /\
    _calculateContentSimilarity c1 c2 = _calculateContentSimilarity c2 c1 /\
    (wordSet c1 <> [] -> (_calculateContentSimilarity c1 c1 == 1)%Q) /\
    ((_calculateContentSimilarity c1 c2 == 0)%Q <->
     forall w, ~ (In w (wordSet c1) /\ In w (wordSet c2))).
Proof.
  intros c1 c2. split; [|split; [apply similarity_sym|split]].
  - unfold _calculateContentSimilarity.
    pose proof (intersection_le_union (wordSet c1) (wordSet c2)) as Hle.
    destruct (Nat.ltb_spec 0 (length (Js.newSet (wordSet c1 ++ wordSet c2)))) as [Hpos|_].
    + unfold Qle. simpl Qnum. simpl Qden. rewrite Zpos_of_nat by assumption. lia.
    + split; discriminate.
  - intros Hne. unfold _calculateContentSimilarity.
    rewrite (newSet_length_ext (wordSet c1 ++ wordSet c1) (wordSet c1))
      by (intros x; rewrite in_app_iff; tauto).
    rewrite (filter_all (fun x => has (wordSet c1) x)) by (intros a Ha; by apply has_In).
    assert (Js.newSet (wordSet c1) = wordSet c1) as ->
      by (rewrite newSet_firstSeen; apply firstSeen_NoDup, NoDup_newSet).
    destruct (wordSet c1) as [|w ws]; [congruence|].
    set (n := length (w :: ws)). assert (0 < n)%nat as Hn by (unfold n; simpl; lia).
    assert ((0 <? n)%nat = true) as -> by (apply Nat.ltb_lt; assumption).
    unfold Qeq. simpl Qnum. simpl Qden. rewrite Zpos_of_nat by assumption. lia.
  - unfold _calculateContentSimilarity.
    pose proof (intersection_le_union (wordSet c1) (wordSet c2)) as Hle.
    set (inter := Js.newSet (List.filter (fun x => has (wordSet c2) x) (wordSet c1))) in *.
    assert (length inter = 0%nat <-> forall w, ~ (In w (wordSet c1) /\ In w (wordSet c2)))
      as Hempty.
    { split.
      - intros E w [H1 H2].
        assert (In w inter) as Hin
          by (apply In_newSet, filter_In; split; [assumption|by apply has_In]).
        destruct inter; [destruct Hin|discriminate].
      - intros H. destruct inter as [|w r] eqn:E; [reflexivity|].
        assert (In w inter) as Hin by (rewrite E; by left).
        apply In_newSet, filter_In in Hin as [H1 H2]. apply has_In in H2.
        destruct (H w); by split. }
    destruct (Nat.ltb_spec 0 (length (Js.newSet (wordSet c1 ++ wordSet c2)))) as [Hpos|Hz].
    + rewrite <- Hempty. unfold Qeq. simpl Qnum. simpl Qden. lia.
    + split; [intros _|reflexivity]. apply Hempty. lia.
Qed.

End SimilarityFacts.

Section DedupMoreFacts.

Import QueryProcessor.
Implicit Types (l kept : list Raw.Result) (r e : Raw.Result).

(** No result is a near-duplicate of a result before it. *)
Local Abbreviation spread := (StronglySorted (fun e r => ~ Spec.nearDuplicate r e)).

Lemma spread_snoc kept r :
  spread kept -> (forall e, In e kept -> ~ Spec.nearDuplicate r e) -> spread (kept ++ [r]).
Proof.
  induction kept as [|a kept IH]; intros S H; simpl.
  - repeat constructor.
  - inversion S as [|? ? S' Ha]; subst. constructor.
    + apply IH; [assumption|]. intros e He. apply H. by right.
    + apply List.Forall_app. split; [assumption|]. constructor; [|constructor].
      apply H. by left.
Qed.

Lemma spread_fold l kept : spread kept -> spread (fold_left keepUnique l kept).
Proof.
  revert kept. induction l as [|r l IH]; intros kept S; simpl; [assumption|].
  apply IH. unfold keepUnique. destruct (isDuplicate kept r) eqn:E; [assumption|].
  apply spread_snoc; [assumption|]. by apply isDuplicate_false.
Qed.

Lemma spread_fixed l kept :
  spread (kept ++ l) -> fold_left keepUnique l kept = kept ++ l.
Proof.
  revert kept. induction l as [|r l IH]; intros kept S; simpl; [by rewrite app_nil_r|].
  assert (isDuplicate kept r = false) as E.
  { apply isDuplicate_false. intros e He.
    induction kept as [|a kept IHk]; [destruct He|].
    simpl in S. inversion S as [|? ? S' Ha]; subst.
    destruct He as [->|He]; [|by apply IHk].
    apply List.Forall_app in Ha as [_ Ha]. by inversion Ha. }
  unfold keepUnique at 2. rewrite E.
  rewrite IH; rewrite <- app_assoc; [reflexivity|exact S].
Qed.

Lemma covered_fold l kept r :
  In r kept \/ In r l ->
  In r (fold_left keepUnique l kept) \/
  exists e, In e (fold_left keepUnique l kept) /\ Spec.nearDuplicate r e.
Proof.
  revert kept. induction l as [|a l IH]; intros kept H; simpl.
  - destruct H as [H|[]]. by left.
  - destruct (keepUnique_extends l (keepUnique kept a)) as (rest & E & _).
    destruct H as [H|[->|H]].
    + apply IH. left. unfold keepUnique. destruct (isDuplicate kept a); [assumption|].
      apply in_app_iff. by left.
    + destruct (isDuplicate kept r) eqn:D.
      * assert (keepUnique kept r = kept) as K by (unfold keepUnique; by rewrite D).
        rewrite K in *.
        apply isDuplicate_spec in D as (e & He & N). right. exists e.
        split; [|assumption]. rewrite E. apply in_app_iff. by left.
      * assert (keepUnique kept r = kept ++ [r]) as K by (unfold keepUnique; by rewrite D).
        rewrite K. apply IH. left. apply in_app_iff. right. by left.
    + apply IH. by right.
Qed.

(** X7.  Deduplication keeps a subsequence of its input in which no result
    is a near-duplicate of a result before it; the first result is always
    kept; every result that is dropped is a near-duplicate of one that is
    kept; and deduplicating again changes nothing. *)
Theorem dedup_leaves_no_near_duplicates :
  forall l,
    let d := _deduplicateResults l in
    sublist d l /\
    StronglySorted (fun e r => ~ Spec.nearDuplicate r e) d /\
    (forall r rest, l = r :: rest -> exists rest', d = r :: rest') /\
    (forall r, In r l -> In r d \/ exists e, In e d /\ Spec.nearDuplicate r e) /\
    _deduplicateResults d = d.
Proof.
  intros l d. subst d. split; [apply dedup_sublist|].
  assert (spread (fold_left keepUnique l [])) as S by (apply spread_fold; constructor).
  split; [rewrite dedup_fold; exact S|]. split; [|split].
  - intros r rest ->. rewrite dedup_fold. simpl.
    destruct (keepUnique_extends rest [r]) as (rest' & E & _).
    exists rest'. unfold keepUnique at 2. simpl. exact E.
  - intros r Hr. rewrite dedup_fold. apply covered_fold. by right.
  - unfold _deduplicateResults at 1 2 3.
    destruct (length l <=? 1)%nat eqn:L1; [by rewrite L1|].
    destruct (length (fold_left keepUnique l []) <=? 1)%nat; [reflexivity|].
    by apply (spread_fixed _ []).
Qed.

End DedupMoreFacts.

Section CurationFacts.

Import QueryProcessor.
Implicit Types (G E : list (string * list Raw.Result)) (l rs : list Raw.Result)
  (r : Raw.Result) (k : string).

Lemma pushOwn_flat k r G :
  Permutation (flat_map snd (pushOwn k r G)) (flat_map snd G ++ [r]).
Proof.
  induction G as [|[k' rs] G IH]; simpl; [reflexivity|].
  destruct (String.eqb k' k); simpl.
  - rewrite <- !app_assoc. apply Permutation_app_head, Permutation_app_comm.
  - rewrite IH. by rewrite app_assoc.
Qed.

Lemma groups_flat l G : Permutation (flat_map snd (groupsOwn l G)) (flat_map snd G ++ l).
Proof.
  revert G. induction l as [|r l IH]; intros G; simpl.
  - by rewrite app_nil_r.
  - unfold groupsOwn in *. simpl. rewrite IH, pushOwn_flat. by rewrite <- app_assoc.
Qed.

Lemma capped_sublist E :
  sublist (flat_map (fun '(_, docResults) => firstn maxChunksPerDocument docResults) E)
          (flat_map snd E).
Proof.
  induction E as [|[k rs] E IH]; simpl; [constructor|].
  apply sublist_app; [apply sublist_take|exact IH].
Qed.

(** Grouping selects among the results it is given. *)
Lemma group_submseteq l : groupOwn l ⊆+ l.
Proof.
  unfold groupOwn, limit. destruct (length l <=? 1)%nat; [reflexivity|].
  rewrite sortDesc_Permutation.
  etransitivity; [apply sublist_submseteq, capped_sublist|].
  apply Permutation_submseteq.
  rewrite (Permutation_flat_map snd (entries_Permutation (groupsOwn l []))).
  apply (groups_flat l []).
Qed.

Lemma curated_submseteq l :
  groupOwn (_deduplicateResults (Js.sortDesc Raw.similarity_score l)) ⊆+ l.
Proof.
  etransitivity; [apply group_submseteq|].
  etransitivity; [apply sublist_submseteq, dedup_sublist|].
  apply Permutation_submseteq, sortDesc_Permutation.
Qed.

Lemma dedup_head r l : exists rest, _deduplicateResults (r :: l) = r :: rest.
Proof.
  rewrite dedup_fold. simpl.
  destruct (keepUnique_extends l [r]) as (rest & E & _). exists rest. exact E.
Qed.

(** The best result survives deduplication and grouping. *)
Lemma curated_head l :
  l <> [] ->
  exists g rest,
    groupOwn (_deduplicateResults (Js.sortDesc Raw.similarity_score l)) =
    g :: rest /\
    In g l /\
    forall x, In x l -> (Raw.similarity_score x <= Raw.similarity_score g)%Q.
Proof.
  intros Hne.
  pose proof (sortDesc_desc Raw.similarity_score l) as Sd.
  pose proof (In_sortDesc Raw.similarity_score) as Sin.
  destruct (Js.sortDesc Raw.similarity_score l) as [|h t] eqn:ES.
  { destruct l as [|a l]; [congruence|].
    assert (In a (Js.sortDesc Raw.similarity_score (a :: l))) as Ha by (apply Sin; by left).
    rewrite ES in Ha. destruct Ha. }
  assert (forall x, In x l -> (Raw.similarity_score x <= Raw.similarity_score h)%Q) as Hmax.
  { intros x Hx. apply desc_cons in Sd as [Hh _].
    pose proof (proj2 (Sin x l) Hx) as Hx'. rewrite ES in Hx'.
    destruct Hx' as [->|Hx']; [apply Qle_refl|by apply Hh]. }
  pose proof (dedup_desc (h :: t) Sd) as Dd.
  pose proof (dedup_sublist (h :: t)) as Ds.
  destruct (dedup_head h t) as (rest & ED). rewrite ED in *.
  pose proof (group_desc (h :: rest)) as Gd.
  assert (In h (groupOwn (h :: rest))) as Hin.
  { apply (In_ofDocument (docId h)). rewrite group_ofDocument.
    apply In_sortDesc. unfold QueryProcessor.keyed. simpl. rewrite String.eqb_refl.
    by left. }
  destruct (groupOwn (h :: rest)) as [|g G] eqn:EG; [destruct Hin|].
  exists g, G. split; [reflexivity|]. split.
  - apply (Sin g l). rewrite ES.
    apply list_elem_of_In. eapply elem_of_sublist; [|exact Ds].
    apply list_elem_of_In. apply In_group. rewrite EG. by left.
  - intros x Hx. apply Qle_trans with (Raw.similarity_score h); [by apply Hmax|].
    apply desc_cons in Gd as [Hg _].
    destruct Hin as [->|Hin]; [apply Qle_refl|by apply Hg].
Qed.

(** X8.  Curation returns a list whenever no document key of the input
    is a name of [Object.prototype].  If it throws, it throws the
    [TypeError] of the missing method [push]; the input then has at
    least two results, one of them with such a key.  A list that it
    returns is empty only for an empty input, is never longer than the
    input, and consists of input results, none used more often than it
    occurs in the input.  Its first entry has rank 1 and carries the
    greatest score of the whole input. *)
Theorem curation_returns_best_match_first :
  forall results query,
    ((forall r, In r results -> Js.inherited (docId r) = false) ->
     exists out, formatResultsWithCitations results query = Js.Normal out) /\
    (forall message,
       formatResultsWithCitations results query = Js.TypeError message ->
       message = "documentGroups[docId].push is not a function" /\
       (2 <= length results)%nat /\
       exists r, In r results /\ Js.inherited (docId r) = true) /\
    (forall out,
       formatResultsWithCitations results query = Js.Normal out ->
       (out = [] <-> results = []) /\
       (length out <= length results)%nat /\
       (exists kept, kept ⊆+ results /\ out = Js.mapIndex (annotate query) kept) /\
       (forall c rest, out = c :: rest ->
          rank c = 1%nat /\
          Spec.isMaximum (score c) (map Raw.similarity_score results) /\
          exists r, In r results /\
                    id c = Raw.chunk_id r /\ content c = Raw.content r /\
                    score c = Raw.similarity_score r)).
Proof.
  intros results query. rewrite format_spec. cbv zeta.
  set (deduplicated := _deduplicateResults (Js.sortDesc Raw.similarity_score results)).
  assert (forall r, In r deduplicated -> In r results) as Hin.
  { intros r Hr. apply (In_sortDesc Raw.similarity_score), list_elem_of_In.
    eapply elem_of_sublist; [|apply dedup_sublist]. by apply list_elem_of_In. }
  assert (length deduplicated <= length results)%nat as Hlen.
  { rewrite <- (Permutation_length (sortDesc_Permutation Raw.similarity_score results)).
    apply sublist_length, dedup_sublist. }
  split; [|split].
  - intros Hown.
    assert (keysAreOwn deduplicated = true) as ->
      by (apply keysAreOwn_spec; intros r Hr; by apply Hown, Hin).
    rewrite orb_true_r. by eexists.
  - intros message.
    destruct (length deduplicated <=? 1)%nat eqn:L; [discriminate|].
    destruct (keysAreOwn deduplicated) eqn:K; [discriminate|]. cbn [orb].
    intros [= <-]. split; [reflexivity|].
    apply Nat.leb_gt in L. split; [lia|].
    destruct (keysAreOwn_false _ K) as (r & Hr & E). exists r. split; [by apply Hin|exact E].
  - intros out. destruct (_ || _); [|discriminate]. intros [= <-].
    pose proof (curated_submseteq results) as Hsub.
    split; [|split; [|split]].
    + split.
      * intros E. destruct results as [|a results]; [reflexivity|].
        destruct (curated_head (a :: results)) as (g & rest & EG & _); [discriminate|].
        rewrite format_mapIndex, EG in E. discriminate.
      * intros ->. reflexivity.
    + rewrite format_length. by apply submseteq_length.
    + eexists. split; [exact Hsub|apply format_mapIndex].
    + intros c rest E.
      assert (results <> []) as Hne by (intros ->; discriminate E).
      destruct (curated_head results Hne) as (g & rest' & EG & Hg & Hmax).
      rewrite format_mapIndex, EG in E. unfold Js.mapIndex in E. cbn [Js.mapIndexFrom] in E.
      injection E as <- _. cbn [rank score id content annotate].
      split; [reflexivity|]. split.
      * split.
        -- exists (Raw.similarity_score g). split; [by apply in_map|reflexivity].
        -- intros y Hy. apply in_map_iff in Hy as (x & <- & Hx). by apply Hmax.
      * exists g. by repeat split.
Qed.

End CurationFacts.

Section TermFacts.

Import QueryProcessor.

Lemma allChars_impl (P Q : ascii -> bool) s :
  (forall c, P c = true -> Q c = true) -> allChars P s = true -> allChars Q s = true.
Proof.
  intros H. induction s as [|c r IH]; simpl; [reflexivity|].
  rewrite !andb_true_iff. intros [Hc Hr]. split; [by apply H|by apply IH].
Qed.

(** The pieces of a split are made of characters of the text that are not
    separators. *)
Lemma split_allChars (P sep : ascii -> bool) s :
  allChars P s = true ->
  forall p, In p (Js.split sep s) -> allChars (fun c => P c && negb (sep c)) p = true.
Proof.
  induction s as [|c r IH]; simpl.
  - intros _ p [<-|[]]. reflexivity.
  - rewrite andb_true_iff. intros [Hc Hr] p.
    destruct (sep c) eqn:Sc.
    + destruct (Js.startsWithSep sep r); [by apply IH|].
      intros [<-|Hp]; [reflexivity|by apply IH].
    + destruct (Js.split sep r) as [|p0 ps] eqn:E.
      * intros [<-|[]]. simpl. by rewrite Hc, Sc.
      * intros [<-|Hp]; [|apply (IH Hr); by right].
        simpl. rewrite Hc, Sc. simpl. apply (IH Hr). by left.
Qed.

Lemma allChars_true s : allChars (fun _ => true) s = true.
Proof. induction s; simpl; auto. Qed.

Lemma isUpper_lowerChar c : Js.isUpper (Js.lowerChar c) = false.
Proof. destruct c as [[] [] [] [] [] [] [] []]; reflexivity. Qed.

Lemma toLowerCase_no_upper s :
  allChars (fun c => negb (Js.isUpper c)) (Js.toLowerCase s) = true.
Proof.
  induction s as [|c r IH]; simpl; [reflexivity|]. by rewrite isUpper_lowerChar, IH.
Qed.

Lemma camelCase_no_upper seen s :
  allChars (fun c => negb (Js.isUpper c)) s = true -> camelCase seen s = false.
Proof.
  revert seen. induction s as [|c r IH]; intros seen; simpl; [reflexivity|].
  rewrite andb_true_iff, negb_true_iff. intros [Hc Hr].
  destruct (Js.isLower c); [by apply IH|]. by rewrite Hc, andb_false_r.
Qed.

Lemma screamingSnake_no_upper s :
  allChars (fun c => negb (Js.isUpper c)) s = true ->
  screamingSnake s = true -> allChars (Js.between 95 95) s = true.
Proof.
  unfold screamingSnake. rewrite andb_true_iff. intros Hs [_ H].
  induction s as [|c r IH]; simpl in *; [reflexivity|].
  apply andb_true_iff in Hs as [Hc Hr]. apply andb_true_iff in H as [Hu Hr'].
  apply negb_true_iff in Hc. rewrite Hc in Hu. simpl in Hu. rewrite Hu. by apply IH.
Qed.

Lemma expansions_clean x w :
  In x (expand w) ->
  has stopWords x = false /\ allChars (fun c => negb (Js.isUpper c)) x = true.
Proof.
  intros H.
  assert (In x (flat_map snd queryExpansions)) as Hx.
  { apply in_flat_map in H as ([t rel] & Ht & Hin). apply in_flat_map.
    exists (t, rel). split; [assumption|]. simpl.
    destruct (Js.includes w t); [assumption|destruct Hin]. }
  assert (forallb (fun y => negb (has stopWords y) &&
                            allChars (fun c => negb (Js.isUpper c)) y)
                  (flat_map snd queryExpansions) = true) as F by (vm_compute; reflexivity).
  rewrite forallb_forall in F. apply F in Hx.
  apply andb_true_iff in Hx as [H1 H2]. apply negb_true_iff in H1. by split.
Qed.

(** X9.  Every term of a rewritten query is free of upper-case letters
    and is not a stop word.  So no term ever matches the camelCase
    pattern, a term matches the upper-case pattern only if it consists of
    underscores, and [hasTechnicalTerms] is decided by the three other
    patterns and by underscore-only terms. *)
Theorem rewritten_terms_lower_case_no_stop_words :
  forall query topK,
    (forall term, In term (terms (rewriteQuery query)) ->
       has stopWords term = false /\
       allChars (fun c => negb (Js.isUpper c)) term = true /\
       camelCase false term = false /\
       (screamingSnake term = true -> allChars (Js.between 95 95) term = true)) /\
    hasTechnicalTerms (queryComplexity (prepareSearchQuery query topK)) =
    existsb (fun term => screamingSnake term || twoDigits term || extension term ||
                         acronym term)
            (terms (rewriteQuery query)).
Proof.
  intros query topK.
  assert (forall term, In term (terms (rewriteQuery query)) ->
            has stopWords term = false /\
            allChars (fun c => negb (Js.isUpper c)) term = true) as H.
  { intros term Hin. unfold rewriteQuery in Hin. cbn [terms] in Hin.
    apply In_newSet, in_app_iff in Hin as [Hin|Hin]; [|by apply (expansions_clean _ _ Hin)].
    apply filter_In in Hin as [Hin Hs]. apply negb_true_iff in Hs. split; [assumption|].
    eapply allChars_impl; [|apply (split_allChars _ _ _ (toLowerCase_no_upper _) _ Hin)].
    intros c Hc. by apply andb_true_iff in Hc as [Hc _]. }
  split.
  - intros term Hin. destruct (H term Hin) as [H1 H2].
    split; [assumption|]. split; [assumption|].
    split; [by apply camelCase_no_upper|by apply screamingSnake_no_upper].
  - unfold prepareSearchQuery, analyzeQueryComplexity.
    cbn [queryComplexity hasTechnicalTerms].
    induction (terms (rewriteQuery query)) as [|t ts IH]; [reflexivity|].
    cbn [existsb]. rewrite IH by (intros term Ht; apply H; by right). f_equal.
    unfold isTechnicalTerm. cbn [existsb].
    rewrite (camelCase_no_upper false t) by (apply H; by left).
    by rewrite orb_false_r, !orb_assoc.
Qed.

End TermFacts.

Section ExtractFacts.

Import QueryProcessor.

Lemma prefix_refl s : String.prefix s s = true.
Proof. induction s as [|c r IH]; simpl; [reflexivity|]. by destruct (Ascii.ascii_dec c c). Qed.

Lemma prefix_trans a b c :
  String.prefix a b = true -> String.prefix b c = true -> String.prefix a c = true.
Proof.
  revert b c. induction a as [|x a IH]; intros [|y b] [|z c]; simpl; try congruence.
  destruct (Ascii.ascii_dec x y) as [->|]; [|discriminate].
  destruct (Ascii.ascii_dec y z) as [->|]; [|discriminate].
  apply IH.
Qed.

Lemma includes_prefix s p : String.prefix p s = true -> Js.includes s p = true.
Proof. destruct s; simpl; intros ->; reflexivity. Qed.

Lemma includes_cons c s p : Js.includes s p = true -> Js.includes (String c s) p = true.
Proof. intros H. cbn [Js.includes]. rewrite H. apply orb_true_r. Qed.

(** A prefix of a part of a text is a part of the text. *)
Lemma includes_prefix_of s x y :
  String.prefix y x = true -> Js.includes s x = true -> Js.includes s y = true.
Proof.
  intros Hy. induction s as [|c r IH]; cbn [Js.includes]; rewrite !orb_true_iff.
  - intros [H|H]; [|discriminate]. left. by apply (prefix_trans y x).
  - intros [H|H]; [left; by apply (prefix_trans y x)|right; by apply IH].
Qed.

Lemma split_head_empty sep s :
  Js.startsWithSep sep s = true -> exists ps, Js.split sep s = EmptyString :: ps.
Proof.
  induction s as [|c r IH]; simpl; [discriminate|]. intros ->.
  destruct (Js.startsWithSep sep r); [by apply IH|eauto].
Qed.

Lemma split_head_prefix sep s :
  exists p ps, Js.split sep s = p :: ps /\ String.prefix p s = true.
Proof.
  induction s as [|c r (p & ps & E & Hp)]; simpl; [by exists EmptyString, []|].
  destruct (sep c).
  - destruct (Js.startsWithSep sep r) eqn:S.
    + destruct (split_head_empty sep r S) as (ps' & ->). by exists EmptyString, ps'.
    + by exists EmptyString, (Js.split sep r).
  - rewrite E. exists (String c p), ps. split; [reflexivity|].
    simpl. by destruct (Ascii.ascii_dec c c).
Qed.

(** Every piece of a split is a part of the text. *)
Lemma split_includes sep s p : In p (Js.split sep s) -> Js.includes s p = true.
Proof.
  induction s as [|c r IH]; simpl.
  - intros [<-|[]]. reflexivity.
  - destruct (sep c).
    + destruct (Js.startsWithSep sep r).
      * intros H. rewrite (IH H). apply orb_true_r.
      * intros [<-|H]; [reflexivity|]. rewrite (IH H). apply orb_true_r.
    + destruct (split_head_prefix sep r) as (p0 & ps & E & Hp). rewrite E in *.
      intros [<-|H].
      * simpl. destruct (Ascii.ascii_dec c c); [|congruence]. by rewrite Hp.
      * rewrite IH by (by right). apply orb_true_r.
Qed.

Lemma trimStart_includes s : Js.includes s (Js.trimStart s) = true.
Proof.
  induction s as [|c r IH]; [reflexivity|]. cbn [Js.trimStart].
  destruct (Js.isWhiteSpace c); [by apply includes_cons|].
  apply includes_prefix, prefix_refl.
Qed.

Lemma trimEnd_prefix s : String.prefix (Js.trimEnd s) s = true.
Proof.
  induction s as [|c r IH]; [reflexivity|]. cbn [Js.trimEnd].
  destruct (Js.trimEnd r) as [|c' r'] eqn:E.
  - destruct (Js.isWhiteSpace c); [reflexivity|].
    simpl. by destruct (Ascii.ascii_dec c c).
  - simpl. destruct (Ascii.ascii_dec c c); [exact IH|congruence].
Qed.

Lemma trim_includes s : Js.includes s (Js.trim s) = true.
Proof.
  unfold Js.trim. eapply includes_prefix_of; [apply trimEnd_prefix|apply trimStart_includes].
Qed.

(** A part of a part of a text is a part of the text. *)
Lemma includes_trans s x y :
  Js.includes x y = true -> Js.includes s x = true -> Js.includes s y = true.
Proof.
  revert s. induction x as [|c x IH]; intros s; cbn [Js.includes]; rewrite orb_true_iff.
  - intros [H|H]; [|discriminate]. intros Hs. by apply (includes_prefix_of s EmptyString).
  - intros [H|H] Hs; [by apply (includes_prefix_of s (String c x))|].
    apply IH; [assumption|]. clear -Hs.
    induction s as [|d s IHs]; cbn [Js.includes] in Hs; apply orb_true_iff in Hs.
    + destruct Hs; discriminate.
    + destruct Hs as [Hs|Hs].
      * simpl in Hs. destruct (Ascii.ascii_dec c d); [|discriminate].
        apply includes_cons. by apply includes_prefix.
      * apply includes_cons. by apply IHs.
Qed.

Lemma allChars_trimStart P s : allChars P s = true -> allChars P (Js.trimStart s) = true.
Proof.
  induction s as [|c r IH]; [reflexivity|]. cbn [Js.trimStart].
  destruct (Js.isWhiteSpace c); [|tauto]. simpl. rewrite andb_true_iff. intros [_ H].
  by apply IH.
Qed.

Lemma allChars_trimEnd P s : allChars P s = true -> allChars P (Js.trimEnd s) = true.
Proof.
  induction s as [|c r IH]; [reflexivity|]. cbn [Js.trimEnd allChars].
  rewrite andb_true_iff. intros [Hc Hr]. specialize (IH Hr).
  destruct (Js.trimEnd r) as [|c' r'].
  - destruct (Js.isWhiteSpace c); [reflexivity|]. simpl. by rewrite Hc.
  - simpl in *. by rewrite Hc.
Qed.

(** X10.  At most three extracts are returned.  Each one is a non-empty
    part of the content, without white space at either end and without
    sentence punctuation, and contains, case apart, a word of the query
    that is longer than two characters.  A query without such a word has
    no extracts. *)
Theorem extracts_are_sentences_with_a_query_word :
  forall content query,
    let out := extractRelevantSentences content query in
    let words := Js.split Js.isWhiteSpace (Js.toLowerCase query) in
    (length out <= 3)%nat /\
    (forall s, In s out ->
       s <> EmptyString /\
       Js.includes content s = true /\
       Js.startsWithSep Js.isWhiteSpace s = false /\
       Js.endsWithSep Js.isWhiteSpace s = false /\
       allChars (fun c => negb (isSentenceEnd c)) s = true /\
       exists word, In word words /\ (2 < String.length word)%nat /\
                    Js.includes (Js.toLowerCase s) word = true) /\
    ((forall word, In word words -> (String.length word <= 2)%nat) -> out = []).
Proof.
  intros content query out words. subst out words. unfold extractRelevantSentences.
  split; [apply firstn_le_length|]. split.
  - intros s Hs. apply In_firstn in Hs.
    apply filter_In in Hs as [Hs Hrel]. apply filter_In in Hs as [Hs Hlen].
    apply in_map_iff in Hs as (piece & <- & Hp).
    apply Nat.ltb_lt in Hlen.
    split; [intros E; rewrite E in Hlen; simpl in Hlen; lia|].
    split; [eapply includes_trans; [apply trim_includes|by apply (split_includes isSentenceEnd)]|].
    split; [apply startsWithSep_trimEnd, startsWithSep_trimStart|].
    split; [apply endsWithSep_trimEnd|]. split.
    + apply allChars_trimEnd, allChars_trimStart.
      eapply allChars_impl;
        [|apply (split_allChars (fun _ => true) isSentenceEnd content (allChars_true _) _ Hp)].
      intros c Hc. exact Hc.
    + apply existsb_exists in Hrel as (word & Hw & Hinc).
      apply filter_In in Hw as [Hw Hl]. apply Nat.ltb_lt in Hl. eauto.
  - intros Hshort.
    rewrite (filter_none (fun t => (2 <? String.length t)%nat)).
    + simpl. rewrite filter_none; [reflexivity|]. intros a _. reflexivity.
    + intros a Ha. apply Nat.ltb_ge. by apply Hshort.
Qed.

End ExtractFacts.

Section SuggestionFacts.

Import QueryProcessor.

Lemma length_toLowerCase s : String.length (Js.toLowerCase s) = String.length s.
Proof. induction s as [|c r IH]; simpl; [reflexivity|by rewrite IH]. Qed.

Lemma length_append a b :
  String.length (a +:+ b) = (String.length a + String.length b)%nat.
Proof. induction a as [|c a IH]; simpl; [reflexivity|by rewrite IH]. Qed.

Lemma prefixed_not_lowered p query :
  p <> EmptyString -> p +:+ query <> Js.toLowerCase query.
Proof.
  intros Hp E. apply (f_equal String.length) in E.
  rewrite length_append, length_toLowerCase in E.
  destruct p; [congruence|simpl in E; lia].
Qed.

(** A text without white space splits into itself. *)
Lemma split_word sep s :
  allChars (fun c => negb (sep c)) s = true -> Js.split sep s = [s].
Proof.
  induction s as [|c r IH]; simpl; [reflexivity|].
  rewrite andb_true_iff, negb_true_iff. intros [-> Hr]. by rewrite IH.
Qed.

Lemma toLowerCase_no_space s :
  allChars (fun c => negb (Js.isWhiteSpace c)) s = true ->
  allChars (fun c => negb (Js.isWhiteSpace c)) (Js.toLowerCase s) = true.
Proof.
  induction s as [|c r IH]; simpl; [reflexivity|].
  rewrite isWhiteSpace_lowerChar, !andb_true_iff. intros [Hc Hr]. split; auto.
Qed.

(** X11.  The suggestions are distinct, at least three and at most five,
    none is empty and none is the lower-cased query itself.  For a query
    of one word they are the three prefixed forms. *)
Theorem suggestions_distinct_three_to_five :
  forall query,
    let out := generateSuggestions query in
    List.NoDup out /\
    (3 <= length out <= 5)%nat /\
    (forall x, In x out -> x <> EmptyString /\ x <> Js.toLowerCase query) /\
    (allChars (fun c => negb (Js.isWhiteSpace c)) query = true ->
     out = ["how to " +:+ query; "what is " +:+ query; "configure " +:+ query]).
Proof.
  intros query out. subst out. unfold generateSuggestions.
  set (lowered := Js.toLowerCase query).
  set (words := Js.split Js.isWhiteSpace lowered).
  set (variations := flat_map _ (seq 0 (length words))).
  set (fixed := ["how to " +:+ query; "what is " +:+ query; "configure " +:+ query]).
  assert (forall x, In x variations -> x <> EmptyString /\ x <> lowered) as Hvar.
  { intros x Hx. apply in_flat_map in Hx as (i & _ & Hx).
    destruct (String.eqb (Js.join " " (withoutIndex i words)) "") eqn:E1;
      [destruct Hx|].
    destruct (String.eqb (Js.join " " (withoutIndex i words)) lowered) eqn:E2;
      [destruct Hx|].
    destruct Hx as [<-|[]]. split; by apply String.eqb_neq. }
  assert (forall x, In x fixed -> x <> EmptyString /\ x <> lowered) as Hfix.
  { intros x [<-|[<-|[<-|[]]]]; (split; [discriminate|by apply prefixed_not_lowered]). }
  assert (List.NoDup fixed) as Hnd.
  { repeat constructor; simpl; intros H; repeat destruct H as [H|H]; try discriminate H;
      exact H. }
  split; [|split; [|split]].
  - apply NoDup_ListNoDup. eapply sublist_NoDup; [|apply sublist_take].
    apply NoDup_ListNoDup, NoDup_newSet.
  - rewrite length_firstn.
    assert (3 <= length (Js.newSet (variations ++ fixed)))%nat; [|lia].
    apply (NoDup_incl_length Hnd). intros x Hx. apply In_newSet, in_app_iff. by right.
  - intros x Hx. apply In_firstn, In_newSet, in_app_iff in Hx as [Hx|Hx]; auto.
  - intros Hword.
    assert (variations = []) as ->; [|reflexivity].
    unfold variations, words, lowered.
    rewrite (split_word _ _ (toLowerCase_no_space _ Hword)). reflexivity.
Qed.

End SuggestionFacts.

(** ** The handlers: cached answers, withheld answers, statistics *)

Section HandlerMoreFacts.

Import RAGController.

Lemma getCacheTTL_cases query : _getCacheTTL query = 300 \/ _getCacheTTL query = 600.
Proof. unfold _getCacheTTL. destruct (10 <? _)%nat; auto. Qed.

Lemma timerDelay_getCacheTTL query :
  CacheService.timerDelay (_getCacheTTL query * 1000) = _getCacheTTL query * 1000.
Proof. destruct (getCacheTTL_cases query) as [-> | ->]; reflexivity. Qed.

Lemma ttlOrDefault_getCacheTTL query :
  CacheService.ttlOrDefault (Some (_getCacheTTL query)) = _getCacheTTL query.
Proof. destruct (getCacheTTL_cases query) as [-> | ->]; reflexivity. Qed.

(** X12.  A search answer that passes the quality gate is served from the
    cache to the same request for as long as its TTL has not elapsed,
    whatever is cached or deleted under other keys in the meantime: the
    second response carries the first response unchanged, the backend is
    not consulted (it may even have become unavailable), and the cache is
    left as it is. *)
Theorem valid_search_answer_is_served_from_cache :
  forall env env' req w w2 ops verdict,
    CacheService.reachable (cache w) ->
    Spec.searchVerdict env req w = Some verdict ->
    isValid verdict = true ->
    let first := searchDocuments env req w in
    cache w2 = CacheService.run ops (cache (snd first)) ->
    Forall (CacheService.leaves (Spec.searchKey req)) ops ->
    CacheService.clock (cache w2) <
      CacheService.clock (cache (snd first)) + Spec.answerTTL req * 1000 ->
    exists response,
      fst first = {| status := 200; body := SearchBody response |} /\
      let second := searchDocuments env' req w2 in
      fst second =
        {| status := 200; body := CachedBody (Js.Obj (SearchPayload response)) |} /\
      cache (snd second) = cache w2.
Proof.
  intros env env' req w w2 ops verdict R Hv Hvalid first Hw2 Hops Hclock.
  subst first. unfold Spec.searchKey, Spec.answerTTL in *.
  unfold searchDocuments, Spec.searchVerdict, invalidQuery in *.
  destruct (req_query req) as [query|]; [|discriminate].
  destruct (String.length (Js.trim query) =? 0)%nat; [discriminate|].
  cbn [from_option Datatypes.id] in *.
  set (key := ("search:" +:+ query +:+ ":" +:+ _)%string) in *.
  destruct (Js.truthy (CacheService.getCachedResult key (cache w))); [discriminate|].
  destruct (retrieval_search env query _ _) as [reply|message]; [|discriminate].
  injection Hv as Hv.
  destruct (searchAnswered_spec env query (req_user_id req) key (now w) reply
              (await (retrieval_latency env) w)) as (response & E1 & _ & _ & E4).
  rewrite Hv, Hvalid in E4. rewrite E4 in Hw2, Hclock.
  unfold cacheResult, CacheService.cacheResult, await in Hw2, Hclock.
  cbn [cache snd] in Hw2, Hclock. rewrite ttlOrDefault_getCacheTTL in Hw2, Hclock.
  rewrite <- (timerDelay_getCacheTTL query) in Hclock.
  assert (CacheService.reachable (CacheService.elapse (retrieval_latency env) (cache w)))
    as R1 by apply (CacheService.reachable_step (CacheService.OpElapse _) _ R).
  destruct (set_spec key (Js.Obj (SearchPayload response)) (_getCacheTTL query)
              _ (wf_reachable _ R1)) as (_ & _ & _ & _ & _ & Ecl & _).
  rewrite Ecl in Hclock.
  destruct (read_after_set key (Js.Obj (SearchPayload response)) (_getCacheTTL query) ops
              _ R1 Hops) as (_ & _ & G).
  { rewrite <- Hw2. exact Hclock. }
  rewrite <- Hw2 in G. cbn [Js.truthy] in G.
  exists response. split; [exact E1|].
  unfold CacheService.getCachedResult. rewrite G. cbn [Js.truthy fst snd].
  split; [reflexivity|]. apply cache_record.
Qed.

(** X13.  When the backend answers an LLM request, the response carries the
    backend's answer and sources only if the quality gate passes.  When
    the gate fails, the answer is replaced by the fixed low-quality notice,
    no source is returned, and the reason of the verdict is reported. *)
Theorem gated_llm_answer_is_withheld :
  forall env req w verdict query reply,
    req_query req = Some query ->
    Spec.llmVerdict env req w = Some verdict ->
    retrieval_llm env query (req_user_id req) (default 5 (req_top_k req)) = Returns reply ->
    exists response,
      fst (queryDocumentsWithLLM env req w) =
        {| status := 200; body := LlmBody response |} /\
      llm_retrieval_gated response = negb (isValid verdict) /\
      (isValid verdict = false ->
       answer response = lowQualityAnswer /\
       sources response = [] /\
       total_sources response = 0%nat /\
       llm_similarity_score_range response = "N/A" /\
       llm_gating_reason response = Some (reason verdict)) /\
      (isValid verdict = true ->
       answer response = llm_reply_answer reply /\
       sources response = map formatResult (llm_reply_sources reply) /\
       total_sources response = length (llm_reply_sources reply) /\
       llm_gating_reason response = None).
Proof.
  intros env req w verdict query reply Hq Hv Hr.
  unfold queryDocumentsWithLLM, Spec.llmVerdict, invalidQuery in *.
  rewrite Hq in *.
  destruct (String.length (Js.trim query) =? 0)%nat; [discriminate|].
  cbn [from_option Datatypes.id] in *.
  set (key := ("llm:" +:+ query +:+ ":" +:+ _)%string) in *.
  destruct (Js.truthy (CacheService.getCachedResult key (cache w))); [discriminate|].
  rewrite Hr in *. injection Hv as Hv.
  unfold llmAnswered. rewrite Hv. cbn [fst].
  eexists. split; [reflexivity|].
  cbn [llm_retrieval_gated answer sources total_sources llm_similarity_score_range
       llm_gating_reason].
  split; [reflexivity|].
  split; intros ->; repeat split. apply length_map.
Qed.

(** The row that [_recordQueryAsync] hands to the database. *)
Lemma record_row env queryData w :
  exists row,
    query_id row = ("qry_" +:+ query_uuid env)%string /\
    row_user_id row = Js.orStr (data_user_id queryData) None /\
    row_results_count row = results_count queryData /\
    query_text row = None /\
    response_time_ms row = None /\
    recorded (_recordQueryAsync env queryData w) =
      match insert_query env row with
      | Returns _ => recorded w ++ [row]
      | Throws _ => recorded w
      end.
Proof.
  unfold _recordQueryAsync, recordQuery. cbv zeta.
  match goal with |- context [insert_query env ?r] => exists r end.
  do 5 (split; [reflexivity|]).
  by destruct (insert_query env _).
Qed.

Lemma search_recorded env req w :
  let out := searchDocuments env req w in
  (status (fst out) = 200%nat /\
   exists row,
     query_id row = ("qry_" +:+ query_uuid env)%string /\
     row_user_id row = Js.orStr (req_user_id req) None /\
     query_text row = None /\
     response_time_ms row = None /\
     recorded (snd out) =
       match insert_query env row with
       | Returns _ => recorded w ++ [row]
       | Throws _ => recorded w
       end) \/
  (status (fst out) = 400%nat /\ snd out = w /\ invalidQuery (req_query req) = true) \/
  (status (fst out) = 500%nat /\ recorded (snd out) = recorded w /\
   invalidQuery (req_query req) = false).
Proof.
  intros out. subst out. unfold searchDocuments.
  destruct (invalidQuery (req_query req)) eqn:Inv; [right; left; by repeat split|].
  destruct (req_query req) as [query|] eqn:Hq; [|discriminate].
  cbn [from_option Datatypes.id].
  set (key := ("search:" +:+ query +:+ ":" +:+ _)%string).
  destruct (Js.truthy (CacheService.getCachedResult key (cache w))).
  { destruct (CacheService.getCachedResult key (cache w)) as [| | | | | |[c| |]];
      try (right; right; by repeat split).
    left. split; [reflexivity|]. cbn [snd].
    match goal with |- context [_recordQueryAsync env ?d w] =>
      destruct (record_row env d w) as (row & R1 & R2 & _ & R4 & R5 & R6) end.
    exists row. by repeat split. }
  destruct (retrieval_search env query _ _) as [reply|message];
    [|right; right; by repeat split].
  left. unfold searchAnswered. cbn [fst snd status body].
  set (v := _validateRetrievalQuality _ _).
  set (w1 := if isValid v then _ else _).
  assert (recorded w1 = recorded w) as Hrec
    by (unfold w1; destruct (isValid v); reflexivity).
  split; [reflexivity|].
  match goal with |- context [_recordQueryAsync env ?d w1] =>
    destruct (record_row env d w1) as (row & R1 & R2 & _ & R4 & R5 & R6) end.
  exists row. rewrite Hrec in R6. by repeat split.
Qed.

Lemma llm_recorded env req w :
  let out := queryDocumentsWithLLM env req w in
  (status (fst out) = 200%nat /\
   exists row,
     query_id row = ("qry_" +:+ query_uuid env)%string /\
     row_user_id row = Js.orStr (req_user_id req) None /\
     query_text row = None /\
     response_time_ms row = None /\
     recorded (snd out) =
       match insert_query env row with
       | Returns _ => recorded w ++ [row]
       | Throws _ => recorded w
       end) \/
  (status (fst out) = 400%nat /\ snd out = w /\ invalidQuery (req_query req) = true) \/
  (status (fst out) = 500%nat /\ recorded (snd out) = recorded w /\
   invalidQuery (req_query req) = false).
Proof.
  intros out. subst out. unfold queryDocumentsWithLLM.
  destruct (invalidQuery (req_query req)) eqn:Inv; [right; left; by repeat split|].
  destruct (req_query req) as [query|] eqn:Hq; [|discriminate].
  cbn [from_option Datatypes.id].
  set (key := ("llm:" +:+ query +:+ ":" +:+ _)%string).
  destruct (Js.truthy (CacheService.getCachedResult key (cache w))).
  { destruct (CacheService.getCachedResult key (cache w)) as [| | | | | |[|c|]];
      try (right; right; by repeat split).
    left. split; [reflexivity|]. cbn [snd].
    match goal with |- context [_recordQueryAsync env ?d w] =>
      destruct (record_row env d w) as (row & R1 & R2 & _ & R4 & R5 & R6) end.
    exists row. by repeat split. }
  destruct (retrieval_llm env query _ _) as [reply|message];
    [|right; right; by repeat split].
  left. unfold llmAnswered. cbn [fst snd status body].
  set (v := _validateRetrievalQuality _ _).
  set (w1 := if isValid v then _ else _).
  assert (recorded w1 = recorded w) as Hrec
    by (unfold w1; destruct (isValid v); reflexivity).
  split; [reflexivity|].
  match goal with |- context [_recordQueryAsync env ?d w1] =>
    destruct (record_row env d w1) as (row & R1 & R2 & _ & R4 & R5 & R6) end.
  exists row. rewrite Hrec in R6. by repeat split.
Qed.

(** The answer and the cache do not depend on the database of queries. *)
Lemma search_answer_env env env' req w :
  retrieval_search env' = retrieval_search env ->
  retrieval_latency env' = retrieval_latency env ->
  fst (searchDocuments env' req w) = fst (searchDocuments env req w) /\
  cache (snd (searchDocuments env' req w)) = cache (snd (searchDocuments env req w)).
Proof.
  intros Es El. unfold searchDocuments. rewrite Es, El.
  destruct (invalidQuery (req_query req)); [by split|].
  destruct (Js.truthy _).
  { destruct (CacheService.getCachedResult _ _) as [| | | | | |[c| |]]; try (by split).
    cbn [fst snd]. by rewrite !cache_record. }
  destruct (retrieval_search env _ _ _) as [reply|message]; [|by split].
  unfold searchAnswered. cbn [fst snd]. by rewrite !cache_record.
Qed.

Lemma llm_answer_env env env' req w :
  retrieval_llm env' = retrieval_llm env ->
  retrieval_latency env' = retrieval_latency env ->
  fst (queryDocumentsWithLLM env' req w) = fst (queryDocumentsWithLLM env req w) /\
  cache (snd (queryDocumentsWithLLM env' req w)) =
  cache (snd (queryDocumentsWithLLM env req w)).
Proof.
  intros Es El. unfold queryDocumentsWithLLM. rewrite Es, El.
  destruct (invalidQuery (req_query req)); [by split|].
  destruct (Js.truthy _).
  { destruct (CacheService.getCachedResult _ _) as [| | | | | |[|c|]]; try (by split).
    cbn [fst snd]. by rewrite !cache_record. }
  destruct (retrieval_llm env _ _ _) as [reply|message]; [|by split].
  unfold llmAnswered. cbn [fst snd]. by rewrite !cache_record.
Qed.

(** X14.  Both query handlers answer with status 200, 400 or 500.  A
    request answered with 200 hands one row to the table of queries,
    with a fresh identifier and the user of the request but without the
    text of the query and without the response time, which
    [recordQuery] reads from fields that the handlers do not set; the
    row is stored if the database accepts it, and nothing is stored if
    the insert throws.  A request without a non-blank query is answered
    with 400 and changes nothing.  A request answered with 500 stores
    nothing.  Neither the response nor the cache depends on what the
    database does. *)
Theorem answered_requests_insert_at_most_one_row :
  forall env req w handler,
    handler = searchDocuments \/ handler = queryDocumentsWithLLM ->
    let out := handler env req w in
    ((status (fst out) = 200%nat /\
      exists row,
        query_id row = ("qry_" +:+ query_uuid env)%string /\
        row_user_id row = Js.orStr (req_user_id req) None /\
        query_text row = None /\
        response_time_ms row = None /\
        recorded (snd out) =
          match insert_query env row with
          | Returns _ => recorded w ++ [row]
          | Throws _ => recorded w
          end) \/
     (status (fst out) = 400%nat /\ snd out = w /\ invalidQuery (req_query req) = true) \/
     (status (fst out) = 500%nat /\ recorded (snd out) = recorded w /\
      invalidQuery (req_query req) = false)) /\
    (forall env',
       retrieval_search env' = retrieval_search env ->
       retrieval_llm env' = retrieval_llm env ->
       retrieval_latency env' = retrieval_latency env ->
       fst (handler env' req w) = fst out /\
       cache (snd (handler env' req w)) = cache (snd out)).
Proof.
  intros env req w handler [-> | ->] out; subst out; split.
  - apply search_recorded.
  - intros env' Es _ El. by apply search_answer_env.
  - apply llm_recorded.
  - intros env' _ Es El. by apply llm_answer_env.
Qed.

End HandlerMoreFacts.

(** ** Insertion-ordered maps and slices *)

Section JsMapFacts.

Context {V : Type}.
Implicit Types (m : JsMap.t V) (k : string) (v : V).

Lemma get_set_eq k v m : JsMap.get k (JsMap.set k v m) = Some v.
Proof.
  unfold JsMap.get. induction m as [|[k' v'] m IH]; simpl.
  - by rewrite String.eqb_refl.
  - destruct (String.eqb k' k) eqn:E; simpl; rewrite E; [reflexivity|exact IH].
Qed.

Lemma get_set_ne k k' v m : k' <> k -> JsMap.get k' (JsMap.set k v m) = JsMap.get k' m.
Proof.
  intros Hne. unfold JsMap.get. induction m as [|[k0 v0] m IH]; simpl.
  - by rewrite (proj2 (String.eqb_neq k k')) by congruence.
  - destruct (String.eqb k0 k) eqn:E; simpl.
    + apply String.eqb_eq in E. subst k0.
      by rewrite (proj2 (String.eqb_neq k k')) by congruence.
    + destruct (String.eqb k0 k'); [reflexivity|exact IH].
Qed.

Lemma get_delete_eq k m : JsMap.get k (JsMap.delete k m) = None.
Proof.
  unfold JsMap.get, JsMap.delete. induction m as [|[k0 v0] m IH]; simpl; [reflexivity|].
  destruct (String.eqb k0 k) eqn:E; simpl; [exact IH|]. by rewrite E.
Qed.

Lemma get_delete_ne k k' m : k' <> k -> JsMap.get k' (JsMap.delete k m) = JsMap.get k' m.
Proof.
  intros Hne. unfold JsMap.get, JsMap.delete.
  induction m as [|[k0 v0] m IH]; simpl; [reflexivity|].
  destruct (String.eqb k0 k) eqn:E; simpl.
  - apply String.eqb_eq in E. subst k0.
    by rewrite (proj2 (String.eqb_neq k k')) by congruence.
  - destruct (String.eqb k0 k'); [reflexivity|exact IH].
Qed.

Lemma has_get k m :
  JsMap.has k m = match JsMap.get k m with Some _ => true | None => false end.
Proof.
  unfold JsMap.has, JsMap.get. induction m as [|[k0 v0] m IH]; simpl; [reflexivity|].
  destruct (String.eqb k0 k); simpl; [reflexivity|exact IH].
Qed.

Lemma has_keys k m : JsMap.has k m = true <-> In k (map fst m).
Proof.
  unfold JsMap.has. rewrite existsb_exists, in_map_iff.
  split; intros (e & H1 & H2); exists e.
  - apply String.eqb_eq in H2. by split.
  - split; [assumption|by apply String.eqb_eq].
Qed.

Lemma get_In k v m : JsMap.get k m = Some v -> In (k, v) m.
Proof.
  unfold JsMap.get. destruct (List.find _ m) as [[k0 v0]|] eqn:E; [|discriminate].
  simpl. intros [= <-]. apply find_some in E as [Hin E]. simpl in E.
  apply String.eqb_eq in E. by subst.
Qed.

Lemma keys_set k v m k' : In k' (map fst (JsMap.set k v m)) <-> k' = k \/ In k' (map fst m).
Proof.
  induction m as [|[k0 v0] m IH]; simpl; [intuition congruence|].
  destruct (String.eqb k0 k) eqn:E; simpl.
  - apply String.eqb_eq in E. subst k0. intuition congruence.
  - rewrite IH. tauto.
Qed.

Lemma In_set k v m e :
  List.NoDup (map fst m) ->
  In e (JsMap.set k v m) <-> e = (k, v) \/ (In e m /\ fst e <> k).
Proof.
  induction m as [|[k0 v0] m IH]; simpl; intros N.
  - intuition congruence.
  - inversion N as [|? ? Hn N']; subst.
    destruct (String.eqb k0 k) eqn:E; simpl.
    + apply String.eqb_eq in E. subst k0. split.
      * intros [<-|H]; [by left|]. right. split; [by right|].
        intros <-. apply Hn. by apply in_map.
      * intros [->|[[<-|H] Hne]]; [by left|by destruct Hne|by right].
    + apply String.eqb_neq in E. rewrite (IH N'). split.
      * intros [<-|[->|[H Hne]]]; [right; split; [by left|exact E]|by left|].
        right. split; [by right|exact Hne].
      * intros [->|[[<-|H] Hne]]; [right; by left|by left|]. right. right. by split.
Qed.

Lemma NoDup_set k v m : List.NoDup (map fst m) -> List.NoDup (map fst (JsMap.set k v m)).
Proof.
  induction m as [|[k0 v0] m IH]; simpl; intros N.
  - repeat constructor. intros [].
  - inversion N as [|? ? Hn N']; subst.
    destruct (String.eqb k0 k) eqn:E; simpl; [by constructor|].
    apply String.eqb_neq in E. constructor; [|by apply IH].
    rewrite keys_set. intros [->|H]; [by apply E|by apply Hn].
Qed.

Lemma size_set k v m :
  JsMap.size (JsMap.set k v m) =
  (JsMap.size m + match JsMap.get k m with Some _ => 0 | None => 1 end)%nat.
Proof.
  unfold JsMap.size, JsMap.get. induction m as [|[k0 v0] m IH]; simpl; [reflexivity|].
  destruct (String.eqb k0 k); simpl; [lia|]. rewrite IH. lia.
Qed.

Lemma values_set k v m x :
  In x (JsMap.values (JsMap.set k v m)) -> x = v \/ In x (JsMap.values m).
Proof.
  unfold JsMap.values. induction m as [|[k0 v0] m IH]; simpl.
  - intros [<-|[]]. by left.
  - destruct (String.eqb k0 k); simpl.
    + intros [<-|H]; [by left|right; by right].
    + intros [<-|H]; [right; by left|]. destruct (IH H); [by left|right; by right].
Qed.

Lemma keys_updateFirst p f m : map fst (JsMap.updateFirst p f m) = map fst m.
Proof.
  induction m as [|[k0 v0] m IH]; simpl; [reflexivity|].
  destruct (p v0); simpl; [reflexivity|by rewrite IH].
Qed.

Lemma In_updateFirst p f m k x :
  In (k, x) (JsMap.updateFirst p f m) ->
  In (k, x) m \/ exists x0, In (k, x0) m /\ p x0 = true /\ x = f x0.
Proof.
  induction m as [|[k0 v0] m IH]; simpl; [tauto|].
  destruct (p v0) eqn:E; simpl.
  - intros [[= <- <-]|H]; [right; exists v0; by repeat split; [left|..]|left; by right].
  - intros [H|H]; [left; by left|].
    destruct (IH H) as [H'|(x0 & H1 & H2 & H3)]; [left; by right|].
    right. exists x0. repeat split; try assumption. by right.
Qed.

(** The first value that satisfies [p] is updated. *)
Lemma updateFirst_first p f m pre k x post :
  m = pre ++ (k, x) :: post -> (forall e, In e pre -> p (snd e) = false) -> p x = true ->
  JsMap.updateFirst p f m = pre ++ (k, f x) :: post.
Proof.
  intros -> Hpre Hx. induction pre as [|[k0 v0] pre IH]; simpl.
  - by rewrite Hx.
  - assert (p v0 = false) as -> by (apply (Hpre (k0, v0)); by left).
    rewrite IH; [reflexivity|]. intros e He. apply Hpre. by right.
Qed.

Lemma updateFirst_none p f m :
  (forall e, In e m -> p (snd e) = false) -> JsMap.updateFirst p f m = m.
Proof.
  induction m as [|[k0 v0] m IH]; simpl; intros H; [reflexivity|].
  assert (p v0 = false) as -> by (apply (H (k0, v0)); by left).
  rewrite IH; [reflexivity|]. intros e He. apply H. by right.
Qed.

Lemma values_deleteAll p m :
  JsMap.values (JsMap.deleteAll p m) = List.filter (fun x => negb (p x)) (JsMap.values m).
Proof.
  unfold JsMap.values, JsMap.deleteAll. by rewrite filter_map_swap.
Qed.

End JsMapFacts.

Section SliceFacts.

Context {A : Type}.
Implicit Types (l : list A).

Lemma slice_nonneg a b l :
  0 <= a -> 0 <= b ->
  JsArray.slice a b l = firstn (Z.to_nat b - Z.to_nat a) (skipn (Z.to_nat a) l).
Proof.
  intros Ha Hb. unfold JsArray.slice, JsArray.sliceIndex.
  destruct (Z.ltb_spec a 0) as [|_]; [lia|]. destruct (Z.ltb_spec b 0) as [|_]; [lia|].
  set (len := Z.of_nat (length l)).
  destruct (Z.le_gt_cases len a) as [Hge|Hlt].
  - rewrite !skipn_all2 by lia. by rewrite !firstn_nil.
  - rewrite (Z.min_l a len) by lia.
    destruct (Z.le_gt_cases b len) as [Hb'|Hb'].
    + rewrite (Z.min_l b len) by lia. f_equal. lia.
    + rewrite (Z.min_r b len) by lia.
      rewrite !firstn_all2; [reflexivity| |]; rewrite length_skipn; lia.
Qed.

Lemma slice_sublist a b l : sublist (JsArray.slice a b l) l.
Proof.
  unfold JsArray.slice. etransitivity; [apply sublist_take|apply sublist_drop].
Qed.

Lemma slice_nil a b : JsArray.slice a b ([] : list A) = [].
Proof. unfold JsArray.slice. by rewrite skipn_nil, firstn_nil. Qed.

End SliceFacts.

Section SortAscFacts.

Context {A : Type} (key : A -> Z).

Lemma sortAsc_Permutation l : Permutation (JsArray.sortAsc key l) l.
Proof. apply sortDesc_Permutation. Qed.

Lemma sortAsc_ascending l : Spec.ascending key (JsArray.sortAsc key l).
Proof.
  pose proof (sortDesc_desc (fun a => inject_Z (- key a)) l) as H.
  unfold Spec.ascending, Spec.descending, JsArray.sortAsc in *.
  induction H as [|a r Hr IH Ha]; constructor; [exact IH|].
  eapply List.Forall_impl; [|exact Ha]. intros b Hb. simpl in Hb.
  rewrite <- Zle_Qle in Hb. lia.
Qed.

End SortAscFacts.

(** ** The in-memory document service *)

Section DocumentServiceFacts.

Import MemoryDocumentService.

Variable sha256 : string -> string.
Variable uuidv4 : nat -> string.

Implicit Types (s : state).

Local Abbreviation createDocument := (MemoryDocumentService.createDocument sha256 uuidv4).
Local Abbreviation createDocumentChunks :=
  (MemoryDocumentService.createDocumentChunks sha256 uuidv4).
Local Abbreviation storeChunk := (MemoryDocumentService.storeChunk sha256 uuidv4).
Local Abbreviation step := (MemoryDocumentService.step sha256 uuidv4).
Local Abbreviation reachable := (MemoryDocumentService.reachable sha256 uuidv4).

Lemma orFresh_spec given prefix n :
  orFresh uuidv4 given prefix n =
  match Js.orStr given None with
  | Some i => (i, n)
  | None => ((prefix +:+ uuidv4 n)%string, S n)
  end.
Proof. reflexivity. Qed.

(** X15.  A document that has been created can be read back under the
    identifier that [createDocument] returns: the given identifier, or
    a generated one when none (or an empty one) is given.  The record
    carries the given title, author and source, the given status or
    [pending], and the checksum of the content; a queued ingestion job
    for the document is stored under the returned job identifier; the
    other documents and all chunks are untouched; and the number of
    documents grows by one unless the identifier was already in use. *)
Theorem created_document_reads_back :
  forall data now s,
    let out := createDocument data now s in
    let i := created_document_id (fst out) in
    let s' := snd out in
    i = default ("doc_" +:+ uuidv4 (drawn s))%string
          (Js.orStr (DocumentData.document_id data) None) /\
    (exists d, getDocumentById i s' = Some d /\
       document_id d = i /\
       title d = DocumentData.title data /\
       author d = DocumentData.author data /\
       source d = DocumentData.source data /\
       status d = default "pending" (Js.orStr (DocumentData.status data) None) /\
       checksum d = sha256 (default EmptyString (DocumentData.content data))) /\
    (forall k, k <> i -> getDocumentById k s' = getDocumentById k s) /\
    (exists j, JsMap.get (created_job_id (fst out)) (jobs s') = Some j /\
       job_document_id j = i /\ job_status j = "queued") /\
    chunks s' = chunks s /\
    document_count (getStats s') =
      (document_count (getStats s) +
       match getDocumentById i s with Some _ => 0 | None => 1 end)%nat.
Proof.
  intros data now s out i s'. subst i s' out.
  unfold MemoryDocumentService.createDocument. rewrite orFresh_spec.
  destruct (Js.orStr (DocumentData.document_id data) None) as [given|] eqn:Eid;
    cbn [fst snd created_document_id created_job_id from_option Datatypes.id];
    unfold getDocumentById, getStats;
    cbn [documents jobs chunks document_count].
  all: split; [reflexivity|].
  all: split; [eexists; split; [apply get_set_eq|];
               cbn [document_id title author source status checksum];
               repeat split;
               [destruct (DocumentData.status data) as [[|? ?]|]; reflexivity
               |destruct (DocumentData.content data) as [[|? ?]|]; reflexivity]|].
  all: split; [intros k Hk; by apply get_set_ne|].
  all: split; [eexists; split; [apply get_set_eq|]; by split|].
  all: split; [reflexivity|apply size_set].
Qed.

Lemma filter_filter_other {B} (f : B -> string) (k k' : string) (l : list B) :
  k <> k' ->
  List.filter (fun x => String.eqb (f x) k)
    (List.filter (fun x => negb (String.eqb (f x) k')) l) =
  List.filter (fun x => String.eqb (f x) k) l.
Proof.
  intros Hne. induction l as [|x l IH]; simpl; [reflexivity|].
  destruct (String.eqb (f x) k') eqn:E'; simpl.
  - apply String.eqb_eq in E'.
    rewrite (proj2 (String.eqb_neq (f x) k)) by congruence. exact IH.
  - by rewrite IH.
Qed.

(** X16.  Deleting a document removes the document, all its chunks and
    all its jobs, and reports whether the document existed; a second
    deletion reports 0.  The other documents, and their chunks and jobs,
    are untouched. *)
Theorem delete_document_cascades :
  forall documentId limit s,
    let out := deleteDocument documentId s in
    let s' := snd out in
    fst out = match getDocumentById documentId s with Some _ => 1 | None => 0 end%nat /\
    getDocumentById documentId s' = None /\
    getDocumentChunksByDocumentId documentId limit s' = [] /\
    (forall j, In j (JsMap.values (jobs s')) -> job_document_id j <> documentId) /\
    fst (deleteDocument documentId s') = 0%nat /\
    (forall k, k <> documentId ->
       getDocumentById k s' = getDocumentById k s /\
       getDocumentChunksByDocumentId k limit s' = getDocumentChunksByDocumentId k limit s /\
       List.filter (fun j => String.eqb (job_document_id j) k) (JsMap.values (jobs s')) =
       List.filter (fun j => String.eqb (job_document_id j) k) (JsMap.values (jobs s))).
Proof.
  intros documentId limit s out s'. subst s' out.
  unfold deleteDocument, getDocumentById, getDocumentChunksByDocumentId.
  cbn [fst snd documents chunks jobs].
  split; [rewrite has_get; by destruct (JsMap.get _ _)|].
  split; [apply get_delete_eq|].
  split.
  { rewrite values_deleteAll, (filter_none (fun chunk => String.eqb _ documentId)).
    - by rewrite slice_nil.
    - intros c Hc. apply filter_In in Hc as [_ Hc]. by apply negb_true_iff. }
  split.
  { intros j Hj. rewrite values_deleteAll in Hj. apply filter_In in Hj as [_ Hj].
    apply negb_true_iff in Hj. by apply String.eqb_neq. }
  split; [by rewrite has_get, get_delete_eq|].
  intros k Hk. split; [by apply get_delete_ne|].
  rewrite !values_deleteAll.
  split; [|by apply (filter_filter_other job_document_id)].
  by rewrite (filter_filter_other chunk_document_id).
Qed.

(** X17.  The chunk listing of a document contains chunks of that document
    only, in ascending chunk order, and each stored chunk at most once.
    For a limit that is not negative it is the first [limit] chunks of
    the document in insertion order, sorted: at most [limit] chunks, and
    all chunks of the document when there are no more than [limit]. *)
Theorem chunk_listing_sorted_and_bounded :
  forall documentId limit s,
    let out := getDocumentChunksByDocumentId documentId limit s in
    let stored :=
      List.filter (fun c => String.eqb (chunk_document_id c) documentId)
        (JsMap.values (chunks s)) in
    let n := default 100 limit in
    Spec.ascending chunk_order out /\
    (forall c, In c out -> chunk_document_id c = documentId) /\
    out ⊆+ JsMap.values (chunks s) /\
    (0 <= n ->
     Permutation out (firstn (Z.to_nat n) stored) /\
     (length out <= Z.to_nat n)%nat /\
     ((length stored <= Z.to_nat n)%nat -> Permutation out stored)).
Proof.
  intros documentId limit s out stored n. subst out.
  unfold getDocumentChunksByDocumentId. fold stored. fold n.
  pose proof (sortAsc_Permutation chunk_order (JsArray.slice 0 n stored)) as P.
  pose proof (slice_sublist 0 n stored) as S.
  split; [apply sortAsc_ascending|]. split; [|split].
  - intros c Hc. apply (Permutation_in _ P) in Hc.
    apply list_elem_of_In in Hc. apply (elem_of_sublist _ _ _ Hc) in S.
    apply list_elem_of_In, filter_In in S as [_ S]. by apply String.eqb_eq.
  - rewrite P. apply sublist_submseteq. etransitivity; [exact S|].
    apply sublist_list_filter.
  - intros Hn. rewrite slice_nonneg in P |- * by lia.
    change (Z.to_nat 0) with 0%nat in *. rewrite Nat.sub_0_r in *.
    change (skipn 0 stored) with stored in *. split; [exact P|]. split.
    + rewrite (Permutation_length P). apply firstn_le_length.
    + intros Hlen. rewrite firstn_all2 in P |- * by exact Hlen. exact P.
Qed.

(** X18.  The pages of [getAllDocuments] partition the documents in
    insertion order: for offsets and limits that are not negative, a page
    of [a] documents followed by the page of the next [b] documents is the
    page of [a + b] documents; a page has at most [limit] documents;
    [hasMore] holds exactly when documents remain after the page; and
    [total] is the number of stored documents. *)
Theorem document_pages_partition :
  forall offset a b s,
    0 <= offset -> 0 <= a -> 0 <= b ->
    let page o l := getAllDocuments (Some o) (Some l) s in
    page_documents (page offset a) ++ page_documents (page (offset + a) b) =
    page_documents (page offset (a + b)) /\
    (length (page_documents (page offset a)) <= Z.to_nat a)%nat /\
    (hasMore (page offset a) = true <-> offset + a < Z.of_nat (total (page offset a))) /\
    total (page offset a) = document_count (getStats s) /\
    page_documents (page 0 (Z.of_nat (total (page offset a)))) = JsMap.values (documents s).
Proof.
  intros offset a b s Ho Ha Hb page. subst page.
  unfold getAllDocuments, getStats.
  cbn [page_documents total hasMore document_count from_option Datatypes.id].
  set (all := JsMap.values (documents s)).
  rewrite !slice_nonneg by lia.
  replace (Z.to_nat (offset + a) - Z.to_nat offset)%nat with (Z.to_nat a) by lia.
  replace (Z.to_nat (offset + a + b) - Z.to_nat (offset + a))%nat with (Z.to_nat b) by lia.
  replace (Z.to_nat (offset + (a + b)) - Z.to_nat offset)%nat
    with (Z.to_nat a + Z.to_nat b)%nat by lia.
  replace (Z.to_nat (offset + a)) with (Z.to_nat offset + Z.to_nat a)%nat by lia.
  split; [by rewrite <- drop_drop, take_take_drop|].
  split; [apply firstn_le_length|]. split; [|split].
  - rewrite Z.ltb_lt, length_firstn, length_skipn. lia.
  - unfold all, JsMap.values, JsMap.size. apply length_map.
  - rewrite Z.add_0_l, Nat2Z.id. change (Z.to_nat 0) with 0%nat.
    rewrite Nat.sub_0_r. apply firstn_all.
Qed.

Lemma storeChunk_documents documentId now s chunk :
  documents (storeChunk documentId now s chunk) = documents s /\
  jobs (storeChunk documentId now s chunk) = jobs s.
Proof.
  unfold MemoryDocumentService.storeChunk. rewrite orFresh_spec.
  destruct (Js.orStr _ None); by split.
Qed.

Lemma storeChunk_ok documentId now s chunk :
  Spec.storeOk s -> Spec.storeOk (storeChunk documentId now s chunk).
Proof.
  intros [Kd Kc Kj Nd Nc Nj Jd].
  destruct (storeChunk_documents documentId now s chunk) as [Ed Ej].
  split; rewrite ?Ed, ?Ej; try assumption.
  - unfold MemoryDocumentService.storeChunk. rewrite orFresh_spec.
    destruct (Js.orStr _ None); cbn [chunks]; intros k c Hin;
      apply In_set in Hin as [[= -> ->]|[Hin _]]; try assumption; try reflexivity;
      by apply Kc.
  - unfold MemoryDocumentService.storeChunk. rewrite orFresh_spec.
    destruct (Js.orStr _ None); cbn [chunks]; by apply NoDup_set.
Qed.

Lemma fold_storeChunk_ok documentId now cs s :
  Spec.storeOk s ->
  Spec.storeOk (fold_left (storeChunk documentId now) cs s) /\
  documents (fold_left (storeChunk documentId now) cs s) = documents s /\
  jobs (fold_left (storeChunk documentId now) cs s) = jobs s.
Proof.
  revert s. induction cs as [|c cs IH]; intros s Ok; simpl; [split; [exact Ok|by split]|].
  destruct (IH _ (storeChunk_ok documentId now s c Ok)) as (Ok' & Ed & Ej).
  destruct (storeChunk_documents documentId now s c) as [Ed' Ej'].
  split; [exact Ok'|]. split; congruence.
Qed.

Lemma updateFirst_ok p f s (js : JsMap.t Job) :
  (forall j, job_id (f j) = job_id j /\ job_document_id (f j) = job_document_id j) ->
  Spec.storeOk s ->
  js = JsMap.updateFirst p f (jobs s) ->
  forall ds cs n,
    Spec.storeOk {| documents := ds; chunks := cs; jobs := jobs s; drawn := n |} ->
    Spec.storeOk {| documents := ds; chunks := cs; jobs := js; drawn := n |}.
Proof.
  intros Hf Ok -> ds cs n [Kd Kc Kj Nd Nc Nj Jd]. cbn [documents chunks jobs] in *.
  split; cbn [documents chunks jobs]; try assumption.
  - intros k j Hin. apply In_updateFirst in Hin as [Hin|(j0 & Hin & _ & ->)].
    + by apply Kj.
    + rewrite (proj1 (Hf j0)). by apply Kj.
  - by rewrite keys_updateFirst.
  - intros j Hj. apply in_map_iff in Hj as ([k j'] & <- & Hin). simpl.
    apply In_updateFirst in Hin as [Hin|(j0 & Hin & _ & ->)].
    + apply Jd. apply in_map_iff. by exists (k, j').
    + rewrite (proj2 (Hf j0)). apply Jd. apply in_map_iff. by exists (k, j0).
Qed.

Lemma storeOk_init : Spec.storeOk init.
Proof. split; simpl; try constructor; intros; tauto. Qed.

Lemma storeOk_step o s : Spec.storeOk s -> Spec.storeOk (step o s).
Proof.
  intros Ok. destruct o as [data now|documentId status now|documentId cs now|documentId];
    cbn [MemoryDocumentService.step].
  - destruct Ok as [Kd Kc Kj Nd Nc Nj Jd].
    unfold MemoryDocumentService.createDocument. rewrite orFresh_spec.
    destruct (Js.orStr (DocumentData.document_id data) None) as [given|];
      cbn [snd]; (split; cbn [documents chunks jobs]; try assumption;
      [intros k d Hin; apply In_set in Hin as [[= -> ->]|[Hin _]];
         [reflexivity|by apply Kd|assumption]
      |intros k j Hin; apply In_set in Hin as [[= -> ->]|[Hin _]];
         [reflexivity|by apply Kj|assumption]
      |by apply NoDup_set|by apply NoDup_set
      |intros j Hj; apply values_set in Hj as [->|Hj]; cbn [job_document_id];
         apply has_keys, keys_set; [by left|right; by apply has_keys, Jd]]).
  - unfold updateDocumentStatus.
    destruct (JsMap.get documentId (documents s)) as [document|] eqn:E; [|exact Ok].
    cbn [snd]. eapply updateFirst_ok; [|exact Ok|reflexivity|].
    { intros j. by split. }
    destruct Ok as [Kd Kc Kj Nd Nc Nj Jd].
    split; cbn [documents chunks jobs]; try assumption.
    + intros k d Hin. apply In_set in Hin as [[= -> ->]|[Hin _]]; [|by apply Kd|assumption].
      change (document_id document = documentId). apply Kd. by apply get_In.
    + by apply NoDup_set.
    + intros j Hj. apply has_keys, keys_set. right. by apply has_keys, Jd.
  - unfold MemoryDocumentService.createDocumentChunks.
    destruct cs as [[|c cs]|]; try exact Ok. cbn [snd].
    destruct (fold_storeChunk_ok documentId now (c :: cs) s Ok) as (Ok' & Ed & Ej).
    eapply updateFirst_ok; [|exact Ok'|reflexivity|].
    { intros j. by split. }
    by destruct (fold_left _ (c :: cs) s).
  - destruct Ok as [Kd Kc Kj Nd Nc Nj Jd]. unfold deleteDocument. cbn [snd].
    split; cbn [documents chunks jobs].
    + intros k d Hin. apply filter_In in Hin as [Hin _]. by apply Kd.
    + intros k c Hin. apply filter_In in Hin as [Hin _]. by apply Kc.
    + intros k j Hin. apply filter_In in Hin as [Hin _]. by apply Kj.
    + by apply NoDup_map_filter.
    + by apply NoDup_map_filter.
    + by apply NoDup_map_filter.
    + intros j Hj. rewrite values_deleteAll in Hj. apply filter_In in Hj as [Hj Hne].
      apply negb_true_iff, String.eqb_neq in Hne.
      apply has_keys. specialize (Jd j Hj). apply has_keys in Jd.
      apply in_map_iff in Jd as (e & He & Hin). apply in_map_iff. exists e.
      split; [assumption|]. apply filter_In. split; [assumption|].
      apply negb_true_iff, String.eqb_neq. congruence.
Qed.

Lemma storeOk_reachable s : reachable s -> Spec.storeOk s.
Proof. induction 1; [apply storeOk_init|by apply storeOk_step]. Qed.

Lemma NoDup_values_by_key {V} (f : V -> string) (m : JsMap.t V) :
  (forall k v, In (k, v) m -> f v = k) -> List.NoDup (map fst m) ->
  List.NoDup (map f (JsMap.values m)).
Proof.
  intros K N. unfold JsMap.values. rewrite map_map.
  rewrite (map_ext_in (fun e => f (snd e)) fst); [exact N|].
  intros [k v] Hin. simpl. by apply K.
Qed.

(** X19.  In every state the document service can reach, document
    identifiers, chunk identifiers and job identifiers are unique, every
    ingestion job belongs to a stored document, and the queued and the
    completed jobs together are not more than the jobs. *)
Theorem document_store_is_consistent :
  forall s,
    reachable s ->
    List.NoDup (map document_id (JsMap.values (documents s))) /\
    List.NoDup (map chunk_id (JsMap.values (chunks s))) /\
    List.NoDup (map job_id (JsMap.values (jobs s))) /\
    (forall j, In j (JsMap.values (jobs s)) ->
               exists d, getDocumentById (job_document_id j) s = Some d /\
                         document_id d = job_document_id j) /\
    (pending_jobs (getStats s) + completed_jobs (getStats s) <= job_count (getStats s))%nat.
Proof.
  intros s R. destruct (storeOk_reachable s R) as [Kd Kc Kj Nd Nc Nj Jd].
  split; [by apply NoDup_values_by_key|].
  split; [by apply NoDup_values_by_key|].
  split; [by apply NoDup_values_by_key|]. split.
  - intros j Hj. specialize (Jd j Hj). rewrite has_get in Jd. unfold getDocumentById.
    destruct (JsMap.get (job_document_id j) (documents s)) as [d|] eqn:E; [|discriminate].
    exists d. split; [reflexivity|]. apply Kd. by apply get_In.
  - unfold getStats. cbn [pending_jobs completed_jobs job_count].
    unfold JsMap.size. rewrite <- (length_map snd (jobs s)). fold (JsMap.values (jobs s)).
    generalize (JsMap.values (jobs s)). clear. intros js.
    induction js as [|j js IH]; simpl; [lia|].
    destruct (String.eqb (job_status j) "queued") eqn:E1.
    + apply String.eqb_eq in E1. rewrite E1. simpl. lia.
    + destruct (String.eqb (job_status j) "completed"); simpl; lia.
Qed.

Lemma countTokens_bounds text :
  4 * _countTokens text - 3 <= Z.of_nat (String.length text) <= 4 * _countTokens text.
Proof.
  unfold _countTokens. destruct text as [|c r]; [simpl; lia|].
  cbn [String.eqb]. set (n := Z.of_nat (String.length (String c r))).
  pose proof (Z.div_mod (n + 3) 4 ltac:(lia)) as D.
  pose proof (Z.mod_pos_bound (n + 3) 4 ltac:(lia)) as B. lia.
Qed.

(** What [storeChunk] makes of a chunk it is given. *)
Local Abbreviation stored documentId cs c :=
  (chunk_document_id c = documentId /\
   exists d, In d cs /\
     content c = ChunkData.content d /\
     hash_value c = sha256 (ChunkData.content d) /\
     chunk_order c = default 0 (ChunkData.chunk_order d) /\
     token_count c = match Js.orNum (ChunkData.token_count d) None with
                     | Some t => t
                     | None => _countTokens (ChunkData.content d)
                     end).

Lemma storeChunk_chunks documentId now s d :
  exists k c,
    chunks (storeChunk documentId now s d) = JsMap.set k c (chunks s) /\
    (forall i, Js.orStr (ChunkData.chunk_id d) None = Some i -> k = i) /\
    stored documentId [d] c.
Proof.
  unfold MemoryDocumentService.storeChunk. rewrite orFresh_spec.
  destruct (Js.orStr (ChunkData.chunk_id d) None) as [i|]; cbn [chunks];
    eexists _, _; (split; [reflexivity|]); (split; [intros i' [= ->] || intros i' [=]|]);
    try reflexivity; cbn [chunk_document_id content hash_value chunk_order token_count];
    (split; [reflexivity|]); exists d; (split; [by left|]);
    repeat (split; [reflexivity|]);
    (split; [by destruct (ChunkData.chunk_order d) as [[| |]|]
            |by destruct (ChunkData.token_count d) as [[| |]|]]).
Qed.

Lemma fold_storeChunk_chunks documentId now cs s :
  let s' := fold_left (storeChunk documentId now) cs s in
  (JsMap.size (chunks s) <= JsMap.size (chunks s') <= JsMap.size (chunks s) + length cs)%nat /\
  (forall c, In c (JsMap.values (chunks s')) ->
             In c (JsMap.values (chunks s)) \/ stored documentId cs c) /\
  (forall i, (exists c, JsMap.get i (chunks s) = Some c /\ chunk_document_id c = documentId) \/
             (exists d, In d cs /\ Js.orStr (ChunkData.chunk_id d) None = Some i) ->
             exists c, JsMap.get i (chunks s') = Some c /\ chunk_document_id c = documentId).
Proof.
  revert s. induction cs as [|d cs IH]; intros s; cbn [fold_left].
  - split; [simpl; lia|]. split; [by left|]. intros i [H|(d & [] & _)]. exact H.
  - destruct (IH (storeChunk documentId now s d)) as (Hsize & Hin & Hget).
    destruct (storeChunk_chunks documentId now s d) as (k & c0 & E & Hk & Hc0).
    rewrite E in *. rewrite size_set in Hsize. split; [|split].
    + simpl length. destruct (JsMap.get k (chunks s)); lia.
    + intros c Hc. destruct (Hin c Hc) as [H|(Hd & d' & Hd' & Hrest)].
      * apply values_set in H as [->|H]; [|by left]. right.
        destruct Hc0 as (Hd & d' & [<-|[]] & Hrest). split; [exact Hd|].
        exists d. split; [by left|exact Hrest].
      * right. split; [exact Hd|]. exists d'. split; [by right|exact Hrest].
    + intros i Hi. apply Hget.
      destruct (String.eqb_spec k i) as [->|Hne].
      * left. exists c0. split; [apply get_set_eq|apply Hc0].
      * destruct Hi as [(c & Hc & Hd)|(d' & [<-|Hd'] & Hid)].
        -- left. exists c. split; [by rewrite get_set_ne by congruence|exact Hd].
        -- destruct Hne. by apply Hk.
        -- right. by exists d'.
Qed.

(** X23.  [createDocumentChunks] reports the number of chunks it is given
    and leaves the documents alone.  Afterwards every stored chunk is
    either one that was stored before, or belongs to the document and
    carries the content, the hash of the content and the order of a given
    chunk, with the given token count or, when that is missing or 0, the
    estimate of one token per four characters, rounded up.  Every given
    chunk identifier resolves to a chunk of the document, and the number
    of stored chunks grows by at most the number of given chunks. *)
Theorem created_chunks_are_stored :
  forall documentId cs now s,
    let out := createDocumentChunks documentId (Some cs) now s in
    let s' := snd out in
    fst out = length cs /\
    documents s' = documents s /\
    (chunk_count (getStats s) <= chunk_count (getStats s') <=
     chunk_count (getStats s) + length cs)%nat /\
    (forall c, In c (JsMap.values (chunks s')) ->
       In c (JsMap.values (chunks s)) \/
       (chunk_document_id c = documentId /\
        exists d, In d cs /\
          content c = ChunkData.content d /\
          hash_value c = sha256 (ChunkData.content d) /\
          chunk_order c = default 0 (ChunkData.chunk_order d) /\
          token_count c = match Js.orNum (ChunkData.token_count d) None with
                          | Some t => t
                          | None => _countTokens (ChunkData.content d)
                          end)) /\
    (forall d i, In d cs -> Js.orStr (ChunkData.chunk_id d) None = Some i ->
       exists c, JsMap.get i (chunks s') = Some c /\ chunk_document_id c = documentId) /\
    (forall text,
       4 * _countTokens text - 3 <= Z.of_nat (String.length text) <= 4 * _countTokens text).
Proof.
  intros documentId cs now s out s'. subst s' out.
  destruct (fold_storeChunk_chunks documentId now cs s) as (Hsize & Hin & Hget).

  assert (documents (fold_left (storeChunk documentId now) cs s) = documents s) as Hdocs.
  { clear. revert s. induction cs as [|d cs IH]; intros s; simpl; [reflexivity|].
    rewrite IH. apply storeChunk_documents. }
  unfold MemoryDocumentService.createDocumentChunks, getStats.
  destruct cs as [|d cs].
  - cbn [fst snd chunk_count length]. split; [reflexivity|]. split; [reflexivity|].
    split; [lia|]. split; [by left|]. split; [intros d i []|apply countTokens_bounds].
  - cbn [fst snd chunk_count documents chunks]. split; [reflexivity|].
    split; [exact Hdocs|]. split; [exact Hsize|]. split; [exact Hin|].
    split; [|apply countTokens_bounds].
    intros d' i Hd' Hi. apply Hget. right. by exists d'.
Qed.

End DocumentServiceFacts.

(** ** Streaming *)

Section StreamFacts.

Import StreamingUtils.

Context {R Src : Type}.
Variable clock : nat -> string.

Lemma nth_error_mapIndexFrom {A B} (f : A -> nat -> B) i (l : list A) k :
  nth_error (Js.mapIndexFrom f i l) k = option_map (fun x => f x (i + k)%nat) (nth_error l k).
Proof.
  revert i k. induction l as [|a l IH]; intros i [|k]; simpl; try reflexivity.
  - by rewrite Nat.add_0_r.
  - rewrite IH. by rewrite Nat.add_succ_r.
Qed.

(** X24.  The stream of a query starts with a status event and ends with
    the final response, which counts the results.  When there are
    results, the events in between are the announcement of their number
    and then one event for each result, in the order of the results, with
    its index and the total.  The [n]-th event carries the [n]-th reading
    of the clock. *)
Theorem rag_stream_events_in_order :
  forall (searchResults : option (SearchResults R Src)) query,
    let events := createRagStream clock searchResults query in
    let found := field results searchResults in
    let n := length (default ([] : list R) found) in
    length events = (match found with Some _ => n + 3 | None => 2 end)%nat /\
    nth_error events 0 = Some (Status "Processing query..." (clock 0)) /\
    (exists answer sources range,
       nth_error events (length events - 1) =
       Some (FinalResponse query (default [] found) n answer sources range
               (clock (length events - 1)))) /\
    (forall l, found = Some l ->
       nth_error events 1 = Some (RetrievalResults n (clock 1)) /\
       forall i r, nth_error l i = Some r ->
         nth_error events (2 + i) = Some (RetrievalChunk i n r (clock (2 + i)))) /\
    (forall k e, nth_error events k = Some e -> timestamp e = clock k).
Proof.
  intros searchResults query events found n. subst events n.
  unfold createRagStream. fold found.
  assert (forall (l : list R) i r, nth_error l i = Some r ->
            nth_error (chunkEvents (Src:=Src) clock 2 l) i =
            Some (RetrievalChunk i (length l) r (clock (2 + i)))) as Hchunk.
  { intros l i r Hi. unfold chunkEvents, Js.mapIndex.
    rewrite nth_error_mapIndexFrom, Hi. reflexivity. }
  assert (forall l : list R, length (chunkEvents (Src:=Src) clock 2 l) = length l) as Hlen
    by (intros l; apply mapIndexFrom_length).
  destruct found as [l|]; cbn [from_option Datatypes.id app length].
  - rewrite length_app, Hlen. cbn [length].
    split; [lia|]. split; [reflexivity|]. split; [|split].
    + eexists _, _, _.
      replace (S (S (length l + 1)) - 1)%nat with (S (S (length l))) by lia.
      cbn [nth_error]. rewrite nth_error_app2 by (rewrite Hlen; lia).
      rewrite Hlen, Nat.sub_diag. reflexivity.
    + intros l' [= <-]. split; [reflexivity|]. intros i r Hi.
      cbn [Nat.add nth_error]. rewrite nth_error_app1 by
        (rewrite Hlen; apply nth_error_Some; congruence).
      by apply Hchunk.
    + intros [|[|k]] e; cbn [nth_error]; [by intros [= <-]..|].
      destruct (Nat.lt_ge_cases k (length l)) as [Hk|Hk].
      * rewrite nth_error_app1 by (by rewrite Hlen).
        destruct (nth_error l k) as [r|] eqn:Hr; [|apply nth_error_None in Hr; lia].
        rewrite (Hchunk l k r Hr). by intros [= <-].
      * rewrite nth_error_app2 by (by rewrite Hlen). rewrite Hlen.
        destruct (k - length l)%nat as [|j] eqn:Ek; cbn [nth_error].
        -- intros [= <-]. cbn [timestamp]. f_equal. lia.
        -- by destruct j.
  - split; [reflexivity|]. split; [reflexivity|]. split; [|split].
    + eexists _, _, _. reflexivity.
    + intros l [=].
    + intros [|[|[|k]]] e; cbn [nth_error]; try discriminate; by intros [= <-].
Qed.

End StreamFacts.



(** ** The retrieval client and the ingestion handlers *)

Section JsMapMoreFacts.

Context {V : Type}.
Implicit Types (m : JsMap.t V) (k : string) (v : V).

Lemma keys_set_present k v x m :
  JsMap.get k m = Some x -> map fst (JsMap.set k v m) = map fst m.
Proof.
  unfold JsMap.get. induction m as [|[k0 v0] m IH]; simpl; [discriminate|].
  destruct (String.eqb k0 k) eqn:E; simpl; [reflexivity|].
  intros H. by rewrite IH.
Qed.

Lemma set_split k v m :
  exists pre post,
    JsMap.set k v m = pre ++ (k, v) :: post /\
    (forall e, In e pre -> In e m /\ fst e <> k) /\
    (forall e, In e post -> In e m).
Proof.
  induction m as [|[k0 v0] m (pre & post & E & Hpre & Hpost)]; simpl.
  - exists [], []. split; [reflexivity|]. split; intros e [].
  - destruct (String.eqb k0 k) eqn:Ek.
    + apply String.eqb_eq in Ek. subst k0. exists [], m.
      split; [reflexivity|]. split; [intros e []|intros e He; by right].
    + apply String.eqb_neq in Ek. exists ((k0, v0) :: pre), post.
      split; [by rewrite E|]. split.
      * intros e [<-|He]; [split; [by left|exact Ek]|].
        destruct (Hpre e He). split; [by right|assumption].
      * intros e He. right. by apply Hpost.
Qed.

Lemma get_middle k x (pre post : JsMap.t V) :
  (forall e, In e pre -> fst e <> k) -> JsMap.get k (pre ++ (k, x) :: post) = Some x.
Proof.
  unfold JsMap.get. induction pre as [|[k0 v0] pre IH]; simpl; intros H.
  - by rewrite String.eqb_refl.
  - rewrite (proj2 (String.eqb_neq k0 k)) by (apply (H (k0, v0)); by left).
    apply IH. intros e He. apply H. by right.
Qed.

End JsMapMoreFacts.

Section IngestionFacts.

Import RetrievalService Ingestion.

Variable sha256 : string -> string.
Variable uuidv4 : nat -> string.

Local Abbreviation ingestDocument := (Ingestion.ingestDocument sha256 uuidv4).
Local Abbreviation uploadFile := (Ingestion.uploadFile sha256 uuidv4).

Lemma rethrow_refused service request e :
  code e = Some "ECONNREFUSED" ->
  rethrow service request e = "Retrieval service is unavailable".
Proof. intros H. unfold rethrow. by rewrite bool_decide_eq_true_2. Qed.

(** X20.  When the connection to the backend is refused, the search
    handler, the LLM handler and the ingestion handler answer with
    status 500 and the message [Retrieval service is unavailable], under
    their own error titles; the query handlers record no statistics and
    the ingestion handler stores no document. *)
Theorem refused_connection_is_reported :
  forall e,
    code e = Some "ECONNREFUSED" ->
    (forall search llm latency uuid insert req w query,
       RAGController.req_query req = Some query ->
       RAGController.invalidQuery (Some query) = false ->
       CacheService.getCachedResult (Spec.searchKey req) (RAGController.cache w) = Js.Null ->
       search query (RAGController.req_user_id req)
              (default 5 (RAGController.req_top_k req)) = Rejected e ->
       let out := RAGController.searchDocuments (Spec.throughClient search llm latency uuid insert) req w in
       fst out = {| RAGController.status := 500;
                    RAGController.body :=
                      RAGController.ErrorBody "Search failed"
                        (Some "Retrieval service is unavailable") |} /\
       RAGController.recorded (snd out) = RAGController.recorded w) /\
    (forall search llm latency uuid insert req w query,
       RAGController.req_query req = Some query ->
       RAGController.invalidQuery (Some query) = false ->
       CacheService.getCachedResult
         ("llm:" +:+ query +:+ ":" +:+
          Js.numToString (default 5 (RAGController.req_top_k req)))%string
         (RAGController.cache w) = Js.Null ->
       llm query (RAGController.req_user_id req)
           (default 5 (RAGController.req_top_k req)) = Rejected e ->
       let out :=
         RAGController.queryDocumentsWithLLM
           (Spec.throughClient search llm latency uuid insert) req w in
       fst out = {| RAGController.status := 500;
                    RAGController.body :=
                      RAGController.ErrorBody "LLM query failed"
                        (Some "Retrieval service is unavailable") |} /\
       RAGController.recorded (snd out) = RAGController.recorded w) /\
    (forall env req w text md t,
       content req = Some text -> RAGController.invalidQuery (Some text) = false ->
       metadata req = Some md -> Js.orStr (title md) None = Some t ->
       ingest_post env text md = Rejected e ->
       let out := ingestDocument env req w in
       fst out = {| status := 500;
                    body := ErrorBody "Document ingestion failed"
                              (Some "Retrieval service is unavailable") |} /\
       store (snd out) = store w).
Proof.
  intros e He. split; [|split].
  - intros search llm latency uuid insert req w query Hq Hv Hmiss Hpost out. subst out.
    unfold RAGController.searchDocuments, Spec.searchKey in *. rewrite Hq in *. rewrite Hv.
    cbn [from_option Datatypes.id] in *. rewrite Hmiss. cbn [Js.truthy].
    cbn [Spec.throughClient RAGController.retrieval_search]. rewrite Hpost.
    cbn [searchDocuments settle fst snd]. by rewrite rethrow_refused.
  - intros search llm latency uuid insert req w query Hq Hv Hmiss Hpost out. subst out.
    unfold RAGController.queryDocumentsWithLLM in *. rewrite Hq in *. rewrite Hv.
    cbn [from_option Datatypes.id] in *. rewrite Hmiss. cbn [Js.truthy].
    cbn [Spec.throughClient RAGController.retrieval_llm]. rewrite Hpost.
    cbn [queryDocumentsWithLLM settle fst snd]. by rewrite rethrow_refused.
  - intros env req w text md t Hc Hv Hm Ht Hpost out. subst out.
    unfold Ingestion.ingestDocument. rewrite Hc, Hv, Hm, Ht.
    cbn [from_option Datatypes.id]. rewrite Hpost.
    cbn [RetrievalService.ingestDocument settle fst snd]. by rewrite rethrow_refused.
Qed.

(** Without the in-memory service, the wrapper leaves the in-memory
    store alone. *)
Lemma wrapper_update db documentId status now s :
  snd (DocumentService.updateDocumentStatus db documentId status now s) =
  if DocumentService.useMemoryService db
  then snd (MemoryDocumentService.updateDocumentStatus documentId status now s)
  else s.
Proof.
  unfold DocumentService.updateDocumentStatus.
  destruct (DocumentService.useMemoryService db).
  - by destruct (MemoryDocumentService.updateDocumentStatus documentId status now s).
  - by destruct (DocumentService.update_transaction db documentId status).
Qed.

(** X21.  A failed upload is answered with status 503 when the message of
    the failure contains [unavailable], as it does when the connection to
    the backend is refused, and with status 500 and that message
    otherwise.  In both cases no document is created or removed, and the
    stored documents are left as they are unless one of them is named
    [temp_] followed by the current time in milliseconds. *)
Theorem failed_upload_is_reported :
  forall env req w f t e,
    file req = Some f ->
    Js.orStr (upload_title req) None = Some t ->
    upload_post env f t (default EmptyString (upload_author req))
      (default EmptyString (upload_source req)) = Rejected e ->
    let out := uploadFile env req w in
    let m := rethrow "File upload" "File upload" e in
    let temp := ("temp_" +:+ Js.numToString (date_now env))%string in
    (code e = Some "ECONNREFUSED" ->
     fst out = {| status := 503;
                  body := ErrorBody "Upload service temporarily unavailable"
                            (Some "Please try again in a few moments") |}) /\
    (status (fst out) = 503%nat <-> Js.includes m "unavailable" = true) /\
    (Js.includes m "unavailable" = false ->
     fst out = {| status := 500; body := ErrorBody "Failed to upload file" (Some m) |}) /\
    map fst (MemoryDocumentService.documents (store (snd out))) =
      map fst (MemoryDocumentService.documents (store w)) /\
    (MemoryDocumentService.getDocumentById temp (store w) = None ->
     store (snd out) = store w) /\
    cache (snd out) = CacheService.elapse (latency env) (cache w).
Proof.
  intros env req w f t e Hf Ht Hpost out m temp. subst out.
  unfold Ingestion.uploadFile. rewrite Hf, Ht, Hpost.
  cbn [RetrievalService.uploadFile settle]. fold m.
  unfold uploadFailed. fold temp. cbn [await store cache].
  split; [|split; [|split; [|split; [|split]]]].
  - intros He. unfold m. by rewrite (rethrow_refused _ _ _ He).
  - destruct (Js.includes m "unavailable"); cbn [fst status]; split; congruence.
  - by intros ->.
  - destruct (Js.includes m "unavailable"); cbn [snd store];
      rewrite wrapper_update;
      (destruct (DocumentService.useMemoryService (database env)); [|reflexivity]);
      unfold MemoryDocumentService.updateDocumentStatus;
      (destruct (JsMap.get temp (MemoryDocumentService.documents (store w))) eqn:E;
       cbn [snd MemoryDocumentService.documents]; [by apply keys_set_present with d|reflexivity]).
  - unfold MemoryDocumentService.getDocumentById. intros E.
    destruct (Js.includes m "unavailable"); cbn [snd store];
      rewrite wrapper_update;
      (destruct (DocumentService.useMemoryService (database env)); [|reflexivity]);
      unfold MemoryDocumentService.updateDocumentStatus; by rewrite E.
  - by destruct (Js.includes m "unavailable").
Qed.

(** [createDocument] followed by [updateDocumentStatus(_, "completed")]
    in the in-memory service, for a generated identifier that is not in
    use. *)
Lemma record_fresh data env w :
  DocumentService.useMemoryService (database env) = true ->
  Spec.storeOk (store w) ->
  MemoryDocumentService.DocumentData.document_id data = None ->
  let rid := ("doc_" +:+ uuidv4 (MemoryDocumentService.drawn (store w)))%string in
  let jid := ("job_" +:+ uuidv4 (S (MemoryDocumentService.drawn (store w))))%string in
  MemoryDocumentService.getDocumentById rid (store w) = None ->
  let out := record sha256 uuidv4 data env w in
  fst out = RAGController.Returns rid /\
  (exists d, MemoryDocumentService.getDocumentById rid (store (snd out)) = Some d /\
     MemoryDocumentService.status d = "completed" /\
     MemoryDocumentService.title d = MemoryDocumentService.DocumentData.title data /\
     MemoryDocumentService.file_size d = MemoryDocumentService.DocumentData.file_size data) /\
  (exists j, JsMap.get jid (MemoryDocumentService.jobs (store (snd out))) = Some j /\
     MemoryDocumentService.job_document_id j = rid /\
     MemoryDocumentService.job_status j = "completed" /\
     MemoryDocumentService.completed_at j = Some (updated_at env)) /\
  MemoryDocumentService.document_count (MemoryDocumentService.getStats (store (snd out))) =
    S (MemoryDocumentService.document_count (MemoryDocumentService.getStats (store w))) /\
  CacheEntries.getCachedDocumentChunks rid (cache (snd out)) = Js.Null.
Proof.
  intros Hmem Ok Hid rid jid Hfresh out. subst out.
  unfold record, DocumentService.createDocument, DocumentService.updateDocumentStatus.
  rewrite Hmem.
  unfold MemoryDocumentService.createDocument. rewrite orFresh_spec, Hid.
  cbn [Js.orStr MemoryDocumentService.created_document_id fst snd]. fold rid. fold jid.
  unfold MemoryDocumentService.updateDocumentStatus.
  cbn [MemoryDocumentService.documents MemoryDocumentService.jobs
       MemoryDocumentService.chunks MemoryDocumentService.drawn].
  rewrite get_set_eq. cbn [snd store cache fst].
  unfold MemoryDocumentService.getDocumentById, MemoryDocumentService.getStats in *.
  cbn [MemoryDocumentService.documents MemoryDocumentService.jobs
       MemoryDocumentService.document_count].
  split; [reflexivity|]. split; [|split; [|split]].
  - eexists. split; [apply get_set_eq|]. by repeat split.
  - set (jobRec := MemoryDocumentService.Build_Job _ jid rid _ _ _ _ _ _ _ _).
    destruct (set_split jid jobRec (MemoryDocumentService.jobs (store w)))
      as (pre & post & E & Hpre & Hpost).
    rewrite (updateFirst_first _ _ _ pre jid jobRec post E).
    + eexists. split; [apply get_middle; intros e' He'; by apply Hpre|]. by repeat split.
    + intros [k j] Hj. simpl. apply String.eqb_neq. intros Ej.
      destruct (Hpre _ Hj) as [Hin _].
      assert (JsMap.has (MemoryDocumentService.job_document_id j)
                (MemoryDocumentService.documents (store w)) = true) as Hhas.
      { apply (Spec.ok_job_documents _ Ok). apply in_map_iff. by exists (k, j). }
      rewrite Ej, has_get, Hfresh in Hhas. discriminate.
    + apply String.eqb_refl.
  - rewrite !size_set, Hfresh, get_set_eq. lia.
  - unfold CacheEntries.getCachedDocumentChunks, CacheService.invalidateDocumentCache,
      CacheService._deleteCache, CacheService._getCache, CacheEntries.chunksKey.
    cbn [snd CacheService.memoryCache]. by rewrite lookup_delete_eq.
Qed.

(** With the MySQL database, the in-memory store is not touched, and a
    failure of a transaction is all that can go wrong. *)
Lemma record_mysql data env w :
  DocumentService.useMemoryService (database env) = false ->
  let out := record sha256 uuidv4 data env w in
  store (snd out) = store w /\
  ((forall d, DocumentService.create_transaction (database env) d = RAGController.Returns tt) ->
   (forall k st,
      DocumentService.update_transaction (database env) k st = RAGController.Returns tt) ->
   exists documentId, fst out = RAGController.Returns documentId).
Proof.
  intros Hmy out. subst out.
  unfold record, DocumentService.createDocument, DocumentService.updateDocumentStatus.
  rewrite Hmy.
  destruct (DocumentService.create_transaction (database env) data) as [[]|message] eqn:Ec.
  - match goal with |- context [DocumentService.update_transaction ?db ?k ?st] =>
      destruct (DocumentService.update_transaction db k st) as [[]|message] eqn:Eu end.
    + split; [reflexivity|]. intros _ _. by eexists.
    + split; [reflexivity|]. intros _ Hu. rewrite Hu in Eu. discriminate.
  - split; [reflexivity|]. intros Hc. rewrite Hc in Ec. discriminate.
Qed.

(** X22.  A valid ingestion request that the backend accepts is answered,
    when the document service uses the in-memory store, with status 201
    and the identifiers of the backend and of the new record.  When the
    generated identifier is not in use, the record can be read back with
    status [completed], the title of the request and the length of the
    content; the ingestion job of the document is completed; there is
    one more document than before; and no chunks are cached for the
    document.  When the document service uses the MySQL database, the
    in-memory store is left as it is, and the request is answered with
    status 201, or with status 500 and the title
    [Document ingestion failed]; it is answered with 201 when the
    transactions of the database commit. *)
Theorem accepted_ingestion_is_recorded :
  forall env req w text md t result,
    content req = Some text -> RAGController.invalidQuery (Some text) = false ->
    metadata req = Some md -> Js.orStr (title md) None = Some t ->
    ingest_post env text md = Resolved result ->
    let out := ingestDocument env req w in
    (DocumentService.useMemoryService (database env) = true ->
     MemoryDocumentService.reachable sha256 uuidv4 (store w) ->
     let rid := ("doc_" +:+ uuidv4 (MemoryDocumentService.drawn (store w)))%string in
     let jid := ("job_" +:+ uuidv4 (S (MemoryDocumentService.drawn (store w))))%string in
     MemoryDocumentService.getDocumentById rid (store w) = None ->
     fst out = {| status := 201;
                  body := IngestedBody "Document successfully ingested"
                            (ingested_document_id result) (chunks_processed result)
                            (ingested_status result) rid |} /\
     (exists d, MemoryDocumentService.getDocumentById rid (store (snd out)) = Some d /\
        MemoryDocumentService.status d = "completed" /\
        MemoryDocumentService.title d = Some t /\
        MemoryDocumentService.file_size d = Some (Z.of_nat (String.length text))) /\
     (exists j, JsMap.get jid (MemoryDocumentService.jobs (store (snd out))) = Some j /\
        MemoryDocumentService.job_document_id j = rid /\
        MemoryDocumentService.job_status j = "completed" /\
        MemoryDocumentService.completed_at j = Some (updated_at env)) /\
     MemoryDocumentService.document_count (MemoryDocumentService.getStats (store (snd out))) =
       S (MemoryDocumentService.document_count (MemoryDocumentService.getStats (store w))) /\
     CacheEntries.getCachedDocumentChunks rid (cache (snd out)) = Js.Null) /\
    (DocumentService.useMemoryService (database env) = false ->
     store (snd out) = store w /\
     (status (fst out) = 201%nat \/
      exists message,
        fst out = {| status := 500;
                     body := ErrorBody "Document ingestion failed" (Some message) |}) /\
     ((forall d,
         DocumentService.create_transaction (database env) d = RAGController.Returns tt) ->
      (forall k st,
         DocumentService.update_transaction (database env) k st = RAGController.Returns tt) ->
      status (fst out) = 201%nat)).
Proof.
  intros env req w text md t result Hc Hv Hm Ht Hpost out. subst out.
  unfold Ingestion.ingestDocument. rewrite Hc, Hv, Hm, Ht.
  cbn [from_option Datatypes.id]. rewrite Hpost.
  cbn [RetrievalService.ingestDocument settle].
  set (data := documentData _ _ _ _).
  split.
  - intros Hmem R Hfresh.
    pose proof (record_fresh data env (await (latency env) w) Hmem
                  (storeOk_reachable sha256 uuidv4 _ R) eq_refl Hfresh) as H.
    cbn [await store] in H. cbv zeta in H.
    destruct (record sha256 uuidv4 data env (await (latency env) w)) as [documentId w2].
    cbn [fst snd] in *. destruct H as (-> & Hd & Hj & Hn & Hcache).
    split; [reflexivity|]. split; [exact Hd|]. split; [exact Hj|]. by split.
  - intros Hmy.
    destruct (record_mysql data env (await (latency env) w) Hmy) as [Hs Hok].
    cbn [await store] in Hs.
    destruct (record sha256 uuidv4 data env (await (latency env) w))
      as [[documentId|message] w2]; cbn [fst snd] in *.
    + split; [exact Hs|]. split; [by left|]. reflexivity.
    + split; [exact Hs|]. split; [right; by exists message|].
      intros H1 H2. destruct (Hok H1 H2) as [documentId E]. discriminate E.
Qed.

End IngestionFacts.

(** ** The detailed health check *)

Section HealthFacts.

Import Health.

Context {T : Type}.
Variable healthObject : bool -> string -> T.
Variable statusOf : T -> Js.value T.
Hypothesis status_of_health : forall b t, statusOf (healthObject b t) = Js.Bool b.

Local Abbreviation healthCheckDetailed := (Health.healthCheckDetailed healthObject statusOf).

(** X25.  A detailed health check that finds no cached status asks the
    backend and answers 200 when it is healthy and 503 when it is not.
    For the next 30 seconds, counted from the answer of the backend, a
    further detailed check reports that same status, healthy or not,
    whatever the backend would answer by then. *)
Theorem health_status_is_cached_for_thirty_seconds :
  forall env env' (s : CacheService.state T) ops,
    CacheService.reachable s ->
    Js.truthy (getCachedHealthStatus "retrieval_service" s) = false ->
    Forall (CacheService.leaves (healthKey "retrieval_service")) ops ->
    let first := healthCheckDetailed env s in
    let healthy := RetrievalService.healthCheck (health_get env) in
    let s2 := CacheService.run ops (snd first) in
    CacheService.clock s2 < CacheService.clock s + Z.of_N (latency env) + 30 * 1000 ->
    let second := healthCheckDetailed env' s2 in
    statusCode (fst first) = (if healthy then 200 else 503)%nat /\
    retrieval_service (fst first) = (if healthy then "healthy" else "unhealthy") /\
    statusCode (fst second) = statusCode (fst first) /\
    retrieval_service (fst second) = retrieval_service (fst first).
Proof.
  intros env env' s ops R Hmiss Hops first healthy s2 Hclock second.
  set (s' := CacheService.elapse (latency env) s).
  set (o := Js.Obj (healthObject healthy (date env))).
  set (sa := CacheService._setCacheWithExpiration (healthKey "retrieval_service") o 30 s').
  assert (CacheService.reachable s') as R'
    by apply (CacheService.reachable_step (CacheService.OpElapse _) _ R).
  assert (exists waits,
            Forall (CacheService.leaves (healthKey "retrieval_service")) waits /\
            snd first = CacheService.run waits sa /\
            statusCode (fst first) = (if healthy then 200 else 503)%nat /\
            retrieval_service (fst first) = (if healthy then "healthy" else "unhealthy"))
    as (waits & Hwaits & Efirst & Hcode & Hname).
  { unfold first, Health.healthCheckDetailed. rewrite Hmiss.
    unfold cacheHealthStatus. cbn [snd from_option Datatypes.id Js.truthy].
    fold healthy. fold s'. fold o. fold sa.
    destruct healthy.
    - exists [CacheService.OpElapse (statistics_latency env);
              CacheService.OpElapse (latency env)].
      split; [repeat constructor|]. by repeat split.
    - exists [CacheService.OpElapse (statistics_latency env)].
      split; [repeat constructor|]. by repeat split. }
  assert (s2 = CacheService.run (waits ++ ops) sa) as Es2
    by (unfold s2, CacheService.run; by rewrite Efirst, fold_left_app).
  destruct (read_after_set (healthKey "retrieval_service") o 30 (waits ++ ops) s' R')
    as (_ & _ & G).
  { apply List.Forall_app. by split. }
  { fold sa. rewrite <- Es2.
    destruct (elapse_spec (latency env) s (wf_reachable s R)) as (_ & _ & Ecl & _).
    fold s' in Ecl. rewrite Ecl. exact Hclock. }
  fold sa in G. rewrite <- Es2 in G. cbn [Js.truthy o] in G.
  split; [exact Hcode|]. split; [exact Hname|].
  rewrite Hcode, Hname.
  unfold second, Health.healthCheckDetailed, getCachedHealthStatus. rewrite G.
  unfold o. cbn [Js.truthy statusProperty]. rewrite status_of_health.
  by destruct healthy.
Qed.

End HealthFacts.

(** ** Checks on concrete inputs *)

Example cache_ttl_eleven_words :
  RAGController._getCacheTTL "one two three four five six seven eight nine ten eleven" = 300 /\
  RAGController._getCacheTTL "one two three four five" = 600.
Proof. vm_compute. split; reflexivity. Qed.

Example rewrite_ex :
QueryProcessor.terms (QueryProcessor.rewriteQuery "How do I fix an error in the config") =
["how"; "do"; "i"; "fix"; "error"; "config"; "issue"; "problem"; "troubleshoot";
 "configuration"; "settings"; "preferences"; "options"].
Proof. vm_compute. reflexivity. Qed.

Example entries_ex :
map fst (Js.entries [("b", 1%nat); ("10", 2%nat); ("a", 3%nat); ("2", 4%nat); ("01", 5%nat)]) =
["2"; "10"; "b"; "a"; "01"].
Proof. vm_compute. reflexivity. Qed.

Example technical_ex :
map QueryProcessor.isTechnicalTerm ["camelCase"; "MAX_SIZE"; "v12"; "index.js"; "api"; "plain"; "Word"] =
[true; true; true; true; true; false; false].
Proof. vm_compute. reflexivity. Qed.

Example cache_replace_ex :
let s := CacheService.run
           [CacheService.OpSet "k" (Js.Num 1) 10; CacheService.OpElapse 5000;
            CacheService.OpSet "k" (Js.Num 7) 20; CacheService.OpElapse 5000]
           (CacheService.init (T := unit)) in
CacheService._getCache "k" s = Js.Num 7 /\ length (CacheService.pending s) = 1%nat.
Proof. vm_compute. split; reflexivity. Qed.

Example split_leading : Js.split Js.isWhiteSpace "  a b " = [""; "a"; "b"; ""].
Proof. reflexivity. Qed.

Example toFixed3_ex :
  map Js.toFixed3Q [1 # 16; 1 # 256; 3 # 64; 2047 # 2048; 1 # 2; (-1) # 16384; 17 # 1; 0 # 1] =
  ["0.063"; "0.004"; "0.047"; "1.000"; "0.500"; "-0.000"; "17.000"; "0.000"].
Proof. vm_compute. reflexivity. Qed.

Example timer_delay_ex :
  map CacheService.timerDelay [600000; 2147483647; 2147483648; 2147484000; 0; -5] =
  [600000; 2147483647; 1; 1; 1; 1].
Proof. reflexivity. Qed.

Example inherited_keys_ex :
  forallb (fun key =>
             match QueryProcessor.pushGroup key (Sample.result "c1" "text" (1 # 2) key) [] with
             | Js.TypeError _ => true
             | Js.Normal _ => false
             end) Js.objectPrototype = true /\
  map Js.inherited ["unknown"; "guide"; "doc_1"; "Constructor"] = [false; false; false; false].
Proof. vm_compute. split; reflexivity. Qed.

Example ingestion_without_database_ex :
  fst (Ingestion.ingestDocument Scenario.hash Scenario.uuid (Scenario.ingestionOver false true)
         Scenario.ingest Scenario.empty) =
  {| Ingestion.status := 500;
     Ingestion.body :=
       Ingestion.ErrorBody "Document ingestion failed"
         (Some "connect ECONNREFUSED 127.0.0.1:3306") |} /\
  fst (Ingestion.uploadFile Scenario.hash Scenario.uuid (Scenario.ingestionOver false true)
         Scenario.upload Scenario.empty) =
  {| Ingestion.status := 500;
     Ingestion.body :=
       Ingestion.ErrorBody "Failed to upload file"
         (Some "connect ECONNREFUSED 127.0.0.1:3306") |}.
Proof. vm_compute. split; reflexivity. Qed.

(** ** Further checks on concrete inputs *)

Lemma cache_entry_expires_after_ttl_witness :
  let s' := CacheService.run
              [CacheService.OpSet "other" (Js.Num 2) 60; CacheService.OpElapse 10000]
              (CacheService._setCacheWithExpiration "k" (Js.Num 1) 10
                 (CacheService.init (T := unit))) in
  CacheService.memoryCache s' !! "k" = None /\
  CacheService.timersOf "k" s' = [] /\
  CacheService.getCachedResult "k" s' = Js.Null.
Proof.
  intros s'.
  destruct (cache_entry_expires_after_ttl (T := unit) CacheService.init "k" (Js.Num 1) 10
              [CacheService.OpSet "other" (Js.Num 2) 60; CacheService.OpElapse 10000])
    as ((Hm & _ & Ht) & _ & Hg).
  - constructor.
  - lia.
  - repeat constructor. discriminate.
  - vm_compute. discriminate.
  - split; [exact Hm|]. split; [exact Ht|exact Hg].
Defined.

Lemma cache_delete_removes_entry_and_timer_witness :
  let s := CacheService._setCacheWithExpiration "k" (Js.Num 1) 10
             (CacheService.init (T := unit)) in
  let s' := CacheService.run [CacheService.OpElapse 5] (snd (CacheService._deleteCache "k" s)) in
  CacheService._getCache "k" s' = Js.Null /\
  fst (CacheService._deleteCache "k" s') = false.
Proof.
  intros s s'.
  destruct (cache_delete_removes_entry_and_timer (T := unit) s "k" [CacheService.OpElapse 5])
    as (_ & _ & H3 & H4 & _).
  - apply (CacheService.reachable_step (CacheService.OpSet "k" (Js.Num 1) 10)). constructor.
  - repeat constructor.
  - split; [exact H3|exact H4].
Defined.

Lemma cache_entries_match_timers_witness :
  let s := CacheService.run
             [CacheService.OpSet "a" (Js.Num 1) 10; CacheService.OpSet "b" (Js.Num 2) 20;
              CacheService.OpElapse 10000]
             (CacheService.init (T := unit)) in
  CacheService.cacheSize s = length (CacheService.pending s) /\
  length (CacheService.pending s) = 1%nat.
Proof.
  intros s.
  destruct (cache_entries_match_timers (T := unit) s) as (_ & _ & H).
  - apply reachable_run. constructor.
  - split; [exact H|vm_compute; reflexivity].
Defined.

Lemma query_cache_hit_up_to_case_and_space_witness :
  let s' := CacheService.run [CacheService.OpElapse 1000]
              (snd (CacheEntries.cacheQueryResults Scenario.hash "How To Deploy" (Js.Num 7) None
                      (CacheService.init (T := unit)))) in
  CacheEntries.getCachedQueryResults Scenario.hash "  how to DEPLOY " s' = Js.Num 7.
Proof.
  intros s'.
  destruct (query_cache_hit_up_to_case_and_space (T := unit) Scenario.hash CacheService.init
              "How To Deploy" "  how to DEPLOY " (Js.Num 7) None [CacheService.OpElapse 1000])
    as (H & _).
  - constructor.
  - vm_compute. reflexivity.
  - repeat constructor.
  - vm_compute. reflexivity.
  - exact H.
Defined.

Lemma invalidate_document_chunks_witness :
  let s' := CacheService.run [CacheService.OpElapse 1000]
              (snd (CacheEntries.cacheDocumentChunks "doc1" (Js.Num 3) None
                      (CacheService.init (T := unit)))) in
  CacheEntries.getCachedDocumentChunks "doc1" s' = Js.Num 3 /\
  fst (CacheService.invalidateDocumentCache "doc1" s') = true /\
  CacheEntries.getCachedDocumentChunks "doc1"
    (snd (CacheService.invalidateDocumentCache "doc1" s')) = Js.Null.
Proof.
  intros s'.
  destruct (invalidate_document_chunks (T := unit) Scenario.hash CacheService.init
              "doc1" (Js.Num 3) None [CacheService.OpElapse 1000])
    as (_ & _ & H1 & H2 & H3 & _).
  - constructor.
  - repeat constructor.
  - vm_compute. reflexivity.
  - split; [exact H1|]. split; [exact H2|exact H3].
Defined.

Lemma valid_search_answer_is_served_from_cache_witness :
  let req := Scenario.request "install the package" in
  let first := RAGController.searchDocuments Scenario.found req Scenario.world in
  let w2 := {| RAGController.cache :=
                 CacheService.run [CacheService.OpElapse 60000]
                   (RAGController.cache (snd first));
               RAGController.recorded := RAGController.recorded (snd first) |} in
  exists response,
    fst first = {| RAGController.status := 200;
                   RAGController.body := RAGController.SearchBody response |} /\
    fst (RAGController.searchDocuments Scenario.unreachable req w2) =
    {| RAGController.status := 200;
       RAGController.body :=
         RAGController.CachedBody (Js.Obj (RAGController.SearchPayload response)) |}.
Proof.
  intros req first w2.
  destruct (valid_search_answer_is_served_from_cache Scenario.found Scenario.unreachable req
              Scenario.world w2 [CacheService.OpElapse 60000]
              (RAGController._validateRetrievalQuality
                 [Sample.result "c1" "install the package" (9 # 10) "guide";
                  Sample.result "c2" "configure the server" (1 # 2) "manual"]
                 (map RAGController.formatResult
                    [Sample.result "c1" "install the package" (9 # 10) "guide";
                     Sample.result "c2" "configure the server" (1 # 2) "manual"])))
    as (response & H1 & H2 & _).
  - constructor.
  - vm_compute. reflexivity.
  - vm_compute. reflexivity.
  - reflexivity.
  - repeat constructor.
  - vm_compute. reflexivity.
  - exists response. split; [exact H1|exact H2].
Defined.

Lemma gated_llm_answer_is_withheld_witness :
  exists response,
    fst (RAGController.queryDocumentsWithLLM Scenario.found (Scenario.request "what is x")
           Scenario.world) =
    {| RAGController.status := 200; RAGController.body := RAGController.LlmBody response |} /\
    RAGController.answer response = RAGController.lowQualityAnswer /\
    RAGController.sources response = [].
Proof.
  destruct (gated_llm_answer_is_withheld Scenario.found (Scenario.request "what is x")
              Scenario.world
              (RAGController._validateRetrievalQuality [] [])
              "what is x"
              {| RAGController.llm_reply_query := "what is x";
                 RAGController.llm_reply_answer := "An answer without sources";
                 RAGController.llm_reply_sources := [];
                 RAGController.llm_reply_query_embedding := [] |})
    as (response & H1 & _ & Hgated & _).
  - reflexivity.
  - vm_compute. reflexivity.
  - reflexivity.
  - exists response. split; [exact H1|].
    destruct Hgated as (Ha & Hs & _); [reflexivity|]. split; [exact Ha|exact Hs].
Defined.

Lemma answered_requests_insert_at_most_one_row_witness :
  let req := Scenario.request "install the package" in
  let stored := RAGController.searchDocuments Scenario.found req Scenario.world in
  let refused := RAGController.searchDocuments Scenario.strict req Scenario.world in
  RAGController.status (fst stored) = 200%nat /\
  map RAGController.query_text (RAGController.recorded (snd stored)) = [None] /\
  RAGController.recorded (snd refused) = [] /\
  fst refused = fst stored.
Proof.
  intros req stored refused.
  destruct (answered_requests_insert_at_most_one_row Scenario.found req Scenario.world
              RAGController.searchDocuments) as [_ Hsame]; [by left|].
  destruct (Hsame Scenario.strict) as [Hfst _]; try reflexivity.
  split; [reflexivity|]. split; [reflexivity|]. split; [reflexivity|exact Hfst].
Defined.

Lemma document_pages_partition_witness :
  let page o l :=
    MemoryDocumentService.page_documents
      (MemoryDocumentService.getAllDocuments (Some o) (Some l) Scenario.library) in
  page 0 2 ++ page 2 2 = page 0 4 /\
  map MemoryDocumentService.title (page 0 4) = [Some "a"; Some "b"; Some "c"].
Proof.
  intros page.
  destruct (document_pages_partition 0 2 2 Scenario.library) as (H & _); try lia.
  split; [exact H|vm_compute; reflexivity].
Defined.

Lemma document_store_is_consistent_witness :
  List.NoDup (map MemoryDocumentService.document_id
                (JsMap.values (MemoryDocumentService.documents Scenario.library))) /\
  length (JsMap.values (MemoryDocumentService.jobs Scenario.library)) = 3%nat.
Proof.
  destruct (document_store_is_consistent Scenario.hash Scenario.uuid Scenario.library)
    as (H & _).
  - unfold Scenario.library. cbn [fold_left].
    do 3 apply MemoryDocumentService.reachable_step. constructor.
  - split; [exact H|vm_compute; reflexivity].
Defined.

Lemma refused_connection_is_reported_witness :
  fst (RAGController.searchDocuments Scenario.unreachable (Scenario.request "install")
         Scenario.world) =
  {| RAGController.status := 500;
     RAGController.body :=
       RAGController.ErrorBody "Search failed" (Some "Retrieval service is unavailable") |} /\
  fst (Ingestion.ingestDocument Scenario.hash Scenario.uuid (Scenario.ingestion false)
         Scenario.ingest Scenario.empty) =
  {| Ingestion.status := 500;
     Ingestion.body :=
       Ingestion.ErrorBody "Document ingestion failed"
         (Some "Retrieval service is unavailable") |}.
Proof.
  destruct (refused_connection_is_reported Scenario.hash Scenario.uuid Scenario.refused)
    as (Hsearch & _ & Hingest); [reflexivity|].
  split.
  - apply (Hsearch (fun _ _ _ => RetrievalService.Rejected Scenario.refused)
                   (fun _ _ _ => RetrievalService.Rejected Scenario.refused) 5%N
                   "0" (fun _ => RAGController.Returns tt)
                   (Scenario.request "install") Scenario.world "install");
      reflexivity.
  - apply (Hingest (Scenario.ingestion false) Scenario.ingest Scenario.empty
                   "How to install the package"
                   {| Ingestion.title := Some "Guide"; Ingestion.author := None;
                      Ingestion.source := None; Ingestion.source_file := None;
                      Ingestion.file_type := None |} "Guide"); reflexivity.
Defined.

Lemma failed_upload_is_reported_witness :
  let out := Ingestion.uploadFile Scenario.hash Scenario.uuid (Scenario.ingestion false)
               Scenario.upload Scenario.empty in
  fst out =
  {| Ingestion.status := 503;
     Ingestion.body :=
       Ingestion.ErrorBody "Upload service temporarily unavailable"
         (Some "Please try again in a few moments") |} /\
  Ingestion.store (snd out) = MemoryDocumentService.init.
Proof.
  intros out.
  destruct (failed_upload_is_reported Scenario.hash Scenario.uuid (Scenario.ingestion false)
              Scenario.upload Scenario.empty
              {| Ingestion.originalname := "guide.pdf";
                 Ingestion.mimetype := "application/pdf";
                 Ingestion.buffer_length := 1024 |}
              "Guide" Scenario.refused) as (H1 & _ & _ & _ & H5 & _); try reflexivity.
  split; [apply H1; reflexivity|apply H5; reflexivity].
Defined.

Lemma accepted_ingestion_is_recorded_witness :
  let out := Ingestion.ingestDocument Scenario.hash Scenario.uuid (Scenario.ingestion true)
               Scenario.ingest Scenario.empty in
  Ingestion.status (fst out) = 201%nat /\
  exists d,
    MemoryDocumentService.getDocumentById "doc_0" (Ingestion.store (snd out)) = Some d /\
    MemoryDocumentService.status d = "completed" /\
    MemoryDocumentService.title d = Some "Guide".
Proof.
  intros out.
  destruct (accepted_ingestion_is_recorded Scenario.hash Scenario.uuid (Scenario.ingestion true)
              Scenario.ingest Scenario.empty "How to install the package"
              {| Ingestion.title := Some "Guide"; Ingestion.author := None;
                 Ingestion.source := None; Ingestion.source_file := None;
                 Ingestion.file_type := None |}
              "Guide"
              {| Ingestion.ingested_document_id := Some "backend-1";
                 Ingestion.chunks_processed := Some 3;
                 Ingestion.ingested_status := Some "success" |})
    as [Hmemory _]; try reflexivity.
  destruct Hmemory as (H1 & (d & Hd & Hs & Ht & _) & _); try reflexivity.
  - constructor.
  - split; [fold out in H1; by rewrite H1|]. exists d. split; [exact Hd|]. split; assumption.
Defined.

Lemma health_status_is_cached_for_thirty_seconds_witness :
  let check env s :=
    Health.healthCheckDetailed (T := bool * string) pair (fun o => Js.Bool (fst o)) env s in
  let first := check (Scenario.health false) CacheService.init in
  let second := check (Scenario.health true)
                  (CacheService.run [CacheService.OpElapse 20000] (snd first)) in
  Health.statusCode (fst first) = 503%nat /\
  Health.statusCode (fst second) = 503%nat /\
  Health.retrieval_service (fst second) = "unhealthy".
Proof.
  intros check first second.
  destruct (health_status_is_cached_for_thirty_seconds (T := bool * string) pair
              (fun o => Js.Bool (fst o)) (fun b t => eq_refl)
              (Scenario.health false) (Scenario.health true) CacheService.init
              [CacheService.OpElapse 20000])
    as (H1 & H2 & H3 & H4).
  - constructor.
  - reflexivity.
  - repeat constructor.
  - vm_compute. reflexivity.
  - split; [exact H1|]. split; [exact (eq_trans H3 H1)|exact (eq_trans H4 H2)].
Defined.
